(* ===== verification/_CoqProject ===== *)
-Q . S2P
Prelude.v
JsString.v
JsNumber.v
JsValue.v
OwnKeys.v
Minimist.v
Coercer.v
Normalizer.v
PathBuilder.v
Merge.v
Freeze.v
FreezeRefs.v
Loaders.v
Orchestrator.v
BlackBox.v
