(* ===== verification/Prelude.v ===== *)
(** * c11n: a verification development of the configuration loader

    The program ([src/index.js]) builds one configuration object from
    three sources: the process environment, JSON files and command-line
    flags.  Flat keys such as [MY_APP_REDIS_AUTH] are normalised
    ([loadFromObject], lines 36-48), their values coerced ([parseValue],
    lines 240-251) and inserted into a tree by a pointer-walking loop
    (lines 55-102) that wraps a leaf in [{ _: leaf }] when a longer key
    passes through it.  Trees are deep-merged by [extend] (lines 292-315)
    in the order environment, files, flags, and deep-frozen by [freeze]
    (lines 284-290).  [loadConfiguration] (lines 178-236) sequences the
    sources asynchronously and reports through a callback and a promise.

    ** Files, in dependency order

    - [Prelude] (this file): the [res] outcome type of JavaScript code
      ([Ok], or [Err] with [TypeError], [Proto k] when the code reaches
      [Object.prototype] or a builtin through the configuration key [k]
      and goes on outside the model, [Stuck] for a state the code cannot
      reach), its stdpp monad instances ([x ← c; k]), association lists
      (own properties in insertion order), the hint databases [c11n] and
      [c11n_rw].
    - [JsString]: [toLowerCase] on Latin-1, the regular expressions
      [normalize], [trim_leading], [trim_trailing], [startsWith],
      [replace] with a string pattern, [split('_')].
    - [JsNumber]: numbers ([NaN], signed infinities, signed exact
      decimals in canonical form) and [StringToNumber], the unary [+].
    - [JsValue]: primitives, objects and arrays (kind, frozen flag, own
      properties), strict-mode [[Get]]/[[Set]], the [in] operator with
      the names of [Object.prototype] and [Array.prototype], and
      [owns_hop]: [obj.hasOwnProperty(key)] (lines 34, 286, 294) throws
      a [TypeError] when [obj] owns a property of that name; paths into
      a tree and the replacement of the node at a path.
    - [OwnKeys]: the order in which [for (key in obj)] visits an
      object's own keys ([own_keys]): array indices ascending, then the
      other keys in creation order, the model keeping every object's
      properties in creation order.
    - [Minimist]: the flag parser [minimist] that [loadFromArgv] calls,
      a library outside the repository, modelled from the convention of
      spec section 5 as its version 1.2 applies it: the loop over the
      arguments ([parse_args], [short_letters]), [setArg]/[setKey]
      ([set_arg], [set_key]; a name of [Object.prototype] throws a
      [TypeError] there) and [isNumber].
    - [Coercer]: [parseValue] and [ToNumber].
    - [Normalizer]: the options record and the key normalisation.
    - [PathBuilder]: Module [Walk] is [loadFromObject] as written, with
      its [hasOwnProperty] test, [level], [prevl] and [prevp] as paths
      (the objects the loop builds form a tree and never move, so a path
      names an object) and [refs] as a list of paths; Module [Spec] is
      the recursive insertion of the spec (section 4.3), [ins], and the
      flat reading of a tree, [get_entry]; Module [Refinement] proves the
      loop computes [ins]; Module [Contract] proves [ins] is a map update
      and lifts it to the whole source; Module [Examples] runs the spec's
      scenarios.
    - [Merge]: [extend], its loop [extend_loop] (the recursive call a
      parameter) and its contract [extend_merge].
    - [Freeze]: [freeze], its loop [freeze_props], and [deep_freeze], the
      tree after a run of [freeze] that does not throw.
    - [FreezeRefs]: the final loop of [loadFromObject] (lines 106-107)
      freezes the objects named by [refs]; [mark] is a tree with the
      objects at a list of paths frozen, [obj_at] the paths of the
      objects of a tree, [pushed] (in [PathBuilder.Refinement]) the paths
      the loop pushes for one key.
    - [Loaders]: [loadFromEnv], [clean] and [loadFromArgv]: the cleaned
      [process.argv] parsed by [Minimist.minimist], without [_], in the
      order [for..in] visits the parsed object ([argv_entries]).
    - [Orchestrator]: [loadFromFile], [resolvePath] (with Node's
      [path.extname]), [filesByEnv] and [loadConfiguration].  A [world]
      holds what the program reads from outside: [process.env],
      [process.argv], the [base] directory of [expand] ([path.resolve],
      normalising [.], [..] and empty segments), a file-system oracle
      giving for a path the parsed JSON value or the read or parse
      failure, the time at which the read of a path completes, which
      orders the failures [Promise.all] sees ([first_failure]),
      [fs.exists], and whether the caller's callback throws.  The
      asynchronous steps run one after the other, so a call is a
      function returning a synchronous exception ([OThrow]), the trace
      of what the caller observes ([OEvents]: callback calls, the
      settlement of the promise, an exception escaping to the event
      loop), or the configuration key through which the run leaves the
      model ([OOutside], [EOutside], from [Proto]).
    - [BlackBox]: the test script [src/test/index.js] as its exit code,
      with Node's legacy (loose) [assert.deepEqual] ([deep_equal]) and
      the fixture files as inputs.

    ** What is proved

    - Refinement: the segment loop computes the insertion of the spec,
      for a value of any kind ([PathBuilder.Refinement.walk_parts_ins]); a
      whole source that owns no [hasOwnProperty], loaded without
      freezing, denotes the flat map of its entries, the last key for a
      path winning ([PathBuilder.Contract.loadFromObject_denotes]); a key
      that is a strict prefix of another ends under ["_"] in either order
      ([prefix_collision]).
    - Freezing in the loader: [refs] names exactly the objects of the
      tree, so a load with [freeze] (the default) returns [deep_freeze]
      of the unfrozen tree ([FreezeRefs.load_frozen_tree]), deeply frozen
      and with the same flat reading ([FreezeRefs.loadFromObject_frozen]).
    - Merge: [extend] succeeds on safe inputs and each path holds the
      added leaf where the added tree reaches it, the base leaf elsewhere
      ([Merge.extend_merge]); two arrays are merged index by index
      ([Merge.extend_arrays_by_index]), where the spec replaces the base
      array.
    - [freeze] throws exactly when an object of the tree owns a
      [hasOwnProperty], and otherwise freezes every object, those inside
      arrays included, keeping the leaves ([Freeze.freeze_deep]);
      merging safe trees keeps a tree [freeze] can walk
      ([Freeze.extend_hop_free]).
    - Orchestration: when every source loads, the callback and then the
      promise receive one tree whose leaf at each path comes from the
      last of environment, files (in the order given, then the directory
      files; a string file counts as the object of its characters),
      flags that reaches it, frozen by default
      ([Orchestrator.loadConfiguration_layers]); the file whose read
      fails first in time rejects the whole load through both channels
      ([loadConfiguration_file_error]), and so does a file owning a
      [hasOwnProperty] ([loadConfiguration_file_hop]).  The deviations
      from the contract of one completion per call are theorems too: a
      callback that throws on the result is called twice, one that
      throws on an error leaves the promise pending, with no file a flag
      error skips the callback, an environment variable named
      [hasOwnProperty] makes the call throw synchronously
      ([loadConfiguration_env_hop]), and [loadFromFile(path, callback)]
      never calls the callback and never settles when [freeze] throws
      ([loadFromFile_ignores_callback]).
    - Coercion: white space becomes 0 ([Coercer.parseValue_whitespace]);
      the empty array becomes 0 and an array of one numeric string its
      number ([Coercer.parseValue_short_arrays]).
    - The command line: the parse of the cleaned arguments gives an
      object with distinct keys and an array [_], or throws a
      [TypeError], never in the part left out of the model
      ([Loaders.argv_parse_outcome]); arguments [--name=value] reach
      [loadFromObject] as the pairs written, in the order [for..in]
      visits them ([Loaders.argv_entries_roundtrip]); their values are
      cleaned like their names ([Loaders.clean_flag_values]); [--k] and
      [--no-k] give the numbers 1 and 0 ([Loaders.argv_bare_flags]); a
      plain flag given two or more times reaches the result as the
      array of its values, which stays writable in a frozen result
      ([Loaders.argv_repeated_flag]).
    - Normalisation: the three rewrites extract the words of the key
      ([Normalizer.normalize_field_words]); the prefix is removed only
      at the start ([Normalizer.prefix_filter_anchored]) and compared
      with the lower-cased key, so a prefix with an upper-case letter
      drops every key ([Normalizer.prefix_with_upper_drops]); every
      segment of a key's path but the first is non-empty
      ([Normalizer.key_parts_segments]), so the [continue] of the loop
      only skips what a removed prefix leaves.
    - Further lemmas and examples: the enumeration order [own_keys] is
      the one [OrdinaryOwnPropertyKeys] allows
      ([OwnKeys.own_keys_order]); [strip] and [make_number]
      ([JsNumber.strip_terminates], [JsNumber.make_number_range]); the
      black-box test's verdict does not depend on key order
      ([BlackBox.deep_equal_reorder]) and cannot tell [1] from [true]
      ([BlackBox.test_index_loose]); the scenarios of spec section 8
      and of [src/test/example.js] ([Orchestrator.Scenarios]).

    ** Bounds and fuel

    Every function is structurally recursive (the flag parser's loop
    consumes one or two arguments per step and is structural on the
    list; [extend] and [freeze] recurse on the added tree through their
    loops), so no fuel bounds a result.  [JsNumber.strip] runs on fuel
    [N.size m + 1]: since [m < 2^(N.size m) <= 10^(N.size m)], that is
    more than the number of trailing decimal zeros of [m], and the one
    step more makes [0] come out as [0 * 10^0]
    ([JsNumber.strip_terminates]).  Numbers are exact decimals
    except at the range ends, where the IEEE overflow bound
    [2^1024 - 2^970] and the underflow bound [2^-1075] are modelled;
    rounding between them is not.  Array indices are the numerals of
    the numbers below [2^32 - 1], with the bound tested on the exact
    value ([OwnKeys.array_index]), since [ToUint32] would wrap a larger
    numeral to one that no longer prints as the key.

    ** Not modelled

    [fs.readFile], [JSON.parse] and [fs.exists] are I/O or builtins:
    their results, and when each read completes, are inputs of the
    model.  [path.resolve] is modelled for an absolute [base] (a
    relative one is resolved against the working directory).  Of the
    flag parser, the options ([boolean], [string], [alias], [unknown])
    the loader does not pass and nested (dotted) keys, which [clean]
    rules out, are left out.  A run that reaches [Object.prototype] or
    a builtin through a configuration key ([Proto]: an environment
    variable [CONSTRUCTOR] writes [Object._], line 66; a file key
    [__proto__] merges into [Object.prototype], line 308) changes
    global objects the model does not hold: the model reports where it
    leaves ([OOutside], [EOutside]) and says nothing after.  The
    fixtures of [src/test/index.js] ([env.json], [argv.json], the files
    and [parsed.json]) are not among the sources: they are inputs, and
    [env.json] is taken to hold strings.  A source's values are any
    values: an object or array taken from the source is stored as a
    copy, so the aliasing between the result and the caller's object
    (a later key writing into the caller's array) is not modelled.  The
    segment loop and one key are proved against the spec for a value of
    any kind ([PathBuilder.Refinement.walk_parts_ins],
    [PathBuilder.Contract.load_key_ins]); the whole-source theorems are
    stated for sources of primitives ([PathBuilder.Walk.prim_source]),
    which is what the environment is: an object value stored by one key
    may be entered by a later key, so the shape invariant of the tree
    no longer holds after it.
    A write of [length] into an array is modelled as leaving the model
    ([Proto]).  Enumeration order: the parsed flags are visited in
    JavaScript's order ([OwnKeys.own_keys]); [process.env] is visited in
    the order the platform lists it, and a parsed JSON file is an input
    taken in JavaScript's order.  [extend] and [freeze] visit keys in
    creation order, which JavaScript changes only for array indices: the
    leaf [extend] leaves at a path does not depend on the order (the
    added keys are read by name, [Merge.extend_merge]); only the
    creation order of the result's keys and which of two failing keys
    is reported can differ.  Characters are the Latin-1 code units.

    The open question of spec section 9 (a user key named [_]) is
    settled for the flat sources: no segment of a normalised key
    contains [_] ([PathBuilder.Contract.key_parts_path]), so only a JSON
    file can write the reserved slot. *)

From stdpp Require Export base list strings gmap.
From Stdlib Require Export ZArith NArith Lia.
From Stdlib Require Ascii String DecimalString.

#[export] Set Warnings "-clear-no-such-hyp".

(** ** Outcomes of JavaScript code

    Every operation of the model that can fail returns a [res]: either
    [Ok] with its result or [Err] with the reason the JavaScript code
    stops. *)

Inductive error : Type :=
  (** The code throws a [TypeError]: a member read on [undefined] or
      [null], or a write into a frozen object in strict mode. *)
  | TypeError
  (** The code reads or writes the property [k] through the prototype
      chain ([constructor], [__proto__], an [Array.prototype] method, the
      [length] of an array): the effect reaches objects outside the
      configuration tree and is not followed further; it is no
      exception. *)
  | Proto (k : string)
  (** The cursor of the model does not name a node of the tree: a state
      the code cannot reach, ruled out by the invariants below. *)
  | Stuck.

Inductive res (A : Type) : Type :=
  | Ok (a : A)
  | Err (e : error).
Arguments Ok {A} a.
Arguments Err {A} e.

Definition res_bind {A B} (r : res A) (f : A -> res B) : res B :=
  match r with
  | Ok a => f a
  | Err e => Err e
  end.

Definition res_map {A B} (f : A -> B) (r : res A) : res B :=
  match r with
  | Ok a => Ok (f a)
  | Err e => Err e
  end.

#[export] Instance res_ret : MRet res := @Ok.
#[export] Instance res_mbind : MBind res := fun A B f r => res_bind r f.
#[export] Instance res_fmap : FMap res := fun A B f r => res_map f r.

Declare Scope js_scope.
Delimit Scope js_scope with js.
Open Scope js_scope.

Definition is_ok {A} (r : res A) : bool :=
  match r with Ok _ => true | Err _ => false end.

#[export] Instance error_eq_dec : EqDecision error.
Proof. solve_decision. Defined.

Lemma res_bind_Ok {A B} (r : res A) (f : A -> res B) b :
  (r ≫= f) = Ok b <-> exists a, r = Ok a /\ f a = Ok b.
Proof. destruct r; simpl; split; intros H; naive_solver. Qed.

Lemma res_bind_ret {A B} (a : A) (f : A -> res B) : (Ok a ≫= f) = f a.
Proof. reflexivity. Qed.

Lemma res_bind_Err {A B} (r : res A) (f : A -> res B) e :
  (r ≫= f) = Err e <-> r = Err e \/ exists a, r = Ok a /\ f a = Err e.
Proof. destruct r; simpl; split; intros H; naive_solver. Qed.

(** ** Association lists

    A JavaScript object's own properties are an association list in
    insertion order: a write to an existing key updates it in place, a
    write to a new key appends it. *)

Section Assoc.
Context {V : Type}.

Fixpoint assoc (k : string) (ps : list (string * V)) : option V :=
  match ps with
  | [] => None
  | (k', v) :: ps' => if String.eqb k k' then Some v else assoc k ps'
  end.

Fixpoint assoc_set (k : string) (v : V) (ps : list (string * V)) :
    list (string * V) :=
  match ps with
  | [] => [(k, v)]
  | (k', v') :: ps' =>
      if String.eqb k k' then (k', v) :: ps' else (k', v') :: assoc_set k v ps'
  end.

Lemma assoc_cons k k' v ps :
  assoc k ((k', v) :: ps) = if String.eqb k k' then Some v else assoc k ps.
Proof. reflexivity. Qed.

Lemma assoc_set_cons k v k' v' ps :
  assoc_set k v ((k', v') :: ps) =
  if String.eqb k k' then (k', v) :: ps else (k', v') :: assoc_set k v ps.
Proof. reflexivity. Qed.

Lemma assoc_set_eq k v ps : assoc k (assoc_set k v ps) = Some v.
Proof.
  induction ps as [|[j w] ps IH].
  - cbn [assoc_set]. by rewrite assoc_cons, String.eqb_refl.
  - rewrite assoc_set_cons. destruct (String.eqb_spec k j) as [->|Hne].
    + by rewrite assoc_cons, String.eqb_refl.
    + rewrite assoc_cons. apply String.eqb_neq in Hne. by rewrite Hne.
Qed.

Lemma assoc_set_ne k k' v ps :
  k <> k' -> assoc k' (assoc_set k v ps) = assoc k' ps.
Proof.
  intros Hne. induction ps as [|[j w] ps IH].
  - cbn [assoc_set]. rewrite assoc_cons.
    destruct (String.eqb_spec k' k); [congruence|done].
  - rewrite assoc_set_cons. destruct (String.eqb_spec k j) as [->|Hkj].
    + rewrite !assoc_cons. destruct (String.eqb_spec k' j); [congruence|done].
    + rewrite !assoc_cons, IH. done.
Qed.

Lemma assoc_set_fst k v ps :
  assoc k ps <> None -> map fst (assoc_set k v ps) = map fst ps.
Proof.
  induction ps as [|[j w] ps IH]; [done|].
  rewrite assoc_set_cons, assoc_cons.
  destruct (String.eqb k j); simpl; [done|]. intros H. by rewrite IH.
Qed.

Lemma assoc_In k v ps : assoc k ps = Some v -> In (k, v) ps.
Proof.
  induction ps as [|[j w] ps IH]; [done|]. rewrite assoc_cons.
  destruct (String.eqb_spec k j) as [->|_].
  - intros [= ->]. by left.
  - intros H. right. auto.
Qed.

Lemma assoc_set_In k v ps j w :
  In (j, w) (assoc_set k v ps) -> (j = k /\ w = v) \/ In (j, w) ps.
Proof.
  induction ps as [|[j' w'] ps IH].
  - intros [[= <- <-]|[]]. auto.
  - rewrite assoc_set_cons. destruct (String.eqb_spec k j') as [->|_].
    + intros [[= <- <-]|H]; simpl; auto.
    + intros [H|H]; simpl; auto. destruct (IH H); auto.
Qed.
Lemma assoc_set_twice k a b ps :
  assoc_set k a (assoc_set k b ps) = assoc_set k a ps.
Proof.
  induction ps as [|[j w] ps IH].
  - cbn [assoc_set]. by rewrite ?assoc_set_cons, ?String.eqb_refl.
  - rewrite !assoc_set_cons. destruct (String.eqb_spec k j) as [->|Hne].
    + by rewrite assoc_set_cons, String.eqb_refl.
    + rewrite assoc_set_cons. apply String.eqb_neq in Hne. by rewrite Hne, IH.
Qed.

Lemma assoc_set_id k v ps : assoc k ps = Some v -> assoc_set k v ps = ps.
Proof.
  induction ps as [|[j w] ps IH]; [done|].
  rewrite assoc_cons, assoc_set_cons. destruct (String.eqb_spec k j) as [->|_].
  - by intros [= ->].
  - intros H. by rewrite IH.
Qed.
Lemma assoc_set_keys k v ps x :
  In x (map fst (assoc_set k v ps)) <-> x = k \/ In x (map fst ps).
Proof.
  induction ps as [|[j w] ps IH]; [simpl; naive_solver|]. rewrite assoc_set_cons.
  destruct (String.eqb_spec k j) as [->|_]; cbn [map fst In]; rewrite ?IH; naive_solver.
Qed.

Lemma assoc_set_NoDup k v ps :
  NoDup (map fst ps) -> NoDup (map fst (assoc_set k v ps)).
Proof.
  induction ps as [|[j w] ps IH]; intros Hnd.
  - repeat constructor. set_solver.
  - rewrite assoc_set_cons. cbn [map fst] in Hnd. apply NoDup_cons in Hnd as [Hj Hnd].
    destruct (String.eqb_spec k j) as [->|Hne]; cbn [map fst]; constructor; auto.
    rewrite list_elem_of_In, assoc_set_keys, <- list_elem_of_In. set_solver.
Qed.
Lemma assoc_map_keyed (f : string -> V -> V) k ps :
  assoc k (map (fun kv => (kv.1, f kv.1 kv.2)) ps) = f k <$> assoc k ps.
Proof.
  induction ps as [|[j w] ps IH]; [done|]. cbn [map fst snd]. rewrite !assoc_cons.
  destruct (String.eqb_spec k j) as [->|_]; [done|apply IH].
Qed.

Lemma assoc_NoDup_In k v ps : NoDup (map fst ps) -> In (k, v) ps -> assoc k ps = Some v.
Proof.
  induction ps as [|[j w] ps IH]; [done|]. cbn [map fst]. intros Hnd Hin.
  apply NoDup_cons in Hnd as [Hj Hnd]. rewrite assoc_cons.
  destruct Hin as [[= -> ->]|Hin]; [by rewrite String.eqb_refl|].
  destruct (String.eqb_spec k j) as [->|_]; [|auto].
  destruct Hj. apply list_elem_of_In, in_map_iff. by exists (j, v).
Qed.

(** With distinct keys, updating a key is mapping over the pairs. *)
Lemma assoc_set_map k c c' ps :
  NoDup (map fst ps) -> assoc k ps = Some c ->
  assoc_set k c' ps = map (fun kv => (kv.1, if String.eqb kv.1 k then c' else kv.2)) ps.
Proof.
  induction ps as [|[j w] ps IH]; [done|]. cbn [map fst snd]. intros Hnd.
  apply NoDup_cons in Hnd as [Hj Hnd]. rewrite assoc_set_cons, assoc_cons.
  destruct (String.eqb_spec k j) as [->|Hne].
  - intros _. rewrite String.eqb_refl. f_equal. rewrite <- (map_id ps) at 1.
    apply map_ext_in. intros [j' w'] Hin. cbn [fst snd].
    destruct (String.eqb_spec j' j) as [->|]; [|done].
    destruct Hj. apply list_elem_of_In, in_map_iff. by exists (j, w').
  - intros Hc. destruct (String.eqb_spec j k); [congruence|]. by rewrite IH.
Qed.
Lemma assoc_set_new k (v : V) ps : assoc k ps = None -> assoc_set k v ps = ps ++ [(k, v)].
Proof.
  induction ps as [|[j w] ps IH]; [done|]. rewrite assoc_cons, assoc_set_cons.
  destruct (String.eqb k j); [done|]. intros H. by rewrite IH.
Qed.

Lemma assoc_app_None k (ps qs : list (string * V)) :
  ~ In k (map fst ps) -> assoc k (ps ++ qs) = assoc k qs.
Proof.
  induction ps as [|[j w] ps IH]; [done|]. cbn [map fst In app]. intros Hk.
  rewrite assoc_cons. destruct (String.eqb_spec k j) as [->|_]; [tauto|]. apply IH. tauto.
Qed.

Lemma assoc_notin k (ps : list (string * V)) : ~ In k (map fst ps) -> assoc k ps = None.
Proof. intros H. rewrite <- (app_nil_r ps). by rewrite assoc_app_None. Qed.

Lemma assoc_None_notin k (ps : list (string * V)) : assoc k ps = None -> ~ In k (map fst ps).
Proof.
  intros H Hin. induction ps as [|[j w] ps IH]; [done|].
  rewrite assoc_cons in H. cbn [map fst In] in Hin.
  destruct (String.eqb_spec k j) as [->|Hne]; [discriminate|].
  destruct Hin as [?|Hin]; [congruence|by apply IH].
Qed.

Lemma assoc_set_app_new k (x : V) ps qs :
  assoc k ps = None -> assoc_set k x (ps ++ qs) = ps ++ assoc_set k x qs.
Proof.
  induction ps as [|[j w] ps IH]; [done|]. rewrite assoc_cons. cbn [app].
  rewrite assoc_set_cons. destruct (String.eqb k j); [done|]. intros H. by rewrite IH.
Qed.

End Assoc.

(** ** Lists *)

Lemma forallb_map_ext {A B} (f : A -> B) (g : B -> bool) (h : A -> bool) l :
  (forall x, In x l -> g (f x) = h x) -> forallb g (map f l) = forallb h l.
Proof.
  induction l as [|x l IH]; intros H; [done|]. simpl.
  rewrite H by (by left). f_equal. apply IH. intros y Hy. apply H. by right.
Qed.

Lemma forallb_ext_In {A} (g h : A -> bool) l :
  (forall x, In x l -> g x = h x) -> forallb g l = forallb h l.
Proof.
  induction l as [|x l IH]; intros H; [done|]. simpl.
  rewrite H by (by left). f_equal. apply IH. intros y Hy. apply H. by right.
Qed.

(** ** Hint database of the development *)

Create HintDb c11n.
Create Rewrite HintDb c11n_rw.
#[export] Hint Rewrite @assoc_set_eq @assoc_cons @assoc_set_cons : c11n_rw.
#[export] Hint Resolve assoc_In : c11n.

Ltac res_inv :=
  repeat match goal with
  | H : Ok _ = Ok _ |- _ => injection H as H; subst
  | H : Err _ = Ok _ |- _ => discriminate H
  | H : Ok _ = Err _ |- _ => discriminate H
  | H : mbind _ ?r = Ok _ |- _ =>
      let a := fresh "a" in let Ha := fresh "Ha" in
      apply res_bind_Ok in H as (a & Ha & H)
  end.
