(* ===== verification/JsString.v ===== *)
(** * JsString: the string operations the key normaliser uses

    Strings are Stdlib [string]s over 8-bit characters, read as the
    Latin-1 code units U+0000..U+00FF of a JavaScript string.  This file
    models [String.prototype.toLowerCase], the three regular-expression
    replacements of [src/index.js] (lines 13-15, applied at lines 37-39),
    [startsWith], [replace] with a string pattern and [split] with a
    one-character separator, with the lemmas the normaliser and the path
    builder share. *)

From S2P Require Import Prelude.
From Stdlib Require Import Ascii.

(** ** Characters *)

(** [toLowerCase] on Latin-1: A-Z and U+00C0..U+00DE except U+00D7 map
    to the code point 32 higher; every other character is unchanged. *)
Definition to_lower_char (c : ascii) : ascii :=
  let n := nat_of_ascii c in
  if ((65 <=? n) && (n <=? 90)) || ((192 <=? n) && (n <=? 222) && negb (n =? 215))
  then ascii_of_nat (n + 32) else c.

Local Open Scope char_scope.

(** The character class [(_|\.)] of the regular expression [normalize]. *)
Definition is_sep (c : ascii) : bool := Ascii.eqb c "_" || Ascii.eqb c ".".

Definition underscore : ascii := "_".

Local Close Scope char_scope.

(** ** String functions *)

Fixpoint to_lower (s : string) : string :=
  match s with
  | EmptyString => EmptyString
  | String c r => String (to_lower_char c) (to_lower r)
  end.

(** [s.replace(/(_|\.)+/g, '_')]: each maximal run of [_] and [.] becomes
    one [_].  [in_run] records that the previous character was part of
    a run already replaced. *)
Fixpoint collapse_from (in_run : bool) (s : string) : string :=
  match s with
  | EmptyString => EmptyString
  | String c r =>
      if is_sep c then
        if in_run then collapse_from true r
        else String underscore (collapse_from true r)
      else String c (collapse_from false r)
  end.

Definition collapse_seps (s : string) : string := collapse_from false s.

Fixpoint str_drop (n : nat) (s : string) : string :=
  match n, s with
  | 0, _ => s
  | S n', String _ r => str_drop n' r
  | S _, EmptyString => EmptyString
  end.

(** [s.replace(/^(--)?_?/, '')]: an optional leading [--], then an
    optional [_], are removed (the match always succeeds, greedily). *)
Definition trim_leading (s : string) : string :=
  let s1 := if String.prefix "--" s then str_drop 2 s else s in
  if String.prefix "_" s1 then str_drop 1 s1 else s1.

(** [s.replace(/_?$/, '')]: the first position where [_?$] matches is
    the last [_] when the string ends with one, and the end otherwise, so
    exactly one trailing [_] is removed. *)
Fixpoint trim_trailing (s : string) : string :=
  match s with
  | EmptyString => EmptyString
  | String c EmptyString => if Ascii.eqb c underscore then EmptyString else s
  | String c r => String c (trim_trailing r)
  end.

(** [s.startsWith(p)]. *)
Definition starts_with (p s : string) : bool := String.prefix p s.

(** [s.replace(p, '')] with a string pattern: the first occurrence of
    [p] is removed (the empty pattern occurs at index 0). *)
Fixpoint replace_first (p s : string) : string :=
  if String.prefix p s then str_drop (String.length p) s
  else match s with
       | EmptyString => EmptyString
       | String c r => String c (replace_first p r)
       end.

(** [s.split(sep)] for a one-character separator: the pieces between
    the separators, [[""]] for the empty string. *)
Fixpoint split_on (sep : ascii) (s : string) : list string :=
  match s with
  | EmptyString => [EmptyString]
  | String c r =>
      let parts := split_on sep r in
      if Ascii.eqb c sep then EmptyString :: parts
      else match parts with
           | p :: ps => String c p :: ps
           | [] => [String c EmptyString]
           end
  end.

(** [parts.join(sep)], the inverse of [split_on]. *)
Fixpoint join_with (sep : ascii) (l : list string) : string :=
  match l with
  | [] => EmptyString
  | [p] => p
  | p :: ps => p +:+ String sep (join_with sep ps)
  end.

(** Decimal rendering of an array index or string index, as [for..in]
    enumerates them. *)
Definition index_key (n : nat) : string :=
  DecimalString.NilEmpty.string_of_uint (Nat.to_uint n).

(** [c] occurs in [s]. *)
Fixpoint has_char (c : ascii) (s : string) : bool :=
  match s with
  | EmptyString => false
  | String d r => Ascii.eqb c d || has_char c r
  end.

(** ** Lemmas *)

Lemma split_on_nonempty sep s : split_on sep s <> [].
Proof.
  destruct s as [|c r]; simpl; [done|].
  destruct (Ascii.eqb c sep); [done|]. by destruct (split_on sep r).
Qed.

(** Every piece of a split is free of the separator. *)
Lemma split_on_no_sep sep s p :
  In p (split_on sep s) -> has_char sep p = false.
Proof.
  revert p. induction s as [|c r IH]; intros p; simpl.
  - intros [<-|[]]. done.
  - destruct (Ascii.eqb_spec c sep) as [->|Hne].
    + intros [<-|Hin]; [done|]. by apply IH.
    + destruct (split_on sep r) as [|q qs] eqn:E.
      * by destruct (split_on_nonempty sep r).
      * intros [<-|Hin]; simpl.
        -- destruct (Ascii.eqb_spec sep c); [congruence|]. apply IH. by left.
        -- apply IH. by right.
Qed.

Lemma join_with_cons sep p ps :
  ps <> [] -> join_with sep (p :: ps) = p +:+ String sep (join_with sep ps).
Proof. destruct ps; [done|]. reflexivity. Qed.

(** Splitting then joining gives back the string. *)
Lemma join_split sep s : join_with sep (split_on sep s) = s.
Proof.
  induction s as [|c r IH]; simpl; [done|].
  pose proof (split_on_nonempty sep r) as Hne.
  destruct (Ascii.eqb_spec c sep) as [->|_].
  - rewrite join_with_cons by done. by rewrite IH.
  - destruct (split_on sep r) as [|q qs] eqn:E; [done|].
    destruct qs as [|q' qs]; [simpl in *; by rewrite IH|].
    rewrite join_with_cons in * by done. by rewrite <- IH.
Qed.

Lemma str_drop_prefix p s :
  String.prefix p s = true -> p +:+ str_drop (String.length p) s = s.
Proof.
  revert s. induction p as [|c p IH]; intros [|d r] H; simpl in *; try done.
  destruct (Ascii.ascii_dec c d) as [->|]; [|done].
  rewrite <- (IH r H) at 2. reflexivity.
Qed.

(** [replace] with a pattern that [s] starts with removes exactly that
    leading occurrence. *)
Lemma replace_first_prefix p s :
  starts_with p s = true -> replace_first p s = str_drop (String.length p) s.
Proof. unfold starts_with. destruct s; simpl; intros ->; done. Qed.

Lemma to_lower_app s t : to_lower (s +:+ t) = to_lower s +:+ to_lower t.
Proof. induction s as [|c s IH]; [done|]. simpl. by rewrite IH. Qed.

Lemma collapse_from_other b c t :
  is_sep c = false -> collapse_from b (String c t) = String c (collapse_from false t).
Proof. intros Hc. simpl. by rewrite Hc. Qed.

(** A character outside the class ends a run: what follows it collapses
    on its own. *)
Lemma collapse_from_app b s c t :
  is_sep c = false -> collapse_from b (s +:+ String c t) = collapse_from b s +:+ String c (collapse_from false t).
Proof.
  intros Hc. revert b. induction s as [|d s IH]; intros b; simpl.
  - by rewrite Hc.
  - destruct (is_sep d), b; rewrite ?IH; done.
Qed.

(** ** Strings without empty pieces *)

(** No two [_] in a row. *)
Fixpoint no_double (s : string) : bool :=
  match s with
  | String c (String d _ as r) =>
      negb (Ascii.eqb c underscore && Ascii.eqb d underscore) && no_double r
  | _ => true
  end.

Definition starts_sep (s : string) : bool :=
  match s with String c _ => Ascii.eqb c underscore | EmptyString => false end.

Fixpoint ends_sep (s : string) : bool :=
  match s with
  | EmptyString => false
  | String c EmptyString => Ascii.eqb c underscore
  | String _ r => ends_sep r
  end.

Lemma no_double_cons c r : no_double (String c r) = true -> no_double r = true.
Proof. destruct r; [done|]. simpl. rewrite andb_true_iff. tauto. Qed.

Lemma no_double_cons_sep r :
  no_double (String underscore r) = true -> starts_sep r = false.
Proof. destruct r as [|d r]; [done|]. simpl. by destruct (Ascii.eqb d underscore). Qed.

Lemma no_double_drop n s : no_double s = true -> no_double (str_drop n s) = true.
Proof.
  revert s. induction n as [|n IH]; intros [|c r] H; simpl; try done.
  apply IH. by eapply no_double_cons.
Qed.

Lemma ends_sep_drop n s : ends_sep s = false -> ends_sep (str_drop n s) = false.
Proof.
  revert s. induction n as [|n IH]; intros [|c r] H; simpl; try done.
  apply IH. destruct r; [done|exact H].
Qed.

(** [collapse_from] leaves no run of separators. *)
Lemma collapse_from_no_double b s : no_double (collapse_from b s) = true.
Proof.
  enough (H : no_double (collapse_from b s) = true /\
              (b = true -> starts_sep (collapse_from b s) = false)) by apply H.
  revert b. induction s as [|c r IH]; intros b; [done|]. cbn [collapse_from].
  destruct (is_sep c) eqn:Hc.
  - destruct (IH true) as [Hnd Hst]. destruct b; [split; [done|intros _; by apply Hst]|].
    split; [|done]. specialize (Hst eq_refl).
    destruct (collapse_from true r) as [|d t]; [done|]. cbn [no_double].
    simpl in Hst. change (negb (Ascii.eqb underscore underscore && Ascii.eqb d underscore) && no_double (String d t) = true).
    rewrite Hst, Hnd. done.
  - destruct (IH false) as [Hnd _].
    assert (Hcu : Ascii.eqb c underscore = false).
    { unfold is_sep in Hc. apply orb_false_iff in Hc as [H _]. exact H. }
    split; [|intros _; exact Hcu].
    destruct (collapse_from false r) as [|d t]; [done|]. cbn [no_double]. by rewrite Hcu.
Qed.

Lemma str_drop_drop m n s : str_drop m (str_drop n s) = str_drop (n + m) s.
Proof.
  revert s. induction n as [|n IH]; intros [|c r]; simpl; try done. by destruct m.
Qed.

Lemma trim_leading_drop s : exists k, trim_leading s = str_drop k s.
Proof.
  unfold trim_leading. destruct (String.prefix "--" s).
  - destruct (String.prefix "_" (str_drop 2 s)); [exists 3|exists 2]; by rewrite ?str_drop_drop.
  - destruct (String.prefix "_" s); [by exists 1|by exists 0].
Qed.

Lemma trim_trailing_shape d t :
  trim_trailing (String d t) = EmptyString \/ exists t', trim_trailing (String d t) = String d t'.
Proof.
  destruct t as [|e u]; cbn [trim_trailing]; [|by right; eexists].
  destruct (Ascii.eqb d underscore); [by left|by right; eexists].
Qed.

(** [s.replace(/_?$/, '')] on a string without a run of separators
    leaves neither a run nor a trailing separator. *)
Lemma trim_trailing_ok s :
  no_double s = true -> no_double (trim_trailing s) = true /\ ends_sep (trim_trailing s) = false.
Proof.
  induction s as [|c r IH]; intros H; [done|].
  destruct r as [|d t].
  - cbn [trim_trailing]. destruct (Ascii.eqb c underscore) eqn:E; [done|]. simpl. by rewrite E.
  - change (trim_trailing (String c (String d t))) with (String c (trim_trailing (String d t))).
    destruct (IH (no_double_cons _ _ H)) as [Hnd Hend].
    destruct (trim_trailing_shape d t) as [Hz|[t' Ht']].
    + rewrite Hz. destruct t as [|e u]; cbn [trim_trailing] in Hz.
      * destruct (Ascii.eqb_spec d underscore) as [->|]; [|done].
        cbn in H |- *. by destruct (Ascii.eqb c underscore).
      * done.
    + rewrite Ht' in *. split; [|done].
      change (negb (Ascii.eqb c underscore && Ascii.eqb d underscore) && no_double (String d t') = true).
      rewrite Hnd, andb_true_r. cbn in H. apply andb_true_iff in H as [H _]. exact H.
Qed.

(** Splitting a string without a run of separators and without a
    trailing one gives non-empty pieces after the first. *)
Lemma split_tail_nonempty s :
  no_double s = true -> ends_sep s = false ->
  Forall (fun p => p <> EmptyString) (tl (split_on underscore s)).
Proof.
  induction s as [|c r IH]; intros Hnd Hend; [constructor|].
  assert (Hr : r <> EmptyString -> no_double r = true /\ ends_sep r = false).
  { intros Hne. split; [by eapply no_double_cons|]. destruct r; [done|exact Hend]. }
  cbn [split_on]. destruct (Ascii.eqb_spec c underscore) as [->|Hc].
  - destruct r as [|d t]; [done|]. destruct (Hr ltac:(done)) as [Hnd' Hend'].
    pose proof (no_double_cons_sep _ Hnd) as Hd. cbn [starts_sep] in Hd.
    cbn [tl]. cbn [split_on]. rewrite Hd.
    pose proof (IH Hnd' Hend') as IHr. cbn [split_on] in IHr. rewrite Hd in IHr.
    destruct (split_on underscore t) as [|p ps]; cbn [tl] in *; constructor; done.
  - destruct r as [|d t]; [constructor|]. destruct (Hr ltac:(done)) as [Hnd' Hend'].
    pose proof (IH Hnd' Hend') as IHr.
    destruct (split_on underscore (String d t)) as [|p ps]; done.
Qed.
