(* ===== verification/JsNumber.v ===== *)
(** * JsNumber: JavaScript numbers and [StringToNumber]

    The unary [+] of [parseValue] ([src/index.js] line 246) converts a
    string with the ECMAScript [StringToNumber] algorithm.  A number is
    modelled by the exact value of the literal it was read from: [NaN],
    a signed infinity, or a signed decimal [m * 10^e] in canonical form
    (no trailing zero in [m]; [e = 0] when [m = 0]; the sign is kept so
    that [-0] exists).  Rounding to the nearest double is modelled at
    the two ends of the range only: a magnitude at or above
    [2^1024 - 2^970] becomes an infinity and a magnitude at or below
    [2^-1075] becomes a signed zero, as IEEE round-to-nearest-even does;
    between them the exact decimal is kept, so two literals that round
    to the same double are distinct numbers of the model.  The last
    section proves that [strip]'s fuel suffices and that the two
    rounding tests depend on the value [m * 10^e] only. *)

From S2P Require Import Prelude JsString.
From Stdlib Require Import Ascii.

Inductive number : Type :=
  | NaN
  | Infinity (neg : bool)
  | Finite (neg : bool) (m : N) (e : Z).

#[export] Instance number_eq_dec : EqDecision number.
Proof. solve_decision. Defined.

Definition is_nan (n : number) : bool :=
  match n with NaN => true | _ => false end.

Definition zero : number := Finite false 0 0.
Definition one : number := Finite false 1 0.

(** ** Canonical decimals and the two rounding ends *)

Fixpoint strip_zeros (fuel : nat) (m : N) (e : Z) : N * Z :=
  match fuel with
  | 0 => (m, e)
  | S f =>
      if (m =? 0)%N then (0%N, 0%Z)
      else if (m mod 10 =? 0)%N then strip_zeros f (m / 10)%N (e + 1)%Z
      else (m, e)
  end.

(** [N.size m] bits bound the number of trailing decimal zeros. *)
Definition strip (m : N) (e : Z) : N * Z := strip_zeros (S (N.to_nat (N.size m))) m e.

(** Magnitudes from [2^1024 - 2^970] up round to an infinity. *)
Definition overflow_bound : Z := (2 ^ 1024 - 2 ^ 970)%Z.

Definition overflows (m : N) (e : Z) : bool :=
  if (0 <=? e)%Z then (overflow_bound <=? Z.of_N m * 10 ^ e)%Z
  else (overflow_bound * 10 ^ (- e) <=? Z.of_N m)%Z.

(** Non-zero magnitudes up to [2^-1075] round to zero. *)
Definition underflows (m : N) (e : Z) : bool :=
  (e <? 0)%Z && (Z.of_N m * 2 ^ 1075 <=? 10 ^ (- e))%Z.

Definition make_number (neg : bool) (m : N) (e : Z) : number :=
  let '(m', e') := strip m e in
  if overflows m' e' then Infinity neg
  else if underflows m' e' then Finite neg 0 0
  else Finite neg m' e'.

(** ** Lexical classes of [StringNumericLiteral] *)

Local Open Scope char_scope.

(** [StrWhiteSpaceChar] restricted to Latin-1: TAB, LF, VT, FF, CR, SP
    and NBSP. *)
Definition is_ws (c : ascii) : bool :=
  let n := nat_of_ascii c in
  ((9 <=? n) && (n <=? 13))%nat || (n =? 32)%nat || (n =? 160)%nat.

(** The value of [c] as a digit in [base] (2, 8, 10 or 16). *)
Definition digit_value (base : N) (c : ascii) : option N :=
  let n := N_of_ascii c in
  let v := if ((48 <=? n) && (n <=? 57))%N then Some (n - 48)%N
           else if ((97 <=? n) && (n <=? 102))%N then Some (n - 87)%N
           else if ((65 <=? n) && (n <=? 70))%N then Some (n - 55)%N
           else None in
  match v with
  | Some d => if (d <? base)%N then Some d else None
  | None => None
  end.

Local Close Scope char_scope.

Fixpoint trim_ws_left (s : string) : string :=
  match s with
  | EmptyString => EmptyString
  | String c r => if is_ws c then trim_ws_left r else s
  end.

Fixpoint all_ws (s : string) : bool :=
  match s with
  | EmptyString => true
  | String c r => is_ws c && all_ws r
  end.

(** The longest run of digits of [base] at the start of [s]: its value,
    its length and the rest of the string. *)
Fixpoint digits (base : N) (s : string) : N * nat * string :=
  match s with
  | EmptyString => (0%N, 0, EmptyString)
  | String c r =>
      match digit_value base c with
      | Some d =>
          let '(v, n, rest) := digits base r in
          ((d * base ^ N.of_nat n + v)%N, S n, rest)
      | None => (0%N, 0, s)
      end
  end.

(** ** The grammar *)

(** [ExponentPart] when present: [e] or [E], an optional sign and at
    least one digit.  Absent, the exponent is 0. *)
Definition parse_exponent (s : string) : option (Z * string) :=
  match s with
  | String c r =>
      if Ascii.eqb c "e"%char || Ascii.eqb c "E"%char then
        let '(sgn, t) := match r with
                         | String "+"%char t => (1%Z, t)
                         | String "-"%char t => ((-1)%Z, t)
                         | _ => (1%Z, r)
                         end in
        let '(x, n, rest) := digits 10 t in
        if (n =? 0)%nat then None else Some ((sgn * Z.of_N x)%Z, rest)
      else Some (0%Z, s)
  | EmptyString => Some (0%Z, s)
  end.

(** [StrUnsignedDecimalLiteral] followed by white space only. *)
Definition parse_unsigned (neg : bool) (s : string) : option number :=
  if String.prefix "Infinity" s then
    if all_ws (str_drop 8 s) then Some (Infinity neg) else None
  else
    let '(i, ni, r1) := digits 10 s in
    let '(f, nf, r2) := match r1 with
                        | String "."%char r => digits 10 r
                        | _ => (0%N, 0, r1)
                        end in
    if ((ni + nf) =? 0)%nat then None
    else match parse_exponent r2 with
         | Some (x, r3) =>
             if all_ws r3
             then Some (make_number neg (i * 10 ^ N.of_nat nf + f)%N (x - Z.of_nat nf)%Z)
             else None
         | None => None
         end.

(** [NonDecimalIntegerLiteral]: at least one digit of [base], then
    white space only. *)
Definition parse_radix (base : N) (s : string) : option number :=
  let '(v, n, rest) := digits base s in
  if (n =? 0)%nat then None
  else if all_ws rest then Some (make_number false v 0) else None.

(** [StringToNumber]: [NaN] when the trimmed string is not a
    [StringNumericLiteral]; [+0] when it is empty. *)
Definition string_to_number (s : string) : number :=
  let t := trim_ws_left s in
  let r := match t with
           | EmptyString => Some zero
           | String "0"%char (String c r) =>
               if Ascii.eqb c "x"%char || Ascii.eqb c "X"%char then parse_radix 16 r
               else if Ascii.eqb c "o"%char || Ascii.eqb c "O"%char then parse_radix 8 r
               else if Ascii.eqb c "b"%char || Ascii.eqb c "B"%char then parse_radix 2 r
               else parse_unsigned false t
           | String "+"%char r => parse_unsigned false r
           | String "-"%char r => parse_unsigned true r
           | _ => parse_unsigned false t
           end in
  match r with
  | Some n => n
  | None => NaN
  end.

Example string_to_number_samples :
  map string_to_number ["8080"; " 3.14 "; "-3"; "0x1F"; "1e3"; ""; "  "; "abc";
                        "1e"; "."; "5."; "-Infinity"; "1e400"; "1e-400"; "-0"]
  = [Finite false 808 1; Finite false 314 (-2); Finite true 3 0; Finite false 31 0;
     Finite false 1 3; zero; zero; NaN; NaN; NaN; Finite false 5 0; Infinity true;
     Infinity false; Finite false 0 0; Finite true 0 0].
Proof. vm_compute. reflexivity. Qed.

(** ** Canonical decimals and the range of doubles *)

(** No trailing zero, and [0] only as [0 * 10^0]. *)
Definition canonical (m : N) (e : Z) : Prop := (m = 0%N /\ e = 0%Z) \/ (m mod 10 <> 0)%N.

Lemma strip_zeros_spec f m e :
  m <> 0%N -> (m < 10 ^ N.of_nat f)%N ->
  let '(m', e') := strip_zeros f m e in
  (m' mod 10 <> 0)%N /\ (e <= e')%Z /\ Z.of_N m = (Z.of_N m' * 10 ^ (e' - e))%Z.
Proof.
  revert m e. induction f as [|f IH]; intros m e Hm Hlt.
  - cbn in Hlt. lia.
  - cbn [strip_zeros]. rewrite (proj2 (N.eqb_neq m 0) Hm).
    destruct (N.eqb_spec (m mod 10) 0) as [Hz|Hnz].
    + pose proof (N.div_mod m 10 ltac:(lia)) as Hdm. rewrite Hz, N.add_0_r in Hdm.
      assert (Hq : (m / 10 <> 0)%N) by lia.
      assert (Hqlt : (m / 10 < 10 ^ N.of_nat f)%N).
      { rewrite Nat2N.inj_succ, N.pow_succ_r' in Hlt. lia. }
      specialize (IH (m / 10)%N (e + 1)%Z Hq Hqlt).
      destruct (strip_zeros f (m / 10) (e + 1)) as [m' e'].
      destruct IH as (Hc & Hle & Heq). split; [done|]. split; [lia|].
      replace (e' - e)%Z with ((e' - (e + 1)) + 1)%Z by lia.
      rewrite Z.pow_add_r, Z.pow_1_r by lia. rewrite Hdm at 1. lia.
    + split; [done|]. split; [lia|]. rewrite Z.sub_diag. lia.
Qed.

Lemma size_pow_10 m : (m < 10 ^ N.of_nat (S (N.to_nat (N.size m))))%N.
Proof.
  rewrite Nat2N.inj_succ, N2Nat.id. pose proof (N.size_gt m) as H.
  assert (2 ^ N.size m <= 10 ^ N.size m)%N by (apply N.pow_le_mono_l; lia).
  rewrite N.pow_succ_r'. lia.
Qed.

(** What [strip] returns. *)
Lemma strip_spec m e :
  let '(m', e') := strip m e in
  canonical m' e' /\ (m = 0%N -> m' = 0%N /\ e' = 0%Z) /\
  (m <> 0%N -> (e <= e')%Z /\ Z.of_N m = (Z.of_N m' * 10 ^ (e' - e))%Z).
Proof.
  unfold strip. destruct (N.eq_dec m 0) as [->|Hm]; [cbn; unfold canonical; lia|].
  pose proof (strip_zeros_spec _ m e Hm (size_pow_10 m)) as H.
  destruct (strip_zeros _ m e) as [m' e']. destruct H as (Hc & Hle & Heq).
  split; [by right|]. split; [done|]. auto.
Qed.

Lemma overflow_bound_pos : (0 < overflow_bound)%Z.
Proof. unfold overflow_bound. lia. Qed.

(** The overflow and underflow tests depend on the value [m * 10^e]
    only, not on how many trailing zeros [m] carries. *)
Lemma overflows_value m m' e k :
  (0 <= k)%Z -> Z.of_N m = (Z.of_N m' * 10 ^ k)%Z -> overflows m e = overflows m' (e + k).
Proof.
  intros Hk Hm. unfold overflows. rewrite Hm.
  pose proof overflow_bound_pos as HB. revert HB. generalize overflow_bound as B. intros B HB.
  destruct (Z.leb_spec 0 e), (Z.leb_spec 0 (e + k)); try lia.
  - rewrite Z.pow_add_r by lia. f_equal. ring.
  - replace k with (- e + (e + k))%Z at 1 by lia. rewrite Z.pow_add_r by lia.
    assert (0 < 10 ^ (- e))%Z by (apply Z.pow_pos_nonneg; lia).
    apply Bool.eq_iff_eq_true. rewrite !Z.leb_le. set (c := (10 ^ (- e))%Z) in *. set (d := (10 ^ (e + k))%Z) in *. clearbody c d. nia.
  - replace (- e)%Z with (- (e + k) + k)%Z at 1 by lia. rewrite Z.pow_add_r by lia.
    assert (0 < 10 ^ k)%Z by (apply Z.pow_pos_nonneg; lia).
    apply Bool.eq_iff_eq_true. rewrite !Z.leb_le. set (c := (10 ^ k)%Z) in *. set (d := (10 ^ (- (e + k)))%Z) in *. clearbody c d. nia.
Qed.

Lemma underflows_value m m' e k :
  m' <> 0%N -> (0 <= k)%Z -> Z.of_N m = (Z.of_N m' * 10 ^ k)%Z ->
  underflows m e = underflows m' (e + k).
Proof.
  intros Hm' Hk Hm. unfold underflows. rewrite Hm.
  assert (HP : (1 < 2 ^ 1075)%Z) by lia. revert HP. generalize (2 ^ 1075)%Z as P. intros P HP.
  destruct (Z.ltb_spec e 0), (Z.ltb_spec (e + k) 0); try lia; cbn [andb]; try done.
  - replace (- e)%Z with (- (e + k) + k)%Z at 1 by lia. rewrite Z.pow_add_r by lia.
    assert (0 < 10 ^ k)%Z by (apply Z.pow_pos_nonneg; lia).
    apply Bool.eq_iff_eq_true. rewrite !Z.leb_le. set (c := (10 ^ k)%Z) in *. set (d := (10 ^ (- (e + k)))%Z) in *. clearbody c d. nia.
  - replace k with (- e + (e + k))%Z at 1 by lia. rewrite Z.pow_add_r by lia.
    assert (0 < 10 ^ (- e))%Z by (apply Z.pow_pos_nonneg; lia).
    assert (0 < 10 ^ (e + k))%Z by (apply Z.pow_pos_nonneg; lia).
    assert (1 <= Z.of_N m')%Z by lia. apply Z.leb_gt. set (c := (10 ^ (- e))%Z) in *. set (d := (10 ^ (e + k))%Z) in *. clearbody c d. clear Hm.
    apply Z.lt_le_trans with (c * P)%Z; [nia|]. apply Z.mul_le_mono_nonneg_r; [lia|].
    assert (1 <= Z.of_N m' * d)%Z by nia. nia.
Qed.

(** Termination of [strip]: the fuel [N.size m + 1] is enough for
    the loop to remove every trailing zero, so the result is canonical,
    [0] gives [0 * 10^0], and any other mantissa keeps its value
    [m * 10^e]. *)
Theorem strip_terminates m e :
  let '(m', e') := strip m e in
  canonical m' e' /\ (m = 0%N -> m' = 0%N /\ e' = 0%Z) /\
  (m <> 0%N -> (e <= e')%Z /\ Z.of_N m = (Z.of_N m' * 10 ^ (e' - e))%Z).
Proof. apply strip_spec. Qed.

Lemma overflows_zero e : overflows 0 e = false.
Proof.
  pose proof overflow_bound_pos. unfold overflows. cbn [Z.of_N]. rewrite Z.mul_0_l.
  destruct (Z.leb_spec 0 e); apply Z.leb_gt; [lia|].
  assert (0 < 10 ^ (- e))%Z by (apply Z.pow_pos_nonneg; lia). nia.
Qed.

(** Range of [make_number]: the sign is kept; the result is an
    infinity exactly when the exact magnitude [m * 10^e] reaches the
    overflow bound; otherwise it is a canonical finite number, zero when
    the magnitude is at most [2^-1075] and the exact value else. *)
Theorem make_number_range neg m e :
  match make_number neg m e with
  | Infinity n => n = neg /\ overflows m e = true
  | Finite n m' e' =>
      n = neg /\ canonical m' e' /\ overflows m e = false /\
      (if underflows m e then m' = 0%N /\ e' = 0%Z
       else m <> 0%N -> (e <= e')%Z /\ Z.of_N m = (Z.of_N m' * 10 ^ (e' - e))%Z)
  | NaN => False
  end.
Proof.
  unfold make_number. pose proof (strip_spec m e) as H.
  destruct (strip m e) as [m' e']. destruct H as (Hc & H0 & Hv).
  destruct (N.eq_dec m 0) as [->|Hm].
  - destruct (H0 eq_refl) as [-> ->]. rewrite !overflows_zero.
    change (underflows 0 0) with false. cbn. split; [done|]. split; [by left|].
    split; [done|]. by destruct (underflows 0 e).
  - destruct (Hv Hm) as [Hle Heq].
    assert (Hm' : m' <> 0%N) by (intros ->; lia).
    assert (He : e' = (e + (e' - e))%Z) by lia.
    rewrite (overflows_value m m' e (e' - e)), (underflows_value m m' e (e' - e)), <- He by lia.
    destruct (overflows m' e'); [done|]. destruct (underflows m' e'); cbn.
    + split; [done|]. split; [by left|]. done.
    + auto.
Qed.
