(* ===== verification/JsValue.v ===== *)
(** * JsValue: JavaScript values, objects and property access

    The values the loader handles: the primitives, and objects (plain
    objects and arrays) with their own properties in insertion order and
    the frozen flag that [Object.freeze] sets.  An array is an object of
    kind [KArray] whose own properties are its indices ["0"], ["1"], ...;
    its [length] is not stored.  Objects built by the loader are trees
    (every object is created fresh and stored once), so an object is a
    value and a reference to it is its path from the root.

    Property reads and writes follow the ECMAScript [[Get]] / [[Set]] of
    strict-mode code ([src/index.js] starts with ['use strict']): a read
    on [undefined] or [null] throws, a write into a frozen object or a
    primitive throws, and a read of a name that only the prototype chain
    has stops the model with [Proto]. *)

From S2P Require Import Prelude JsString JsNumber.

Inductive prim : Type :=
  | PUndef
  | PNull
  | PBool (b : bool)
  | PNum (n : number)
  | PStr (s : string).

#[export] Instance prim_eq_dec : EqDecision prim.
Proof. solve_decision. Defined.

Inductive kind : Type := KObject | KArray.

#[export] Instance kind_eq_dec : EqDecision kind.
Proof. solve_decision. Defined.

Unset Elimination Schemes.
Inductive value : Type :=
  | VPrim (p : prim)
  | VObj (k : kind) (frozen : bool) (props : list (string * value)).
Set Elimination Schemes.

(** Induction over values, with a hypothesis for every own property of
    an object. *)
Definition value_ind (P : value -> Prop)
    (fprim : forall p, P (VPrim p))
    (fobj : forall k fr ps, Forall (fun kv => P kv.2) ps -> P (VObj k fr ps)) :
    forall v, P v :=
  fix F (v : value) : P v :=
    match v with
    | VPrim p => fprim p
    | VObj k fr ps =>
        fobj k fr ps
          ((fix G (l : list (string * value)) : Forall (fun kv => P kv.2) l :=
              match l with
              | [] => List.Forall_nil _
              | kv :: l' => List.Forall_cons _ kv l' (F kv.2) (G l')
              end) ps)
    end.

(** [undefined == null]. *)
Definition nullish (p : prim) : bool :=
  match p with PUndef | PNull => true | _ => false end.

(** [v instanceof Object]. *)
Definition is_object (v : value) : bool :=
  match v with VObj _ _ _ => true | VPrim _ => false end.

Definition empty_object : value := VObj KObject false [].
Definition empty_array : value := VObj KArray false [].

(** ** The prototype chain *)

(** The properties of [Object.prototype]. *)
Definition object_proto_names : list string :=
  ["constructor"; "__defineGetter__"; "__defineSetter__"; "hasOwnProperty";
   "__lookupGetter__"; "__lookupSetter__"; "isPrototypeOf";
   "propertyIsEnumerable"; "toString"; "valueOf"; "__proto__"; "toLocaleString"].

(** The properties of [Array.prototype], with the [length] every array
    owns. *)
Definition array_proto_names : list string :=
  ["length"; "at"; "concat"; "copyWithin"; "fill"; "find"; "findIndex"; "findLast";
   "findLastIndex"; "lastIndexOf"; "pop"; "push"; "reverse"; "shift"; "unshift";
   "slice"; "sort"; "splice"; "includes"; "indexOf"; "join"; "keys"; "entries";
   "values"; "forEach"; "filter"; "flat"; "flatMap"; "map"; "every"; "some";
   "reduce"; "reduceRight"; "toReversed"; "toSorted"; "toSpliced"; "with"].

Definition mem_names (key : string) (l : list string) : bool :=
  existsb (String.eqb key) l.

(** [key] names a property an object of kind [k] has without owning it
    in [props]. *)
Definition inherited (k : kind) (key : string) : bool :=
  mem_names key object_proto_names
  || (match k with KArray => mem_names key array_proto_names | KObject => false end).

(** A write of [key] that is not a plain data-property write: the
    [__proto__] setter, or an array's [length]. *)
Definition special_write (k : kind) (key : string) : bool :=
  String.eqb key "__proto__"
  || (match k with KArray => String.eqb key "length" | KObject => false end).

(** ** Property access *)

(** [key in o] for an object [o]. *)
Definition has_prop (k : kind) (ps : list (string * value)) (key : string) : bool :=
  match assoc key ps with
  | Some _ => true
  | None => inherited k key
  end.

(** [v[key]]. *)
Definition get_prop (v : value) (key : string) : res value :=
  match v with
  | VObj k _ ps =>
      match assoc key ps with
      | Some x => Ok x
      | None => if inherited k key then Err (Proto key) else Ok (VPrim PUndef)
      end
  | VPrim p => if nullish p then Err TypeError else Err Stuck
  end.

(** [v[key] = x] in strict mode. *)
Definition put_prop (v : value) (key : string) (x : value) : res value :=
  match v with
  | VObj k fr ps =>
      if fr then Err TypeError
      else if special_write k key then Err (Proto key)
      else Ok (VObj k fr (assoc_set key x ps))
  | VPrim _ => Err TypeError
  end.

(** [obj.hasOwnProperty(key)] (lines 34, 286, 294) looks
    [hasOwnProperty] up on [obj] first: when [obj] owns a property of
    that name, its value (a string, number, boolean, [null] or an object
    of JSON or of the environment, never a function) is called, and the
    call throws a [TypeError].  This tells whether that happens. *)
Definition owns_hop (ps : list (string * value)) : bool :=
  match assoc "hasOwnProperty" ps with
  | Some _ => true
  | None => false
  end.

(** ** Paths into a tree *)

Definition path := list string.

(** The node at path [p]: each step follows an own property. *)
Fixpoint get_path (v : value) (p : path) : option value :=
  match p with
  | [] => Some v
  | key :: p' =>
      match v with
      | VObj _ _ ps =>
          match assoc key ps with
          | Some c => get_path c p'
          | None => None
          end
      | VPrim _ => None
      end
  end.

(** Apply [f] to the node at path [p].  The objects on the way are not
    written: the node is changed in place through its reference. *)
Fixpoint update_path (v : value) (p : path) (f : value -> res value) : res value :=
  match p with
  | [] => f v
  | key :: p' =>
      match v with
      | VObj k fr ps =>
          match assoc key ps with
          | Some c => c' ← update_path c p' f; Ok (VObj k fr (assoc_set key c' ps))
          | None => Err Stuck
          end
      | VPrim _ => Err Stuck
      end
  end.

(** ** Predicates over every node *)

Fixpoint all_nodes (P : value -> bool) (v : value) : bool :=
  P v &&
  match v with
  | VObj _ _ ps => forallb (fun kv => all_nodes P kv.2) ps
  | VPrim _ => true
  end.

(** No leaf is [undefined] or [null]. *)
Definition no_nullish (v : value) : bool :=
  all_nodes (fun n => match n with VPrim p => negb (nullish p) | _ => true end) v.

(** No object is frozen. *)
Definition unfrozen (v : value) : bool :=
  all_nodes (fun n => match n with VObj _ fr _ => negb fr | _ => true end) v.

(** Every object is frozen. *)
Definition deep_frozen (v : value) : bool :=
  all_nodes (fun n => match n with VObj _ fr _ => fr | _ => true end) v.

(** Every object is a plain object. *)
Definition plain (v : value) : bool :=
  all_nodes (fun n => match n with VObj k _ _ => bool_decide (k = KObject) | _ => true end) v.

(** ** Lemmas *)

Lemma owns_hop_In ps : In "hasOwnProperty" (map fst ps) -> owns_hop ps = true.
Proof.
  intros Hin. unfold owns_hop. destruct (assoc _ _) eqn:E; [done|].
  by apply assoc_None_notin in E.
Qed.

Lemma all_nodes_obj P k fr ps :
  all_nodes P (VObj k fr ps) = true <->
  P (VObj k fr ps) = true /\ Forall (fun kv => all_nodes P kv.2 = true) ps.
Proof.
  simpl. rewrite andb_true_iff, forallb_forall, List.Forall_forall. done.
Qed.

Lemma all_nodes_prim P p : all_nodes P (VPrim p) = P (VPrim p).
Proof. simpl. by rewrite andb_true_r. Qed.

Lemma all_nodes_impl (P Q : value -> bool) v :
  (forall n, P n = true -> Q n = true) -> all_nodes P v = true -> all_nodes Q v = true.
Proof.
  intros HPQ. induction v as [p|k fr ps IH] using value_ind.
  - rewrite !all_nodes_prim. apply HPQ.
  - rewrite !all_nodes_obj. intros [Hn Hps]. split; [by apply HPQ|].
    eapply List.Forall_impl; [|apply Forall_and; split; [exact IH|exact Hps]].
    intros kv [H1 H2]. by apply H1.
Qed.

Lemma all_nodes_root P v : all_nodes P v = true -> P v = true.
Proof. destruct v; simpl; rewrite ?andb_true_iff; naive_solver. Qed.

Lemma all_nodes_assoc P k fr ps key c :
  all_nodes P (VObj k fr ps) = true -> assoc key ps = Some c -> all_nodes P c = true.
Proof.
  rewrite all_nodes_obj, List.Forall_forall. intros [_ H] Hc.
  apply (H (key, c)), assoc_In, Hc.
Qed.

Lemma all_nodes_assoc_set P k fr ps key c :
  all_nodes P (VObj k fr ps) = true -> all_nodes P c = true ->
  P (VObj k fr (assoc_set key c ps)) = true ->
  all_nodes P (VObj k fr (assoc_set key c ps)) = true.
Proof.
  rewrite !all_nodes_obj, !List.Forall_forall. intros [_ H] Hc Hroot. split; [done|].
  intros [j w] Hin. apply assoc_set_In in Hin as [[-> ->]|Hin]; [done|].
  by apply (H (j, w)).
Qed.

Lemma get_path_app v p q :
  get_path v (p ++ q) = get_path v p ≫= fun n => get_path n q.
Proof.
  revert v. induction p as [|key p IH]; intros v; simpl; [done|].
  destruct v as [|k fr ps]; [done|]. destruct (assoc key ps); [apply IH|done].
Qed.

#[export] Hint Resolve all_nodes_root all_nodes_assoc : c11n.

(** ** Replacing the node at a path *)

(** The tree with the node at [p] replaced by [n] (unchanged when [p]
    names no node). *)
Fixpoint replace_at (v : value) (p : path) (n : value) : value :=
  match p with
  | [] => n
  | key :: p' =>
      match v with
      | VObj k fr ps =>
          match assoc key ps with
          | Some c => VObj k fr (assoc_set key (replace_at c p' n) ps)
          | None => v
          end
      | VPrim _ => v
      end
  end.

Lemma update_path_ok v p f n n' :
  get_path v p = Some n -> f n = Ok n' -> update_path v p f = Ok (replace_at v p n').
Proof.
  revert v. induction p as [|key p IH]; intros v Hget Hf; simpl in *.
  - by simplify_eq.
  - destruct v as [|k fr ps]; [done|]. destruct (assoc key ps) as [c|]; [|done].
    by rewrite (IH c Hget Hf).
Qed.

Lemma update_path_none v p f :
  get_path v p = None -> update_path v p f = Err Stuck.
Proof.
  revert v. induction p as [|key p IH]; intros v Hget; simpl in *; [done|].
  destruct v as [|k fr ps]; [done|]. destruct (assoc key ps) as [c|]; [|done].
  by rewrite (IH c Hget).
Qed.

Lemma replace_at_get v p n : get_path v p = Some n -> replace_at v p n = v.
Proof.
  revert v. induction p as [|key p IH]; intros v Hget; simpl in *; [by simplify_eq|].
  destruct v as [|k fr ps]; [done|]. destruct (assoc key ps) as [c|] eqn:E; [|done].
  rewrite (IH c Hget). by rewrite assoc_set_id.
Qed.

Lemma get_replace_at v p n :
  get_path v p <> None -> get_path (replace_at v p n) p = Some n.
Proof.
  revert v. induction p as [|key p IH]; intros v Hget; simpl in *; [done|].
  destruct v as [|k fr ps]; [done|]. destruct (assoc key ps) as [c|] eqn:E; [|done].
  simpl. rewrite assoc_set_eq. auto.
Qed.

Lemma replace_at_twice v p n n' :
  get_path v p <> None -> replace_at (replace_at v p n) p n' = replace_at v p n'.
Proof.
  revert v. induction p as [|key p IH]; intros v Hget; simpl in *; [done|].
  destruct v as [|k fr ps]; [done|]. destruct (assoc key ps) as [c|] eqn:E; [|done].
  simpl. rewrite assoc_set_eq, assoc_set_twice, IH; auto.
Qed.

(** Replacing a child of the object at [p] is replacing that object. *)
Lemma replace_at_snoc v p k fr ps key c n :
  get_path v p = Some (VObj k fr ps) -> assoc key ps = Some c ->
  replace_at v (p ++ [key]) n = replace_at v p (VObj k fr (assoc_set key n ps)).
Proof.
  revert v. induction p as [|j p IH]; intros v Hget Hc; simpl in *.
  - simplify_eq. by rewrite Hc.
  - destruct v as [|k' fr' ps']; [done|]. destruct (assoc j ps') as [c'|]; [|done].
    by rewrite (IH c').
Qed.

(** A node predicate that looks at an object's kind and flag only. *)
Definition local_pred (P : value -> bool) : Prop :=
  forall k fr ps ps', P (VObj k fr ps) = P (VObj k fr ps').

Lemma all_nodes_replace_at P v p n :
  local_pred P -> all_nodes P v = true -> all_nodes P n = true ->
  all_nodes P (replace_at v p n) = true.
Proof.
  intros HP. revert v. induction p as [|key p IH]; intros v Hv Hn; simpl; [done|].
  destruct v as [|k fr ps]; [done|]. destruct (assoc key ps) as [c|] eqn:E; [|done].
  apply all_nodes_assoc_set; [done| |].
  - apply IH; [|done]. by eapply all_nodes_assoc.
  - rewrite (HP _ _ _ ps). by apply all_nodes_root in Hv.
Qed.

Lemma all_nodes_get_path P v p n :
  all_nodes P v = true -> get_path v p = Some n -> all_nodes P n = true.
Proof.
  revert v. induction p as [|key p IH]; intros v Hv Hget; simpl in *; [by simplify_eq|].
  destruct v as [|k fr ps]; [done|]. destruct (assoc key ps) as [c|] eqn:E; [|done].
  eapply IH; [|done]. by eapply all_nodes_assoc.
Qed.

Lemma no_nullish_local : local_pred (fun n => match n with VPrim p => negb (nullish p) | _ => true end).
Proof. done. Qed.
Lemma unfrozen_local : local_pred (fun n => match n with VObj _ fr _ => negb fr | _ => true end).
Proof. done. Qed.
Lemma deep_frozen_local : local_pred (fun n => match n with VObj _ fr _ => fr | _ => true end).
Proof. done. Qed.
Lemma plain_local : local_pred (fun n => match n with VObj k _ _ => bool_decide (k = KObject) | _ => true end).
Proof. done. Qed.

#[export] Hint Resolve no_nullish_local unfrozen_local deep_frozen_local plain_local : c11n.
