(* ===== verification/OwnKeys.v ===== *)
(** * OwnKeys: the order in which [for (key in obj)] visits own keys

    An ordinary object enumerates its own string keys as
    [OrdinaryOwnPropertyKeys] (ECMAScript 2020, 9.1.11.1) lists them:
    the array indices first, in ascending numeric order, then the other
    keys in the order they were created.  The loop of [loadFromObject]
    ([src/index.js] line 33) visits the object of the flag parser in this
    order.  The model keeps every object's properties in creation order;
    [own_keys] is the enumeration of such a list.

    A key is an array index when [ToString(ToUint32(key))] is the key
    itself and is not [2^32 - 1]: exactly the decimal numerals without
    leading zeros of the numbers below [2^32 - 1] ([array_index]). *)

From S2P Require Import Prelude JsString JsNumber.
From stdpp Require Import sorting.

(** ** Array indices *)

(** The decimal numeral of [n], as [ToString] writes an integer. *)
Definition N_to_string (n : N) : string :=
  DecimalString.NilEmpty.string_of_uint (N.to_uint n).

(** [ToString(ToUint32(key)) === key && ToUint32(key) !== 2^32 - 1]: the
    leading digits of [key] read as a number must print back as [key],
    so [key] is all digits; a numeral of [2^32] or more is no index
    (ToUint32 would wrap it to a shorter numeral). *)
Definition array_index (key : string) : option N :=
  let v := (digits 10 key).1.1 in
  if String.eqb (N_to_string v) key && (v <? 4294967295)%N then Some v else None.

Section Order.
Context {V : Type}.
Implicit Types (ps : list (string * V)) (kv : string * V).

Definition is_index kv : bool := bool_decide (is_Some (array_index kv.1)).

Definition index_of (key : string) : N := default 0%N (array_index key).

Definition index_le (a b : string * V) : Prop := (index_of a.1 <= index_of b.1)%N.

Definition index_lt (a b : string * V) : Prop := (index_of a.1 < index_of b.1)%N.

#[global] Instance index_le_dec : RelDecision index_le.
Proof. intros a b. unfold index_le. apply _. Defined.

#[global] Instance index_le_total : Total index_le.
Proof. intros a b. unfold index_le. lia. Qed.

#[global] Instance index_le_trans : Transitive index_le.
Proof. intros a b c. unfold index_le. lia. Qed.

(** [for (key in obj)] over an object whose properties [ps] are listed
    in creation order. *)
Definition own_keys ps : list (string * V) :=
  merge_sort index_le (List.filter is_index ps) ++ List.filter (fun kv => negb (is_index kv)) ps.

(** The order [OrdinaryOwnPropertyKeys] prescribes for [ps]: a
    permutation of [ps] that lists the array indices in ascending order,
    then the other keys as [ps] lists them. *)
Definition enumerates ps (out : list (string * V)) : Prop :=
  out ≡ₚ ps /\
  exists xs ys, out = xs ++ ys /\ Forall (fun kv => is_index kv = true) xs /\
    StronglySorted index_lt xs /\ ys = List.filter (fun kv => negb (is_index kv)) ps.

End Order.

Arguments own_keys {V} ps : simpl never.

(** ** Lemmas *)

Lemma filter_perm {A} (f : A -> bool) l l' : l ≡ₚ l' -> List.filter f l ≡ₚ List.filter f l'.
Proof.
  induction 1 as [|x l l' _ IH|x y l|l l' l'' _ IH1 _ IH2]; simpl.
  - done.
  - destruct (f x); [by constructor|done].
  - destruct (f x), (f y); [by constructor|done..].
  - by rewrite IH1.
Qed.

Lemma filter_split_perm {A} (f : A -> bool) l :
  List.filter f l ++ List.filter (fun x => negb (f x)) l ≡ₚ l.
Proof.
  induction l as [|x l IH]; simpl; [done|].
  destruct (f x); simpl; [by constructor|]. rewrite <- Permutation_middle. by constructor.
Qed.

Lemma StronglySorted_weaken {A} (R S : relation A) l :
  (forall x y, R x y -> S x y) -> StronglySorted R l -> StronglySorted S l.
Proof.
  intros HRS. induction 1; constructor; [done|]. eapply List.Forall_impl; [|done]. auto.
Qed.

Lemma In_fst_inj {V} (a b : string * V) ps :
  NoDup (map fst ps) -> In a ps -> In b ps -> a.1 = b.1 -> a = b.
Proof.
  destruct a as [k v], b as [k' v']. cbn. intros Hnd Ha Hb ->.
  apply (assoc_NoDup_In _ _ _ Hnd) in Ha. apply (assoc_NoDup_In _ _ _ Hnd) in Hb. congruence.
Qed.

Lemma array_index_key key n : array_index key = Some n -> key = N_to_string n.
Proof.
  unfold array_index. case_match eqn:E; [|done]. intros [= <-].
  by apply andb_true_iff in E as [->%String.eqb_eq _].
Qed.

(** Two array indices with the same number are the same key. *)
Lemma index_of_inj {V} (a b : string * V) :
  is_index a = true -> is_index b = true -> index_of a.1 = index_of b.1 -> a.1 = b.1.
Proof.
  unfold is_index, index_of. rewrite !bool_decide_eq_true.
  intros [n Ha] [m Hb]. rewrite Ha, Hb. cbn. intros ->.
  by rewrite (array_index_key _ _ Ha), (array_index_key _ _ Hb).
Qed.

Lemma own_keys_perm {V} (ps : list (string * V)) : own_keys ps ≡ₚ ps.
Proof. unfold own_keys. rewrite ?merge_sort_Permutation. apply filter_split_perm. Qed.

Lemma filter_is_index_app {V} (xs ys : list (string * V)) :
  Forall (fun kv => is_index kv = true) xs -> Forall (fun kv => is_index kv = false) ys ->
  List.filter is_index (xs ++ ys) = xs.
Proof.
  intros Hx Hy. rewrite List.filter_app.
  assert (List.filter is_index ys = []) as ->.
  { induction Hy as [|y ys Hy _ IH]; simpl; [done|]. by rewrite Hy. }
  rewrite app_nil_r. induction Hx as [|x xs Hx _ IH]; simpl; [done|]. by rewrite Hx, IH.
Qed.

Lemma filter_negb_Forall {V} (f : V -> bool) l :
  Forall (fun x => f x = false) (List.filter (fun x => negb (f x)) l).
Proof.
  apply List.Forall_forall. intros x [_ Hx]%List.filter_In. by destruct (f x).
Qed.

(** Sorted array indices with distinct keys are strictly ascending. *)
Lemma sorted_indices_lt {V} (xs : list (string * V)) :
  StronglySorted index_le xs -> NoDup (map fst xs) -> Forall (fun kv => is_index kv = true) xs ->
  StronglySorted index_lt xs.
Proof.
  induction 1 as [|x l _ IH Hx]; intros Hnd Hi; constructor.
  - apply NoDup_cons in Hnd as [_ Hnd]. apply Forall_cons in Hi as [_ Hi]. by apply IH.
  - apply NoDup_cons in Hnd as [Hx1 _]. apply Forall_cons in Hi as [Hix Hi].
    apply List.Forall_forall. intros y Hy.
    apply List.Forall_forall with (x := y) in Hx, Hi; [|done..].
    unfold index_le, index_lt in *. destruct (decide (index_of x.1 = index_of y.1)) as [E|]; [|lia].
    apply index_of_inj in E; [|done..]. destruct Hx1. rewrite E. apply list_elem_of_In, in_map, Hy.
Qed.

Lemma own_keys_single {V} (kv : string * V) : own_keys [kv] = [kv].
Proof. unfold own_keys. cbn. by destruct (is_index kv). Qed.

Lemma own_keys_NoDup {V} (ps : list (string * V)) :
  NoDup (map fst ps) -> NoDup (map fst (own_keys ps)).
Proof. intros Hnd. by rewrite (own_keys_perm ps). Qed.

(** [own_keys] meets the order of [OrdinaryOwnPropertyKeys]. *)
Lemma own_keys_enumerates {V} (ps : list (string * V)) :
  NoDup (map fst ps) -> enumerates ps (own_keys ps).
Proof.
  intros Hnd. split; [apply own_keys_perm|].
  eexists _, _. split; [reflexivity|].
  pose proof (own_keys_NoDup ps Hnd) as Hnd'. unfold own_keys in Hnd'.
  rewrite map_app in Hnd'. apply NoDup_app in Hnd' as [Hnd' _].
  assert (Hi : Forall (fun kv => is_index kv = true) (merge_sort index_le (List.filter is_index ps))).
  { rewrite ?(merge_sort_Permutation _ _). apply List.Forall_forall.
    by intros kv [_ ?]%List.filter_In. }
  split; [done|]. split; [|done].
  apply sorted_indices_lt; [apply StronglySorted_merge_sort; apply _|done..].
Qed.

(** Functional refinement of the enumeration order: for an object
    with distinct keys, [own_keys] is the one order that
    [OrdinaryOwnPropertyKeys] allows, array indices ascending first, the
    other keys after them in creation order. *)
Theorem own_keys_order {V} (ps out : list (string * V)) :
  NoDup (map fst ps) -> enumerates ps out <-> out = own_keys ps.
Proof.
  intros Hnd. split; [|intros ->; by apply own_keys_enumerates].
  intros [Hp (xs & ys & -> & Hx & Hs & ->)]. unfold own_keys. f_equal.
  assert (Hms : forall b, b ∈ merge_sort index_le (List.filter is_index ps) ->
                          In b ps /\ is_index b = true).
  { intros b Hb%list_elem_of_In. apply (Permutation_in _ (merge_sort_Permutation _ _)) in Hb.
    by apply List.filter_In in Hb. }
  apply (StronglySorted_unique_strong index_le).
  - intros a b Ha Hb Hab Hba. apply Hms in Hb as [Hb Hib].
    apply list_elem_of_In in Ha as Ha'. apply List.Forall_forall with (x := a) in Hx; [|done].
    apply (In_fst_inj _ _ ps Hnd); [|done|].
    + rewrite <- Hp. apply in_or_app. by left.
    + apply index_of_inj; [done..|]. unfold index_le in *. lia.
  - eapply StronglySorted_weaken; [|done]. unfold index_lt, index_le. intros ??. lia.
  - apply StronglySorted_merge_sort; apply _.
  - rewrite merge_sort_Permutation.
    rewrite <- (filter_is_index_app xs (List.filter (fun kv => negb (is_index kv)) ps)) at 1
      by (done || apply filter_negb_Forall).
    by apply filter_perm.
Qed.

Lemma own_keys_order_witness :
  NoDup (map fst [("b", 0); ("10", 1); ("4294967295", 2); ("2", 3); ("01", 4); ("4294967294", 5)]) /\
  enumerates [("b", 0); ("10", 1); ("4294967295", 2); ("2", 3); ("01", 4); ("4294967294", 5)]
    [("2", 3); ("10", 1); ("4294967294", 5); ("b", 0); ("4294967295", 2); ("01", 4)].
Proof.
  assert (Hnd : NoDup (map fst [("b", 0); ("10", 1); ("4294967295", 2); ("2", 3); ("01", 4);
                                ("4294967294", 5)])) by (repeat constructor; set_solver).
  split; [exact Hnd|].
  apply (proj2 (own_keys_order _ _ Hnd)). vm_compute. reflexivity.
Defined.
