(* ===== verification/Minimist.v ===== *)
(** * Minimist: the command-line flag parser

    [loadFromArgv] ([src/index.js] line 161) hands the cleaned argument
    strings to the library [minimist], called without options.  The
    library is not part of the repository: this file models the
    convention spec section 5 names ([--key=value], [--key value],
    boolean flags, a bucket [_] of positional arguments that the loader
    discards), case by case as the parser (version 1.2) tests its
    regular expressions:

    - [/^--.+=/]: [--key=value] (the key up to the first [=]; an [=]
      right after [--] makes the inner match fail and the parser throw);
    - [/^--no-.+/]: [--no-key] sets [key] to [false];
    - [/^--.+/]: [--key] takes the next argument as its value unless
      that one looks like a flag ([/^(-|--)[^-]/]), and is [true]
      otherwise;
    - [/^-[^-]+/]: a group of one-letter flags, each [true] unless the
      rest of the group is its value, the last one taking the next
      argument like [--key];
    - anything else is positional; [--] ends the flags.

    A value that reads as a number ([isNumber]) is stored as that number;
    a key set twice holds an array of its values, a boolean being
    overwritten.  The parser's option tables are plain objects, so for a
    key named like a property of [Object.prototype] [aliases[key]] is
    that inherited function (or [Object.prototype] itself), and
    [(aliases[key] || []).forEach] in [setArg], or [aliases[key].some]
    in [aliasIsBoolean], throws a [TypeError]; a key with a [.] (a
    nested key of the parser) is outside the model ([Stuck]): [clean]
    has removed every [.] before. *)

From S2P Require Import Prelude JsString JsNumber JsValue.
From Stdlib Require Import Ascii.

(** ** Lexical tests *)

Definition is_digit (c : ascii) : bool :=
  let n := nat_of_ascii c in (48 <=? n) && (n <=? 57).

(** [/[A-Za-z]/] on one character. *)
Definition is_alpha (c : ascii) : bool :=
  let n := nat_of_ascii c in ((65 <=? n) && (n <=? 90)) || ((97 <=? n) && (n <=? 122)).

(** [\w]: letters, digits and [_]. *)
Definition is_word (c : ascii) : bool := is_alpha c || is_digit c || Ascii.eqb c "_"%char.

(** The line terminators of Latin-1, which [.] does not match. *)
Definition is_line_term (c : ascii) : bool :=
  Ascii.eqb c "010"%char || Ascii.eqb c "013"%char.

(** What [.+] matches from the start of [s], greedily. *)
Fixpoint take_line (s : string) : string :=
  match s with
  | EmptyString => EmptyString
  | String c r => if is_line_term c then EmptyString else String c (take_line r)
  end.

(** [s] cut at its first [=]. *)
Fixpoint split_eq (s : string) : option (string * string) :=
  match s with
  | EmptyString => None
  | String c r =>
      if Ascii.eqb c "="%char then Some (EmptyString, r)
      else match split_eq r with
           | Some (k, v) => Some (String c k, v)
           | None => None
           end
  end.

(** The strings [isNumber] accepts: [/^0x[0-9a-f]+$/i], or an optional
    sign, then digits with an optional [.] and fraction digits or a
    [.] and at least one digit, then an optional [e], sign and digits. *)
Definition drop_sign (s : string) : string :=
  match s with
  | String c r => if Ascii.eqb c "+"%char || Ascii.eqb c "-"%char then r else s
  | EmptyString => s
  end.

Definition exponent_ok (s : string) : bool :=
  match s with
  | EmptyString => true
  | String "e"%char r =>
      let '(_, n, rest) := digits 10 (drop_sign r) in (0 <? n)%nat && String.eqb rest ""
  | _ => false
  end.

Definition is_decimal (s : string) : bool :=
  let '(_, ni, r1) := digits 10 (drop_sign s) in
  match r1 with
  | String "."%char r =>
      let '(_, nf, r2) := digits 10 r in ((0 <? ni) || (0 <? nf))%nat && exponent_ok r2
  | _ => (0 <? ni)%nat && exponent_ok r1
  end.

Definition is_hex (s : string) : bool :=
  match s with
  | String "0"%char (String x r) =>
      (Ascii.eqb x "x"%char || Ascii.eqb x "X"%char) &&
      (let '(_, n, rest) := digits 16 r in (0 <? n)%nat && String.eqb rest "")
  | _ => false
  end.

Definition is_number (s : string) : bool := is_hex s || is_decimal s.

(** [/^(-|--)[^-]/]: the next argument looks like a flag. *)
Definition flag_like (s : string) : bool :=
  match s with
  | String "-"%char (String c r) =>
      negb (Ascii.eqb c "-"%char) ||
      match r with String d _ => negb (Ascii.eqb d "-"%char) | EmptyString => false end
  | _ => false
  end.

(** The parser's test that [next] ends with a number (its regular
    expression is anchored at the end only): the string ends with a
    digit, or with a digit and a [.]. *)
Fixpoint ends_numeric (s : string) : bool :=
  match s with
  | EmptyString => false
  | String c EmptyString => is_digit c
  | String c (String d EmptyString) => is_digit d || (is_digit c && Ascii.eqb d "."%char)
  | String _ r => ends_numeric r
  end.

Definition long_eq_test (arg : string) : bool :=
  String.prefix "--" arg && has_char "="%char (str_drop 1 (take_line (str_drop 2 arg))).

Definition no_test (arg : string) : bool :=
  String.prefix "--no-" arg && negb (String.eqb (take_line (str_drop 5 arg)) "").

Definition long_test (arg : string) : bool :=
  String.prefix "--" arg && negb (String.eqb (take_line (str_drop 2 arg)) "").

Definition short_test (arg : string) : bool :=
  match arg with
  | String "-"%char (String c _) => negb (Ascii.eqb c "-"%char)
  | _ => false
  end.

(** [arg.slice(-1)]. *)
Fixpoint last_key (s : string) : string :=
  match s with
  | EmptyString => EmptyString
  | String c EmptyString => String c EmptyString
  | String _ r => last_key r
  end.

(** ** The parsed object

    The result of the parser is an object: its own properties in
    insertion order, starting with the bucket [_]. *)

Definition argv_obj := list (string * value).

(** What [setArg] receives: a string, or a boolean for a flag without
    a value. *)
Inductive raw : Type :=
  | RStr (s : string)
  | RBool (b : bool).

(** [isNumber(val) ? Number(val) : val]. *)
Definition arg_value (r : raw) : value :=
  match r with
  | RBool b => VPrim (PBool b)
  | RStr s => if is_number s then VPrim (PNum (string_to_number s)) else VPrim (PStr s)
  end.

(** [a.push(v)] on an array. *)
Definition push_value (a v : value) : value :=
  match a with
  | VObj KArray fr ps => VObj KArray fr (ps ++ [(index_key (length ps), v)])
  | _ => a
  end.

(** [setKey] with a one-segment key: a new key or a boolean is
    overwritten, an array receives the value, any other value becomes
    the array of the old and the new. *)
Definition set_key (acc : argv_obj) (key : string) (v : value) : argv_obj :=
  match assoc key acc with
  | None | Some (VPrim (PBool _)) => assoc_set key v acc
  | Some (VObj KArray _ _ as a) => assoc_set key (push_value a v) acc
  | Some old => assoc_set key (VObj KArray false [("0", old); ("1", v)]) acc
  end.

(** [setArg]: the option tables are read at [key]; an inherited entry
    is no array, and calling [forEach] or [some] on it throws. *)
Definition set_arg (acc : argv_obj) (key : string) (r : raw) : res argv_obj :=
  if mem_names key object_proto_names then Err TypeError
  else if has_char "."%char key then Err Stuck
  else Ok (set_key acc key (arg_value r)).

(** [argv._.push(v)]. *)
Definition push_positional (acc : argv_obj) (v : value) : res argv_obj :=
  match assoc "_" acc with
  | Some a => Ok (assoc_set "_" (push_value a v) acc)
  | None => Err Stuck
  end.

(** ** The loop over the arguments *)

(** The letters of a group [-abc]: [s] is the group from the current
    letter on ([arg.slice(j + 1)]), [next] is [arg.slice(j + 2)]; the
    last character is not a letter of the loop.  The boolean is
    [broken]: a letter took the rest of the group as its value. *)
Fixpoint short_letters (s : string) (acc : argv_obj) : res (argv_obj * bool) :=
  match s with
  | EmptyString => Ok (acc, false)
  | String l next =>
      match next with
      | EmptyString => Ok (acc, false)
      | String c r =>
          let key := String l EmptyString in
          if String.eqb next "-" then
            acc' ← set_arg acc key (RStr next); short_letters next acc'
          else if is_alpha l && Ascii.eqb c "="%char then
            acc' ← set_arg acc key (RStr r); Ok (acc', true)
          else if is_alpha l && ends_numeric next then
            acc' ← set_arg acc key (RStr next); Ok (acc', true)
          else if negb (String.eqb r "") && negb (is_word c) then
            acc' ← set_arg acc key (RStr next); Ok (acc', true)
          else
            acc' ← set_arg acc key (RBool true); short_letters next acc'
      end
  end.

(** The [for] loop of the parser; [i += 1] is the recursive call on the
    arguments after the next one.  The branches testing
    [/^(true|false)$/] on the next argument are left out: without
    boolean options they are reached only when that argument looks like
    a flag or is missing, and then the test fails. *)
Fixpoint parse_args (args : list string) (acc : argv_obj) : res argv_obj :=
  match args with
  | [] => Ok acc
  | arg :: rest =>
      if long_eq_test arg then
        match split_eq (str_drop 2 arg) with
        | Some (String c k, v) => acc' ← set_arg acc (String c k) (RStr v); parse_args rest acc'
        | _ => Err TypeError
        end
      else if no_test arg then
        acc' ← set_arg acc (take_line (str_drop 5 arg)) (RBool false); parse_args rest acc'
      else if long_test arg then
        let key := take_line (str_drop 2 arg) in
        match rest with
        | next :: rest' =>
            if negb (flag_like next) then
              acc' ← set_arg acc key (RStr next); parse_args rest' acc'
            else acc' ← set_arg acc key (RBool true); parse_args rest acc'
        | [] => acc' ← set_arg acc key (RBool true); parse_args rest acc'
        end
      else if short_test arg then
        '(acc', broken) ← short_letters (str_drop 1 arg) acc;
        let key := last_key arg in
        if broken || String.eqb key "-" then parse_args rest acc'
        else match rest with
             | next :: rest' =>
                 if negb (String.eqb next "") && negb (flag_like next) then
                   acc'' ← set_arg acc' key (RStr next); parse_args rest' acc''
                 else acc'' ← set_arg acc' key (RBool true); parse_args rest acc''
             | [] => acc'' ← set_arg acc' key (RBool true); parse_args rest acc''
             end
      else
        acc' ← push_positional acc (arg_value (RStr arg)); parse_args rest acc'
  end.

(** [args.indexOf('--')]: the flags before the first [--], the
    arguments after it. *)
Fixpoint split_dashdash (args : list string) : list string * list string :=
  match args with
  | [] => ([], [])
  | a :: r =>
      if String.eqb a "--" then ([], r)
      else let '(f, n) := split_dashdash r in (a :: f, n)
  end.

(** [notFlags.forEach((k) => argv._.push(k))]: kept as strings. *)
Fixpoint push_strings (acc : argv_obj) (l : list string) : res argv_obj :=
  match l with
  | [] => Ok acc
  | s :: l' => acc' ← push_positional acc (VPrim (PStr s)); push_strings acc' l'
  end.

Definition minimist (args : list string) : res argv_obj :=
  let '(flags, not_flags) := split_dashdash args in
  acc ← parse_args flags [("_", empty_array)];
  push_strings acc not_flags.

Example minimist_forms :
  minimist ["--port=8080"; "--debug"; "--no-color"; "--name"; "app"; "-xvf"; "a.tgz";
            "-n5"; "pos"; "--tag=a"; "--tag=b"; "--"; "--rest"]
  = Ok [("_", VObj KArray false [("0", VPrim (PStr "pos")); ("1", VPrim (PStr "--rest"))]);
        ("port", VPrim (PNum (Finite false 808 1))); ("debug", VPrim (PBool true));
        ("color", VPrim (PBool false)); ("name", VPrim (PStr "app"));
        ("x", VPrim (PBool true)); ("v", VPrim (PBool true)); ("f", VPrim (PStr "a.tgz"));
        ("n", VPrim (PNum (Finite false 5 0)));
        ("tag", VObj KArray false [("0", VPrim (PStr "a")); ("1", VPrim (PStr "b"))])].
Proof. vm_compute. reflexivity. Qed.

(** ** Lemmas *)

Lemma has_char_app c s t : has_char c (s +:+ t) = has_char c s || has_char c t.
Proof. induction s as [|d s IH]; simpl; [done|]. by rewrite IH, orb_assoc. Qed.

Lemma take_line_app k s : take_line k = k -> take_line (k +:+ s) = k +:+ take_line s.
Proof.
  induction k as [|c k IH]; simpl; [done|].
  destruct (is_line_term c); [done|]. intros [= H]. by rewrite IH.
Qed.

Lemma split_eq_app k v :
  has_char "="%char k = false -> split_eq (k +:+ String "="%char v) = Some (k, v).
Proof.
  induction k as [|c k IH]; [done|]. cbn [has_char].
  rewrite orb_false_iff. intros [Hc Hk].
  change (String c k +:+ ?t) with (String c (k +:+ t)). cbn [split_eq].
  rewrite Ascii.eqb_sym, Hc, IH by done. done.
Qed.



(** *** Distinct long flags *)

(** A flag name that [--name=value] gives back: non-empty, without [=],
    [.] or a line terminator, not a name of [Object.prototype]. *)
Definition plain_flag (k : string) : bool :=
  negb (String.eqb k "") && negb (has_char "="%char k) && negb (has_char "."%char k) &&
  negb (mem_names k object_proto_names) && String.eqb (take_line k) k.

Definition encode_flag (kv : string * string) : string := "--" +:+ kv.1 +:+ String "="%char kv.2.

Lemma long_eq_test_dashes t :
  long_eq_test ("--" +:+ t) = has_char "="%char (str_drop 1 (take_line t)).
Proof. by destruct t. Qed.

Lemma str_drop_dashes t : str_drop 2 ("--" +:+ t) = t.
Proof. reflexivity. Qed.

(** [--name=value] for a plain name is one [setArg]. *)
Lemma encode_flag_set acc k v rest :
  plain_flag k = true ->
  parse_args (encode_flag (k, v) :: rest) acc = parse_args rest (set_key acc k (arg_value (RStr v))).
Proof.
  unfold plain_flag. rewrite !andb_true_iff, !negb_true_iff.
  intros [[[[Hne Heq] Hdot] Hproto] Hline]. apply String.eqb_eq in Hline.
  destruct k as [|c k]; [done|].
  assert (Hl : long_eq_test (encode_flag (String c k, v)) = true).
  { unfold encode_flag; cbn [fst snd]. rewrite long_eq_test_dashes, take_line_app by done.
    change (String c k +:+ ?t) with (String c (k +:+ t)). cbn [str_drop].
    rewrite has_char_app. cbn [has_char]. by rewrite orb_true_r. }
  cbn [parse_args]. rewrite Hl. unfold encode_flag. cbn [fst snd].
  rewrite str_drop_dashes, split_eq_app by done.
  unfold set_arg. rewrite Hproto, Hdot. done.
Qed.

Lemma encode_flag_parse acc k v rest :
  plain_flag k = true -> assoc k acc = None ->
  parse_args (encode_flag (k, v) :: rest) acc = parse_args rest (acc ++ [(k, arg_value (RStr v))]).
Proof.
  intros Hk Hnew. rewrite encode_flag_set by done. unfold set_key. by rewrite Hnew, assoc_set_new.
Qed.


Lemma parse_args_encoded acc kvs :
  NoDup (map fst acc ++ map fst kvs) -> forallb (fun kv => plain_flag kv.1) kvs = true ->
  parse_args (map encode_flag kvs) acc =
  Ok (acc ++ map (fun kv => (kv.1, arg_value (RStr kv.2))) kvs).
Proof.
  revert acc. induction kvs as [|[k v] kvs IH]; intros acc Hnd Hp; cbn [map].
  - by rewrite app_nil_r.
  - cbn [forallb fst] in Hp. apply andb_true_iff in Hp as [Hk Hp].
    rewrite encode_flag_parse; [|done|].
    + rewrite IH, <- app_assoc by (by rewrite ?map_app, <- ?app_assoc). done.
    + apply assoc_notin. intros Hin. cbn [map fst] in Hnd.
      apply NoDup_app in Hnd as (_ & Hdis & _). apply (Hdis k); [by apply list_elem_of_In|].
      by left.
Qed.

(** *** A repeated long flag *)

(** The array [setKey] makes of the values of a key set more than once:
    the values at the indices [0], [1], ... *)
Definition flag_array (xs : list value) : value :=
  VObj KArray false (imap (fun i x => (index_key i, x)) xs).



(** Each further [--name=value] pushes its value on the array. *)
Lemma parse_args_push acc k vs ps :
  plain_flag k = true -> assoc k acc = Some (VObj KArray false ps) ->
  parse_args (map (fun v => encode_flag (k, v)) vs) acc =
  Ok (assoc_set k (VObj KArray false
        (ps ++ imap (fun i x => (index_key (length ps + i), x)) (map (fun v => arg_value (RStr v)) vs))) acc).
Proof.
  revert acc ps. induction vs as [|v vs IH]; intros acc ps Hk Ha; cbn [map].
  - cbn [imap]. rewrite app_nil_r. by rewrite assoc_set_id.
  - rewrite encode_flag_set by done. unfold set_key at 1. rewrite Ha. cbn [push_value].
    rewrite (IH _ (ps ++ [(index_key (length ps), arg_value (RStr v))])) by (done || apply assoc_set_eq). rewrite assoc_set_twice, <- app_assoc.
    do 4 f_equal. rewrite imap_cons, Nat.add_0_r. f_equal.
    apply imap_ext. intros i x _. rewrite length_app. cbn. do 2 f_equal. lia.
Qed.

(** A second value for a key holding a string or a number makes the
    array of both. *)
Lemma set_key_scalar acc k v y :
  assoc k acc = Some (arg_value (RStr v)) ->
  set_key acc k y = assoc_set k (VObj KArray false [("0", arg_value (RStr v)); ("1", y)]) acc.
Proof. intros H. unfold set_key. rewrite H. unfold arg_value. by destruct (is_number v). Qed.

(** A long flag given two or more times: the parser stores the array
    of its values in order. *)
Lemma parse_args_repeated acc k v1 v2 vs :
  plain_flag k = true -> assoc k acc = None ->
  parse_args (map (fun v => encode_flag (k, v)) (v1 :: v2 :: vs)) acc =
  Ok (acc ++ [(k, flag_array (map (fun v => arg_value (RStr v)) (v1 :: v2 :: vs)))]).
Proof.
  intros Hk Hnew. cbn [map]. rewrite encode_flag_parse, encode_flag_set by done.
  rewrite (set_key_scalar _ _ v1); [|rewrite assoc_app_None by (by apply assoc_None_notin); cbn; by rewrite String.eqb_refl].
  rewrite (parse_args_push _ _ _ [("0", arg_value (RStr v1)); ("1", arg_value (RStr v2))]) by (done || apply assoc_set_eq).
  rewrite assoc_set_twice, assoc_set_app_new by done. cbn. rewrite String.eqb_refl.
  unfold flag_array. do 5 f_equal.
Qed.

Lemma split_dashdash_none args :
  Forall (fun a => a <> "--") args -> split_dashdash args = (args, []).
Proof.
  induction 1 as [|a args Ha _ IH]; [done|]. cbn [split_dashdash].
  destruct (String.eqb_spec a "--"); [done|]. by rewrite IH.
Qed.

Lemma encode_flag_not_dashes kv : encode_flag kv <> "--".
Proof.
  destruct kv as [k v]. unfold encode_flag. cbn [fst snd].
  change ("--" +:+ ?t) with (String "-"%char (String "-"%char t)). intros [= H].
  by destruct k.
Qed.

(** *** What the parser can return

    The parsed object has distinct keys and its bucket [_] stays an
    array; the parser fails only by throwing a [TypeError], as long as
    no argument holds a [.]. *)

Definition argv_wf (acc : argv_obj) : Prop :=
  NoDup (map fst acc) /\ exists ps, assoc "_" acc = Some (VObj KArray false ps).

Definition parse_error (e : error) : Prop := e = TypeError.

Definition parse_outcome {A} (P : A -> Prop) (r : res A) : Prop :=
  match r with Ok a => P a | Err e => parse_error e end.

Lemma outcome_bind {A B} (P : A -> Prop) (Q : B -> Prop) (r : res A) (f : A -> res B) :
  parse_outcome P r -> (forall a, P a -> parse_outcome Q (f a)) -> parse_outcome Q (r ≫= f).
Proof. destruct r; simpl; auto. Qed.

Create HintDb minimist.

Lemma has_char_cons_r c d r : has_char c (String d r) = false -> has_char c r = false.
Proof. cbn [has_char]. rewrite orb_false_iff. tauto. Qed.

Lemma has_char_single c d r : has_char c (String d r) = false -> has_char c (String d "") = false.
Proof. cbn [has_char]. rewrite !orb_false_iff. tauto. Qed.

Lemma has_char_str_drop c n s : has_char c s = false -> has_char c (str_drop n s) = false.
Proof.
  revert s. induction n as [|n IH]; intros [|d r] H; cbn [str_drop]; eauto using has_char_cons_r.
Qed.

Lemma has_char_take_line c s : has_char c s = false -> has_char c (take_line s) = false.
Proof.
  induction s as [|d r IH]; intros H; cbn [take_line]; [done|].
  destruct (is_line_term d); [done|]. cbn [has_char] in *. apply orb_false_iff in H as [-> H].
  by apply IH.
Qed.

Lemma has_char_split_eq c s k v :
  split_eq s = Some (k, v) -> has_char c s = false -> has_char c k = false.
Proof.
  revert k. induction s as [|d r IH]; intros k Hs H; cbn [split_eq] in Hs; [done|].
  destruct (Ascii.eqb d "="%char); [by injection Hs as <- <-|].
  destruct (split_eq r) as [[k' v']|] eqn:E; [|done]. injection Hs as <- <-.
  cbn [has_char] in *. apply orb_false_iff in H as [-> H]. by apply (IH k').
Qed.

Lemma has_char_last_key c s : has_char c s = false -> has_char c (last_key s) = false.
Proof.
  induction s as [|d [|e r] IH]; intros H; cbn [last_key]; eauto using has_char_cons_r.
Qed.

#[export] Hint Resolve has_char_cons_r has_char_single has_char_str_drop has_char_take_line
  has_char_last_key : minimist.

Lemma set_key_wf acc key v : argv_wf acc -> argv_wf (set_key acc key v).
Proof.
  intros [Hnd [ps Hps]]. split.
  - unfold set_key. repeat case_match; by apply assoc_set_NoDup.
  - destruct (String.eqb_spec key "_") as [->|Hne].
    + unfold set_key. rewrite Hps, assoc_set_eq. by eexists.
    + exists ps. unfold set_key. repeat case_match; by rewrite assoc_set_ne.
Qed.

Lemma set_arg_outcome acc key r :
  has_char "."%char key = false -> argv_wf acc -> parse_outcome argv_wf (set_arg acc key r).
Proof.
  intros Hd Hwf. unfold set_arg. destruct (mem_names key object_proto_names).
  - done.
  - rewrite Hd. by apply set_key_wf.
Qed.

Lemma push_positional_outcome acc v : argv_wf acc -> parse_outcome argv_wf (push_positional acc v).
Proof.
  intros [Hnd [ps Hps]]. unfold push_positional. rewrite Hps. split.
  - by apply assoc_set_NoDup.
  - rewrite assoc_set_eq. by eexists.
Qed.

Ltac set_step := eapply outcome_bind; [apply set_arg_outcome; eauto with minimist|intros ? ?].

Lemma short_letters_outcome s acc :
  has_char "."%char s = false -> argv_wf acc -> parse_outcome (fun p => argv_wf p.1) (short_letters s acc).
Proof.
  revert acc. induction s as [|l next IH]; intros acc Hd Hwf; cbn [short_letters]; [done|].
  destruct next as [|c r]; [done|].
  repeat case_match; set_step; first [done | apply IH; eauto with minimist].
Qed.

Lemma push_strings_outcome acc l : argv_wf acc -> parse_outcome argv_wf (push_strings acc l).
Proof.
  revert acc. induction l as [|x l IH]; intros acc Hwf; [done|]. cbn [push_strings].
  eapply outcome_bind; [by apply push_positional_outcome|]. auto.
Qed.

Lemma parse_args_outcome args acc :
  Forall (fun a => has_char "."%char a = false) args -> argv_wf acc ->
  parse_outcome argv_wf (parse_args args acc).
Proof.
  revert acc. induction args as [args IH] using (induction_ltof1 _ (@length _)).
  unfold ltof in IH. intros acc Hds Hwf. destruct args as [|arg rest]; [done|].
  apply Forall_cons in Hds as [Hd Hds]. cbn [parse_args].
  assert (IHr : forall l acc', length l <= length rest -> Forall (fun a => has_char "."%char a = false) l ->
                argv_wf acc' -> parse_outcome argv_wf (parse_args l acc')).
  { intros l acc' Hl. apply IH. simpl. lia. }
  assert (Hnext : forall next rest', rest = next :: rest' -> Forall (fun a => has_char "."%char a = false) rest').
  { intros next rest' ->. by apply Forall_cons in Hds as [_ ?]. }
  destruct (long_eq_test arg).
  { destruct (split_eq (str_drop 2 arg)) as [[[|c k] v]|] eqn:E; try done.
    set_step; [eapply has_char_split_eq; eauto with minimist|]. by apply IHr. }
  destruct (no_test arg); [set_step; by apply IHr|].
  destruct (long_test arg).
  { destruct rest as [|next rest'] eqn:Er;
      [|destruct (negb (flag_like next))]; set_step; apply IHr; eauto; simpl; lia. }
  destruct (short_test arg).
  { eapply outcome_bind; [apply short_letters_outcome; eauto with minimist|].
    intros [acc' broken] Hwf'. cbn [fst] in Hwf'. cbn beta iota.
    destruct (broken || String.eqb (last_key arg) "-"); [by apply IHr|].
    destruct rest as [|next rest'] eqn:Er;
      [|destruct (negb (String.eqb next "") && negb (flag_like next))];
      set_step; apply IHr; eauto; simpl; lia. }
  eapply outcome_bind; [by apply push_positional_outcome|]. intros. by apply IHr.
Qed.

Lemma minimist_outcome args :
  Forall (fun a => has_char "."%char a = false) args -> parse_outcome argv_wf (minimist args).
Proof.
  intros Hds. unfold minimist.
  assert (Hsplit : forall l f n, split_dashdash l = (f, n) -> Forall (fun a => has_char "."%char a = false) l ->
                   Forall (fun a => has_char "."%char a = false) f).
  { induction l as [|a l IHl]; intros f n E Hl; cbn [split_dashdash] in E.
    - by injection E as <- <-.
    - apply Forall_cons in Hl as [Ha Hl]. destruct (String.eqb a "--"); [by injection E as <- <-|].
      destruct (split_dashdash l) as [f' n'] eqn:E'. injection E as <- <-. constructor; eauto. }
  destruct (split_dashdash args) as [f n] eqn:E.
  eapply outcome_bind; [apply parse_args_outcome; [eauto|]|intros; by apply push_strings_outcome].
  split; [repeat constructor; set_solver|by eexists].
Qed.

(** *** Bare flags *)

(** [--name] alone is [true]. *)
Lemma bare_flag_parse acc k :
  plain_flag k = true -> String.prefix "no-" k = false ->
  parse_args ["--" +:+ k] acc = Ok (set_key acc k (VPrim (PBool true))).
Proof.
  unfold plain_flag. rewrite !andb_true_iff, !negb_true_iff.
  intros [[[[Hne Heq] Hdot] Hproto] Hline] Hno. apply String.eqb_eq in Hline.
  assert (H1 : long_eq_test ("--" +:+ k) = false)
    by (rewrite long_eq_test_dashes, Hline; by apply has_char_str_drop).
  assert (H2 : no_test ("--" +:+ k) = false).
  { unfold no_test. change (String.prefix "--no-" ("--" +:+ k)) with (String.prefix "no-" k).
    by rewrite Hno. }
  assert (H3 : long_test ("--" +:+ k) = true).
  { unfold long_test. change (String.prefix "--" ("--" +:+ k)) with (String.prefix "" k).
    rewrite str_drop_dashes, Hline, Hne. by destruct k. }
  cbn [parse_args]. rewrite H1, H2, H3, str_drop_dashes, Hline.
  unfold set_arg. by rewrite Hproto, Hdot.
Qed.

(** [--no-name] is [false]. *)
Lemma no_flag_parse acc k :
  plain_flag k = true -> parse_args ["--no-" +:+ k] acc = Ok (set_key acc k (VPrim (PBool false))).
Proof.
  unfold plain_flag. rewrite !andb_true_iff, !negb_true_iff.
  intros [[[[Hne Heq] Hdot] Hproto] Hline]. apply String.eqb_eq in Hline.
  assert (H1 : long_eq_test ("--no-" +:+ k) = false).
  { change ("--no-" +:+ k) with ("--" +:+ ("no-" +:+ k)).
    rewrite long_eq_test_dashes, (take_line_app "no-" k) by reflexivity.
    change (str_drop 1 ("no-" +:+ take_line k)) with ("o-" +:+ take_line k).
    by rewrite has_char_app, Hline, Heq. }
  assert (H2 : no_test ("--no-" +:+ k) = true).
  { unfold no_test. change (String.prefix "--no-" ("--no-" +:+ k)) with (String.prefix "" k).
    change (str_drop 5 ("--no-" +:+ k)) with k. rewrite Hline, Hne. by destruct k. }
  cbn [parse_args]. rewrite H1, H2. change (str_drop 5 ("--no-" +:+ k)) with k. rewrite Hline.
  unfold set_arg. by rewrite Hproto, Hdot.
Qed.

(** A command line of one flag. *)
Lemma minimist_single arg acc :
  arg <> "--" -> parse_args [arg] [("_", empty_array)] = Ok acc -> minimist [arg] = Ok acc.
Proof.
  intros Hd Hp. unfold minimist. cbn [split_dashdash].
  destruct (String.eqb_spec arg "--"); [done|]. cbn zeta. by rewrite Hp.
Qed.

(** ** Properties *)

(** Round trip of the parser: flags written as [--name=value] with
    distinct plain names (none of them [_]) are parsed back in order,
    each value read as [isNumber] reads it, after the empty positional
    bucket. *)
Theorem minimist_long_roundtrip kvs :
  NoDup ("_" :: map fst kvs) -> forallb (fun kv => plain_flag kv.1) kvs = true ->
  minimist (map encode_flag kvs) =
  Ok (("_", empty_array) :: map (fun kv => (kv.1, arg_value (RStr kv.2))) kvs).
Proof.
  intros Hnd Hp. unfold minimist. rewrite split_dashdash_none.
  - rewrite parse_args_encoded by done. done.
  - apply List.Forall_forall. intros a Ha. apply in_map_iff in Ha as (kv & <- & _).
    apply encode_flag_not_dashes.
Qed.

