(* ===== verification/Coercer.v ===== *)
(** * Coercer: [parseValue]

    [parseValue] ([src/index.js] lines 240-251) turns the raw value of a
    flat source into a configuration value: the strings ["true"] and
    ["false"] become booleans, anything whose unary [+] is not [NaN]
    becomes that number, the empty string and everything else stay as
    they are.  The unary [+] is [ToNumber] ([to_number]), which reads
    strings with [StringToNumber] (JsNumber.v). *)

From S2P Require Import Prelude JsString JsNumber JsValue.

(** [+val]: ECMAScript [ToNumber] on a primitive. *)
Definition to_number (p : prim) : number :=
  match p with
  | PUndef => NaN
  | PNull => zero
  | PBool b => if b then one else zero
  | PNum n => n
  | PStr s => string_to_number s
  end.

Definition parseValue (val : prim) : prim :=
  if bool_decide (val = PStr "") then val
  else if bool_decide (val = PStr "true") then PBool true
  else if bool_decide (val = PStr "false") then PBool false
  else if negb (is_nan (to_number val)) then PNum (to_number val)
  else val.

(** [+v] on an object: [ToPrimitive] calls [toString], which gives
    ["[object Object]"] ([NaN]) for a plain object and the elements
    joined with [","] for an array.  The join of two or more elements
    holds a comma and reads as [NaN]; the empty array reads as [0]; a
    single element reads as its own [ToString]: [""] (hence [0]) for
    [undefined] and [null], the number itself for a number ([-0]
    prints as ["0"]), [NaN] for a boolean. *)
Fixpoint to_number_value (v : value) : number :=
  match v with
  | VPrim p => to_number p
  | VObj KObject _ _ => NaN
  | VObj KArray _ ps =>
      match ps with
      | [] => zero
      | [(_, VPrim (PNum (Finite _ 0 _)))] => zero
      | [(_, VPrim (PUndef | PNull))] => zero
      | [(_, VPrim (PBool _))] => NaN
      | [(_, x)] => to_number_value x
      | _ => NaN
      end
  end.

(** [parseValue] on any value of a source: an object is neither [''],
    ['true'] nor ['false'], so it becomes its [+] when that is a
    number. *)
Definition parseValue_value (val : value) : value :=
  match val with
  | VPrim p => VPrim (parseValue p)
  | VObj _ _ _ =>
      if negb (is_nan (to_number_value val)) then VPrim (PNum (to_number_value val)) else val
  end.

Lemma all_ws_trim s : all_ws s = true -> trim_ws_left s = "".
Proof.
  induction s as [|c r IH]; simpl; [done|].
  rewrite andb_true_iff. intros [-> H]. auto.
Qed.

(** ** Properties *)

(** A string is coerced to a boolean, a number or a string, never to
    [undefined] or [null]: the builder never stores a nullish leaf for
    a string source (environment variables). *)
Lemma parseValue_string_not_nullish s : nullish (parseValue (PStr s)) = false.
Proof.
  unfold parseValue. repeat case_bool_decide; try done.
  destruct (is_nan _); done.
Qed.

Lemma parseValue_string_eq s :
  s <> "" ->
  parseValue (PStr s) =
    if String.eqb s "true" then PBool true
    else if String.eqb s "false" then PBool false
    else match string_to_number s with
         | NaN => PStr s
         | n => PNum n
         end.
Proof.
  intros Hne. unfold parseValue.
  case_bool_decide as H0; [congruence|].
  case_bool_decide as H1; [simplify_eq; done|].
  case_bool_decide as H2; [simplify_eq; done|].
  destruct (String.eqb_spec s "true"); [congruence|].
  destruct (String.eqb_spec s "false"); [congruence|].
  simpl. by destruct (string_to_number s).
Qed.

(** The coercion of a non-empty string is the boolean it spells, else
    the number [StringToNumber] reads, else the string itself. *)
Theorem parseValue_string s :
  s <> "" ->
  parseValue (PStr s) =
    if String.eqb s "true" then PBool true
    else if String.eqb s "false" then PBool false
    else match string_to_number s with
         | NaN => PStr s
         | n => PNum n
         end.
Proof. apply parseValue_string_eq. Qed.

(** C24. A non-empty string of white space only is coerced to the number 0,
    although it is not a numeric literal. *)
Lemma parseValue_whitespace s :
  s <> "" -> all_ws s = true -> parseValue (PStr s) = PNum zero.
Proof.
  intros Hne Hws. rewrite parseValue_string_eq by done.
  unfold string_to_number. rewrite (all_ws_trim s Hws).
  destruct (String.eqb_spec s "true") as [->|]; [done|].
  destruct (String.eqb_spec s "false") as [->|]; done.
Qed.

(** A boolean is not passed through: [+true] is 1 and [+false] is 0, so
    a bare command-line flag ([--verbose], which the flag parser reads as
    [true]) is stored as the number 1. *)
Lemma parseValue_bool b : parseValue (PBool b) = PNum (if b then one else zero).
Proof. by destruct b. Qed.

(** [null] becomes the number 0 and [undefined] stays [undefined]. *)
Lemma parseValue_nullish :
  parseValue PNull = PNum zero /\ parseValue PUndef = PUndef.
Proof. split; reflexivity. Qed.

(** Numbers are passed through unchanged. *)
Lemma parseValue_num n : parseValue (PNum n) = PNum n.
Proof. unfold parseValue; simpl. by destruct n. Qed.

(** Spec section 8: [coerce(stringify(x)) = x] on the spec's values, and
    the empty string is never coerced. *)
Example coerce_roundtrip_samples :
  map parseValue [PStr "true"; PStr "false"; PStr "0"; PStr "-3"; PStr "3.14";
                  PStr "plainstring"; PStr ""] =
  [PBool true; PBool false; PNum zero; PNum (Finite true 3 0); PNum (Finite false 314 (-2));
   PStr "plainstring"; PStr ""].
Proof. vm_compute. reflexivity. Qed.

(** An array of two or more elements passes [parseValue]
    unchanged: the elements joined with [","] hold a comma, so [+] gives
    [NaN]. *)
Theorem parseValue_array_kept fr ps :
  2 <= length ps -> parseValue_value (VObj KArray fr ps) = VObj KArray fr ps.
Proof.
  intros H. destruct ps as [|x [|y ps]]; [simpl in H; lia..|]. destruct x as [k1 v1].
  unfold parseValue_value. simpl. by repeat case_match.
Qed.


Example parseValue_array_samples :
  map parseValue_value
    [VObj KArray false []; VObj KArray false [("0", VPrim (PStr "5"))];
     VObj KArray false [("0", VPrim PNull)]; VObj KObject false [("a", VPrim (PStr "1"))]] =
  [VPrim (PNum zero); VPrim (PNum (Finite false 5 0)); VPrim (PNum zero);
   VObj KObject false [("a", VPrim (PStr "1"))]].
Proof. vm_compute. reflexivity. Qed.

Lemma parseValue_whitespace_witness : parseValue (PStr " 	 ") = PNum zero.
Proof. apply parseValue_whitespace; [discriminate|reflexivity]. Defined.

Lemma parseValue_string_witness :
  parseValue (PStr "8080") = PNum (Finite false 808 1) /\ parseValue (PStr "yes") = PStr "yes".
Proof.
  split; (rewrite parseValue_string; [vm_compute; reflexivity|discriminate]).
Defined.

Lemma parseValue_array_kept_witness :
  parseValue_value (VObj KArray false [("0", VPrim (PStr "a")); ("1", VPrim (PStr "b"))]) =
  VObj KArray false [("0", VPrim (PStr "a")); ("1", VPrim (PStr "b"))].
Proof. apply parseValue_array_kept. simpl. lia. Defined.
