(* ===== verification/Normalizer.v ===== *)
(** * Normalizer: from a source key to its path segments

    [loadFromObject] ([src/index.js] lines 36-48) lower-cases each key,
    collapses every run of [_] and [.] into one [_], strips a leading
    [--] and [_] and one trailing [_]; when the [prefix] option is set it
    keeps only the keys whose normalised form (or the raw key, when the
    normalised form is empty) starts with the prefix and removes the
    prefix; the rest is split at [_] into the segments of the path.  A
    reference normalisation by words ([normal_ref]) is shown equal to
    the three rewrites. *)

From S2P Require Import Prelude JsString.
From Stdlib Require Import Ascii.

(** The options every entry point recognises ([default_options], lines
    16-21).  [prefix] and [dir] are strings or [null]; a prefix is used
    only when it is truthy, i.e. a non-empty string. *)
Record options := mk_options {
  opt_freeze : bool;
  opt_prefix : option string;
  opt_dirs : option (list string);
  opt_dir : option string
}.

Definition default_options : options := mk_options true None None None.

(** Lines 36-39. *)
Definition normalize_field (key : string) : string :=
  trim_trailing (trim_leading (collapse_seps (to_lower key))).

(** Lines 41-46: [None] when the key is skipped ([continue]). *)
Definition prefix_filter (prefix : option string) (key field : string) : option string :=
  match prefix with
  | Some p =>
      if String.eqb p "" then Some field
      else if starts_with p (if String.eqb field "" then key else field)
      then Some (replace_first p field)
      else None
  | None => Some field
  end.

(** Lines 36-48: the segments of the path of [key], or [None] when the
    prefix filter drops it. *)
Definition key_parts (prefix : option string) (key : string) : option (list string) :=
  field ← prefix_filter prefix key (normalize_field key);
  Some (split_on underscore field).

(** ** A reference normalisation

    Spec section 4.1 describes the normaliser as a chain of rewrites.
    Read as a whole, it extracts the words of the lower-cased key (the
    maximal runs of characters other than [_] and [.]) after an optional
    leading [--], and joins them with [_]. *)

Fixpoint map_chars (f : ascii -> ascii) (s : string) : string :=
  match s with
  | EmptyString => EmptyString
  | String c r => String (f c) (map_chars f r)
  end.

Definition sep_to_underscore (c : ascii) : ascii := if is_sep c then underscore else c.

Definition words (s : string) : list string :=
  List.filter (fun w => negb (String.eqb w "")) (split_on underscore (map_chars sep_to_underscore s)).

Definition drop_dashes (s : string) : string :=
  if String.prefix "--" s then str_drop 2 s else s.

Definition normal_ref (key : string) : string :=
  join_with underscore (words (drop_dashes (to_lower key))).

(** *** The reference, one character at a time *)

Definition nonempty_words (l : list string) : list string :=
  List.filter (fun w => negb (String.eqb w "")) l.

(** [p] joined to the words [ws] that follow it. *)
Definition join_nf (p : string) (ws : list string) : string :=
  match ws with
  | [] => p
  | _ => p +:+ String underscore (join_with underscore ws)
  end.

(** The words of [v] after its first piece, which is kept even when
    empty: what follows a character that is not a separator. *)
Definition tail_form (v : string) : string :=
  match split_on underscore v with
  | p :: ps => join_nf p (nonempty_words ps)
  | [] => ""
  end.

Lemma join_with_nf p ws : join_with underscore (p :: ws) = join_nf p ws.
Proof. by destruct ws. Qed.

Lemma join_nf_cons c p ws : join_nf (String c p) ws = String c (join_nf p ws).
Proof. by destruct ws. Qed.

Lemma nonempty_words_head l : forall w ws, nonempty_words l = w :: ws -> w <> "".
Proof.
  induction l as [|x l IH]; [done|]. intros w ws. cbn [nonempty_words List.filter].
  destruct (String.eqb_spec x "") as [_|Hx]; cbn [negb]; [apply IH|]. by intros [= <- _].
Qed.

Lemma split_on_other c v :
  Ascii.eqb c underscore = false ->
  split_on underscore (String c v) =
  match split_on underscore v with p :: ps => String c p :: ps | [] => [String c ""] end.
Proof. intros H. cbn [split_on]. by rewrite H. Qed.

Lemma words_other c v :
  Ascii.eqb c underscore = false ->
  join_with underscore (nonempty_words (split_on underscore (String c v))) = String c (tail_form v).
Proof.
  intros H. rewrite split_on_other by done. unfold tail_form.
  pose proof (split_on_nonempty underscore v) as Hne.
  destruct (split_on underscore v) as [|p ps]; [done|].
  change (nonempty_words (String c p :: ps)) with (String c p :: nonempty_words ps).
  by rewrite join_with_nf, join_nf_cons.
Qed.

Lemma tail_form_other c v :
  Ascii.eqb c underscore = false -> tail_form (String c v) = String c (tail_form v).
Proof.
  intros H. unfold tail_form at 1. rewrite split_on_other by done. unfold tail_form.
  pose proof (split_on_nonempty underscore v) as Hne.
  destruct (split_on underscore v) as [|p ps]; [done|]. apply join_nf_cons.
Qed.

Lemma join_nf_empty l :
  (forall w ws, l = w :: ws -> w <> "") ->
  join_nf "" l = if String.eqb (join_with underscore l) "" then "" else String underscore (join_with underscore l).
Proof.
  destruct l as [|w ws]; [done|]. intros H. specialize (H w ws eq_refl).
  destruct w as [|a w]; [done|].
  change (join_nf "" (String a w :: ws)) with (String underscore (join_with underscore (String a w :: ws))).
  rewrite join_with_nf, join_nf_cons. reflexivity.
Qed.

Lemma tail_form_sep v :
  tail_form (String underscore v) =
  let n := join_with underscore (nonempty_words (split_on underscore v)) in
  if String.eqb n "" then "" else String underscore n.
Proof.
  unfold tail_form. change (split_on underscore (String underscore v))
    with ("" :: split_on underscore v).
  change (nonempty_words ("" :: ?l)) with (nonempty_words l). cbn zeta.
  apply join_nf_empty. apply nonempty_words_head.
Qed.

Lemma trim_trailing_other c s :
  Ascii.eqb c underscore = false -> trim_trailing (String c s) = String c (trim_trailing s).
Proof. intros H. destruct s; cbn [trim_trailing]; [by rewrite H|done]. Qed.

Lemma trim_trailing_sep s :
  trim_trailing (String underscore s) = if String.eqb s "" then "" else String underscore (trim_trailing s).
Proof. by destruct s. Qed.

Lemma sep_underscore c : is_sep c = false -> Ascii.eqb c underscore = false.
Proof. unfold is_sep. rewrite orb_false_iff. tauto. Qed.

Lemma collapse_true_head r c s : collapse_from true r = String c s -> Ascii.eqb c underscore = false.
Proof.
  induction r as [|d r IH]; cbn [collapse_from]; [done|].
  destruct (is_sep d) eqn:Hd; [exact IH|]. intros [= <- _]. by apply sep_underscore.
Qed.

(** The collapsed string, with or without its leading separator, and
    with one trailing [_] removed, against the reference. *)
Lemma collapse_words u :
  trim_trailing (collapse_from true u) =
    join_with underscore (nonempty_words (split_on underscore (map_chars sep_to_underscore u))) /\
  trim_trailing (collapse_from false u) = tail_form (map_chars sep_to_underscore u).
Proof.
  induction u as [|c r [IHt IHf]]; [done|]. cbn [collapse_from map_chars].
  destruct (is_sep c) eqn:Hc.
  - assert (Hs : sep_to_underscore c = underscore) by (unfold sep_to_underscore; by rewrite Hc).
    rewrite Hs. split; [exact IHt|]. rewrite trim_trailing_sep, tail_form_sep. cbn zeta. rewrite <- IHt.
    destruct (collapse_from true r) as [|d t] eqn:E; [done|].
    pose proof (collapse_true_head _ _ _ E) as Hd. rewrite trim_trailing_other by done. done.
  - assert (Hs : sep_to_underscore c = c) by (unfold sep_to_underscore; by rewrite Hc).
    rewrite Hs. apply sep_underscore in Hc.
    rewrite trim_trailing_other, words_other, tail_form_other, IHf by done. done.
Qed.

Lemma prefix_cons a p c x :
  String.prefix (String a p) (String c x) = if Ascii.eqb a c then String.prefix p x else false.
Proof.
  cbn. destruct (ascii_dec a c) as [->|Hn]; [by rewrite Ascii.eqb_refl|].
  apply Ascii.eqb_neq in Hn. by rewrite Hn.
Qed.

Lemma prefix_empty x : String.prefix "" x = true.
Proof. by destruct x. Qed.

(** A leading [--] survives the collapse, and nothing else makes one. *)
Lemma collapse_dashes t :
  (if String.prefix "--" (collapse_from false t) then str_drop 2 (collapse_from false t)
   else collapse_from false t) =
  collapse_from false (drop_dashes t).
Proof.
  unfold drop_dashes. cbn zeta.
  assert (Hhead : forall c r, Ascii.eqb "-"%char c = false ->
            exists d y, collapse_from false (String c r) = String d y /\ Ascii.eqb "-"%char d = false).
  { intros c r H. cbn [collapse_from]. destruct (is_sep c); do 2 eexists; split; done. }
  destruct t as [|c1 t]; [done|].
  destruct (Ascii.eqb "-"%char c1) eqn:E1.
  - apply Ascii.eqb_eq in E1 as <-. destruct t as [|c2 u]; [done|].
    destruct (Ascii.eqb "-"%char c2) eqn:E2.
    + apply Ascii.eqb_eq in E2 as <-.
      change (collapse_from false (String "-" (String "-" u)))
        with (String "-"%char (String "-"%char (collapse_from false u))).
      rewrite !prefix_cons, !Ascii.eqb_refl, !prefix_empty. reflexivity.
    + change (collapse_from false (String "-" (String c2 u)))
        with (String "-"%char (collapse_from false (String c2 u))).
      destruct (Hhead c2 u E2) as (d & y & Hy & Hd).
      rewrite Hy, !prefix_cons, Ascii.eqb_refl, Hd, E2. cbn iota.
      change (collapse_from false (String "-" (String c2 u)))
        with (String "-"%char (collapse_from false (String c2 u))). by rewrite Hy.
  - destruct (Hhead c1 t E1) as (d & y & Hy & Hd).
    rewrite Hy, !prefix_cons, Hd, E1. cbn iota. by rewrite Hy.
Qed.

Lemma strip_underscore u :
  (if String.prefix "_" (collapse_from false u) then str_drop 1 (collapse_from false u)
   else collapse_from false u) =
  collapse_from true u.
Proof.
  destruct u as [|c r]; [done|]. cbn zeta. cbn [collapse_from]. destruct (is_sep c) eqn:Hc.
  - unfold underscore. rewrite prefix_cons, prefix_empty. done.
  - apply sep_underscore in Hc. unfold underscore in Hc. rewrite prefix_cons, Ascii.eqb_sym, Hc. done.
Qed.

(** ** Properties *)

Lemma replace_first_empty p : p <> "" -> replace_first p "" = "".
Proof. destruct p; [done|]. reflexivity. Qed.

(** C25. The prefix option removes exactly the leading occurrence of the
    prefix: a key is kept only when its normalised form starts with the
    prefix (then the rest is what remains), or when the normalised form
    is empty (then nothing is removed). *)
Theorem prefix_filter_anchored p key field' :
  p <> "" -> prefix_filter (Some p) key (normalize_field key) = Some field' ->
  (normalize_field key = "" /\ field' = "") \/ normalize_field key = p +:+ field'.
Proof.
  intros Hp. unfold prefix_filter. apply String.eqb_neq in Hp as Hp'. rewrite Hp'.
  destruct (String.eqb_spec (normalize_field key) "") as [He|Hne].
  - rewrite He. destruct (starts_with p key); [|done]. intros [= <-]. left.
    split; [done|]. apply replace_first_empty. by apply String.eqb_neq.
  - destruct (starts_with p (normalize_field key)) eqn:Hs; [|done]. intros [= <-]. right.
    rewrite replace_first_prefix by done. symmetry. by apply str_drop_prefix.
Qed.

(** A normalised key has no run of separators and no trailing one. *)
Lemma normalize_field_good key :
  no_double (normalize_field key) = true /\ ends_sep (normalize_field key) = false.
Proof.
  unfold normalize_field. destruct (trim_leading_drop (collapse_seps (to_lower key))) as [k ->].
  apply trim_trailing_ok, no_double_drop, collapse_from_no_double.
Qed.

Lemma prefix_filter_good prefix key field r :
  no_double field = true -> ends_sep field = false -> prefix_filter prefix key field = Some r ->
  no_double r = true /\ ends_sep r = false.
Proof.
  unfold prefix_filter. intros Hnd Hend.
  destruct prefix as [p|]; [|by intros [= <-]].
  destruct (String.eqb_spec p "") as [_|Hp]; [by intros [= <-]|].
  destruct (String.eqb_spec field "") as [->|Hne].
  - destruct (starts_with p key); [|done]. rewrite replace_first_empty by done. by intros [= <-].
  - destruct (starts_with p field) eqn:Hs; [|done]. intros [= <-].
    rewrite replace_first_prefix by done. split; [by apply no_double_drop|by apply ends_sep_drop].
Qed.

(** C6. The three rewrites of lines 36-39 extract the words of the key:
    the normalised key is the maximal runs of characters other than [_]
    and [.] of the lower-cased key (after a leading [--], if any),
    joined by [_]. *)
Theorem normalize_field_words key : normalize_field key = normal_ref key.
Proof.
  unfold normalize_field, normal_ref, collapse_seps, trim_leading, words.
  rewrite collapse_dashes, strip_underscore. apply collapse_words.
Qed.

(** C26. Spec section 4.1 says empty segments from the split are skipped
    except a final one.  Every segment of a key's path but the first is
    non-empty: only a removed prefix (the rest of [my_app_x] after
    [my_app] is [_x]) leaves an empty segment, the first one, which the
    loop skips ([continue], line 59). *)
Theorem key_parts_segments prefix key parts :
  key_parts prefix key = Some parts -> Forall (fun s => s <> "") (tl parts).
Proof.
  unfold key_parts. destruct (prefix_filter prefix key (normalize_field key)) as [r|] eqn:E;
    [|done]. cbn. intros [= <-].
  destruct (normalize_field_good key) as [Hnd Hend].
  destruct (prefix_filter_good _ _ _ _ Hnd Hend E) as [Hnd' Hend'].
  by apply split_tail_nonempty.
Qed.

(** *** Lower-case strings *)

Lemma to_lower_char_idem c : to_lower_char (to_lower_char c) = to_lower_char c.
Proof. destruct c as [[] [] [] [] [] [] [] []]; reflexivity. Qed.

Lemma to_lower_idem s : to_lower (to_lower s) = to_lower s.
Proof. induction s as [|c s IH]; [done|]. simpl. by rewrite to_lower_char_idem, IH. Qed.

Lemma lower_collapse b s : to_lower s = s -> to_lower (collapse_from b s) = collapse_from b s.
Proof.
  revert b. induction s as [|c s IH]; intros b; [done|]. simpl. intros [= Hc Hs].
  destruct (is_sep c), b; simpl; rewrite ?IH, ?Hc; done.
Qed.

Lemma lower_str_drop n s : to_lower s = s -> to_lower (str_drop n s) = str_drop n s.
Proof.
  revert s. induction n as [|n IH]; intros [|c s]; simpl; try done. intros [= _ Hs]. by apply IH.
Qed.

Lemma lower_trim_trailing s : to_lower s = s -> to_lower (trim_trailing s) = trim_trailing s.
Proof.
  induction s as [|c [|d t] IH]; [done| |].
  - intros H. cbn [trim_trailing]. by destruct (Ascii.eqb c underscore).
  - intros H. change (trim_trailing (String c (String d t))) with (String c (trim_trailing (String d t))).
    cbn [to_lower] in H |- *. injection H as Hc Hd Ht. rewrite Hc. f_equal.
    apply IH. cbn [to_lower]. congruence.
Qed.

(** The normalised key is lower-case. *)
Lemma normalize_field_lower key : to_lower (normalize_field key) = normalize_field key.
Proof.
  unfold normalize_field. apply lower_trim_trailing.
  destruct (trim_leading_drop (collapse_seps (to_lower key))) as [k ->].
  apply lower_str_drop, lower_collapse, to_lower_idem.
Qed.

(** A prefix of a lower-case string is lower-case. *)
Lemma prefix_lower p s : String.prefix p s = true -> to_lower s = s -> to_lower p = p.
Proof.
  revert s. induction p as [|a p IH]; intros [|c s]; try done.
  rewrite prefix_cons. destruct (Ascii.eqb_spec a c) as [<-|]; [|done].
  simpl. intros Hp [= Ha Hs]. by rewrite Ha, (IH s).
Qed.

(** C21. The prefix is compared with the normalised key, which is
    lower-case: a prefix with an upper-case letter, written like the
    environment variables it should select ([MY_APP]), drops every key
    whose normalised form is not empty. *)
Theorem prefix_with_upper_drops p key :
  to_lower p <> p -> normalize_field key <> "" -> key_parts (Some p) key = None.
Proof.
  intros Hp Hf. unfold key_parts, prefix_filter.
  destruct (String.eqb_spec p "") as [->|_]; [done|].
  destruct (String.eqb_spec (normalize_field key) "") as [|_]; [done|].
  destruct (starts_with p (normalize_field key)) eqn:Hs; [|done].
  exfalso. apply Hp. eapply prefix_lower; [exact Hs|apply normalize_field_lower].
Qed.

(** The prefix written in lower case selects the keys. *)
Example prefix_after_normalisation :
  key_parts (Some "MY_APP") "MY_APP_DOMAIN" = None /\
  key_parts (Some "my_app") "MY_APP_DOMAIN" = Some [""; "domain"].
Proof. split; reflexivity. Qed.

Example key_parts_samples :
  key_parts None "--Cookie.Secret_" = Some ["cookie"; "secret"] /\
  key_parts None "NPM_CONFIG__CACHE" = Some ["npm"; "config"; "cache"] /\
  key_parts None "_" = Some [""].
Proof. repeat split; reflexivity. Qed.

Lemma prefix_filter_anchored_witness :
  (normalize_field "MY_APP_DOMAIN" = "" /\ "_domain" = "") \/
  normalize_field "MY_APP_DOMAIN" = "my_app" +:+ "_domain".
Proof. apply (prefix_filter_anchored "my_app" "MY_APP_DOMAIN"); [discriminate|reflexivity]. Defined.

Lemma prefix_with_upper_drops_witness :
  key_parts (Some "MY_APP") "MY_APP_DOMAIN" = None.
Proof. apply prefix_with_upper_drops; vm_compute; discriminate. Defined.

Lemma key_parts_segments_witness :
  Forall (fun s => s <> "") (tl [""; "x"; "y"]).
Proof. apply (key_parts_segments (Some "my_app") "MY_APP_X__Y"). reflexivity. Defined.
