(* ===== verification/PathBuilder.v ===== *)
(** * PathBuilder: the insertion loop of [loadFromObject]

    [loadFromObject] ([src/index.js] lines 23-110) builds a tree from a
    flat object.  For each key it walks the segments with three
    variables: [level] (the node reached), [prevl] (the object [level]
    was read from) and [prevp] (the key it was read under), creating
    empty objects for missing segments and wrapping a leaf that is in the
    way into [{ _: leaf }].  Every object it creates is pushed on [refs]
    and frozen at the end when [freeze] is set.

    The objects the loop handles form a tree whose objects never move,
    so the model names an object by its path from [result]: [w_level],
    [w_prevl] are paths, a write [o[k] = x] is an [update_path] at the
    path of [o], and [refs] is a list of paths.  A source value that is
    an object is stored as a copy; the theorems are about sources of
    primitives ([prim_source]).

    Module [Walk] is the loop as written; [Spec] is the recursive
    insertion of the spec (section 4.3) and the flat map a tree denotes;
    the theorems show the loop computes the insertion and the insertion
    is a map update. *)

From S2P Require Import Prelude JsString JsNumber JsValue Coercer Normalizer.

Module Walk.

Record walk := mk_walk {
  w_result : value;
  w_level : path;
  w_prevl : path;
  w_prevp : string;
  w_refs : list path
}.

(** [{ _: level }] *)
Definition wrap_of (old : prim) : value := VObj KObject false [("_", VPrim old)].

(** Lines 61-77: the last segment. *)
Definition final_step (part : string) (val : value) (w : walk) : res walk :=
  let '(mk_walk result level prevl prevp refs) := w in
  match get_path result level with
  | Some (VObj k fr ps as o) =>
      if negb (has_prop k ps part) then
        r ← update_path result level (fun n => put_prop n part val);
        Ok (mk_walk r level prevl prevp refs)
      else
        c ← get_prop o part;
        if is_object c then
          r ← update_path result (level ++ [part]) (fun n => put_prop n "_" val);
          Ok (mk_walk r level prevl prevp refs)
        else
          r ← update_path result level (fun n => put_prop n part val);
          Ok (mk_walk r level prevl prevp refs)
  | Some (VPrim p) =>
      if nullish p then Ok w
      else
        wrap ← put_prop (wrap_of p) part val;
        r ← update_path result prevl (fun n => put_prop n prevp wrap);
        Ok (mk_walk r level prevl prevp (refs ++ [prevl ++ [prevp]]))
  | None => Err Stuck
  end.

(** Line 101: [level = level[part]], on a node of the tree. *)
Definition descend (result : value) (level : path) (part : string) : res path :=
  match get_path result level with
  | Some (VObj k _ ps) =>
      match assoc part ps with
      | Some _ => Ok (level ++ [part])
      | None => if inherited k part then Err (Proto part) else Err Stuck
      end
  | Some (VPrim p) => if nullish p then Err TypeError else Err Stuck
  | None => Err Stuck
  end.

(** Lines 79-101: a segment that is not the last. *)
Definition nonfinal_step (part : string) (w : walk) : res walk :=
  let '(mk_walk result level prevl prevp refs) := w in
  w1 ← match get_path result level with
       | Some (VObj k fr ps) =>
           if has_prop k ps part then Ok w
           else
             r ← update_path result level (fun n => put_prop n part empty_object);
             Ok (mk_walk r level prevl prevp (refs ++ [level ++ [part]]))
       | Some (VPrim p) =>
           if nullish p then Ok w
           else
             r ← update_path result prevl (fun n => put_prop n prevp (wrap_of p));
             r' ← update_path r (prevl ++ [prevp]) (fun n => put_prop n part empty_object);
             Ok (mk_walk r' (prevl ++ [prevp]) prevl prevp
                   (refs ++ [prevl ++ [prevp] ++ [part]; prevl ++ [prevp]]))
       | None => Err Stuck
       end;
  level' ← descend (w_result w1) (w_level w1) part;
  Ok (mk_walk (w_result w1) level' (w_level w1) part (w_refs w1)).

(** Lines 55-102: the loop over the segments. *)
Fixpoint walk_parts (parts : list string) (val : value) (w : walk) : res walk :=
  match parts with
  | [] => Ok w
  | part :: rest =>
      let last := match rest with [] => true | _ => false end in
      if String.eqb part "" && negb last then walk_parts rest val w
      else if last then final_step part val w
      else w' ← nonfinal_step part w; walk_parts rest val w'
  end.

(** Lines 33-53 for one own property [key] of the source. *)
Definition load_key (prefix : option string) (st : value * list path)
    (entry : string * value) : res (value * list path) :=
  let '(key, raw) := entry in
  match key_parts prefix key with
  | None => Ok st
  | Some parts =>
      let w0 := mk_walk st.1 [] [] (default "" (head parts)) st.2 in
      w ← walk_parts parts (parseValue_value raw) w0;
      Ok (w_result w, w_refs w)
  end.

Fixpoint load_keys (prefix : option string) (st : value * list path)
    (entries : list (string * value)) : res (value * list path) :=
  match entries with
  | [] => Ok st
  | e :: es => st' ← load_key prefix st e; load_keys prefix st' es
  end.

(** A source whose values are primitives (the environment's strings,
    the flags' strings, numbers and booleans). *)
Definition prim_source (entries : list (string * prim)) : list (string * value) :=
  map (fun kv => (kv.1, VPrim kv.2)) entries.

(** [Object.freeze] on one object. *)
Definition freeze_node (v : value) : res value :=
  match v with
  | VObj k _ ps => Ok (VObj k true ps)
  | VPrim _ => Ok v
  end.

(** Lines 106-107: freeze every object of [refs], in order. *)
Fixpoint freeze_refs (result : value) (refs : list path) : res value :=
  match refs with
  | [] => Ok result
  | p :: ps => r ← update_path result p freeze_node; freeze_refs r ps
  end.

(** [loadFromObject(obj, options)]: [entries] are the own enumerable
    properties of [obj] in enumeration order.  The test
    [obj.hasOwnProperty(key)] of line 34 throws at the first key when
    [obj] owns a [hasOwnProperty] ([owns_hop]). *)
Definition loadFromObject (entries : list (string * value)) (opts : options) : res value :=
  if owns_hop entries then Err TypeError else
  st ← load_keys (opt_prefix opts) (empty_object, [[]]) entries;
  if opt_freeze opts then freeze_refs st.1 st.2 else Ok st.1.

End Walk.

Module Spec.

(** The segments the loop acts on: an empty segment that is not the
    last is skipped ([continue], line 59). *)
Fixpoint eff (parts : list string) : list string :=
  match parts with
  | [] => []
  | part :: rest =>
      match rest with
      | [] => [part]
      | _ => if String.eqb part "" then eff rest else part :: eff rest
      end
  end.

(** The node [node] after one insertion of [v] along [segs], as the
    spec (section 4.3) describes it: a missing segment becomes an empty
    object, a leaf in the way becomes [{ _: leaf, seg: ... }], and a
    value for a path that already holds an object goes to its ["_"]. *)
Fixpoint ins (node : value) (segs : list string) (v : value) : value :=
  match segs with
  | [] => node
  | [k] =>
      match node with
      | VObj kd fr ps =>
          match assoc k ps with
          | Some (VObj ck cfr cps) =>
              VObj kd fr (assoc_set k (VObj ck cfr (assoc_set "_" v cps)) ps)
          | _ => VObj kd fr (assoc_set k v ps)
          end
      | VPrim p => VObj KObject false (assoc_set k v [("_", VPrim p)])
      end
  | k :: rest =>
      match node with
      | VObj kd fr ps =>
          VObj kd fr (assoc_set k (ins (default empty_object (assoc k ps)) rest v) ps)
      | VPrim p =>
          VObj KObject false (assoc_set k (ins empty_object rest v) [("_", VPrim p)])
      end
  end.

(** The value a tree gives to a flat path: the leaf at the path, or the
    ["_"] of the object at the path. *)
Definition get_entry (t : value) (q : path) : option prim :=
  match get_path t q with
  | Some (VObj _ _ ps) =>
      match assoc "_" ps with
      | Some (VPrim p) => Some p
      | _ => None
      end
  | Some (VPrim p) => Some p
  | None => None
  end.

End Spec.

(** ** The loop computes the insertion *)

Module Refinement.
Import Walk Spec.

(** The shape of every node the loop builds: plain, unfrozen objects
    and leaves that are not [undefined] or [null]. *)
Definition good_node (n : value) : bool :=
  match n with
  | VObj k fr _ => bool_decide (k = KObject) && negb fr
  | VPrim p => negb (nullish p)
  end.

Definition builder_inv (t : value) : bool := all_nodes good_node t.

Lemma good_node_local : local_pred good_node.
Proof. done. Qed.

Lemma special_write_inherited key :
  special_write KObject key = true -> inherited KObject key = true.
Proof.
  unfold special_write, inherited. rewrite orb_false_r.
  intros ->%String.eqb_eq. reflexivity.
Qed.

Lemma put_prop_plain ps key x :
  inherited KObject key = false ->
  put_prop (VObj KObject false ps) key x = Ok (VObj KObject false (assoc_set key x ps)).
Proof.
  intros H. simpl. destruct (special_write KObject key) eqn:E; [|done].
  apply special_write_inherited in E. congruence.
Qed.

Lemma inv_obj t p k fr ps :
  builder_inv t = true -> get_path t p = Some (VObj k fr ps) -> k = KObject /\ fr = false.
Proof.
  intros Ht Hp. pose proof (all_nodes_root _ _ (all_nodes_get_path _ _ _ _ Ht Hp)) as H.
  simpl in H. apply andb_true_iff in H as [H1 H2]. apply bool_decide_eq_true in H1.
  by destruct fr.
Qed.

Lemma inv_prim t p x : builder_inv t = true -> get_path t p = Some (VPrim x) -> nullish x = false.
Proof.
  intros Ht Hp. pose proof (all_nodes_root _ _ (all_nodes_get_path _ _ _ _ Ht Hp)) as H.
  simpl in H. by destruct (nullish x).
Qed.

Lemma inv_replace t p n :
  builder_inv t = true -> builder_inv n = true -> builder_inv (replace_at t p n) = true.
Proof. apply all_nodes_replace_at, good_node_local. Qed.

Lemma get_path_snoc t p key n :
  get_path t (p ++ [key]) = Some n ->
  exists k fr ps, get_path t p = Some (VObj k fr ps) /\ assoc key ps = Some n.
Proof.
  rewrite get_path_app. destruct (get_path t p) as [[|k fr ps]|]; simpl; try done.
  destruct (assoc key ps) eqn:E; [|done]. intros [= ->]. eauto.
Qed.

Lemma get_path_child t p k fr ps key c :
  get_path t p = Some (VObj k fr ps) -> assoc key ps = Some c -> get_path t (p ++ [key]) = Some c.
Proof. rewrite get_path_app. intros -> Hc. simpl. by rewrite Hc. Qed.

#[local] Hint Resolve inv_replace good_node_local : c11n.
(** The invariant of a cursor: [level] names a node, and a leaf is
    reached through the key [prevp] of the object at [prevl]. *)
Definition cursor_ok (r : value) (l pl : path) (pp : string) (node : value) : Prop :=
  get_path r l = Some node /\
  (is_object node = false -> l = pl ++ [pp] /\ inherited KObject pp = false).

(** A write of a fresh key into a plain unfrozen object of the tree. *)
Ltac write_at H :=
  erewrite (update_path_ok _ _ _ _ _ H); [|apply put_prop_plain; done];
  cbn [mbind res_mbind res_bind w_result w_level w_prevl w_prevp w_refs].

(** The paths of the objects the last step creates, which the source
    pushes on [refs]: the wrap of a leaf. *)
Definition pushed_final (node : value) (l : path) : list path :=
  if is_object node then [] else [l].

Lemma final_step_ins r l pl pp refs node part val :
  builder_inv r = true -> inherited KObject part = false ->
  cursor_ok r l pl pp node ->
  final_step part val (mk_walk r l pl pp refs) =
    Ok (mk_walk (replace_at r l (ins node [part] val)) l pl pp (refs ++ pushed_final node l)).
Proof.
  intros Hinv Hpart [Hget Hprim]. unfold final_step. rewrite Hget.
  destruct node as [p|k fr ps].
  - destruct (Hprim eq_refl) as [-> Hpp]. rewrite (inv_prim _ _ _ Hinv Hget).
    destruct (get_path_snoc _ _ _ _ Hget) as (k & fr & ps & Hpl & Hc).
    destruct (inv_obj _ _ _ _ _ Hinv Hpl) as [-> ->].
    unfold wrap_of. rewrite put_prop_plain by done. simpl.
    write_at Hpl. do 2 f_equal. symmetry. by eapply replace_at_snoc.
  - destruct (inv_obj _ _ _ _ _ Hinv Hget) as [-> ->].
    unfold pushed_final. cbn [is_object]. rewrite app_nil_r.
    unfold has_prop. destruct (assoc part ps) as [c|] eqn:Ec; simpl.
    + rewrite Ec. simpl. destruct c as [cp|ck cfr cps]; simpl.
      * write_at Hget. by rewrite ?Ec.
      * pose proof (get_path_child _ _ _ _ _ _ _ Hget Ec) as Hc.
        destruct (inv_obj _ _ _ _ _ Hinv Hc) as [-> ->].
        write_at Hc. rewrite ?Ec. do 2 f_equal. by eapply replace_at_snoc.
    + rewrite Hpart. simpl. write_at Hget. by rewrite ?Ec.
Qed.

(** One step down: the object [node] with [n] under [part]. *)
Definition ins_step (node : value) (part : string) (n : value) : value :=
  match node with
  | VObj kd fr ps => VObj kd fr (assoc_set part n ps)
  | VPrim p => VObj KObject false (assoc_set part n [("_", VPrim p)])
  end.

(** The node the loop descends to under [part]. *)
Definition child_of (node : value) (part : string) : value :=
  match node with
  | VObj _ _ ps => default empty_object (assoc part ps)
  | VPrim _ => empty_object
  end.

(** The objects a step that is not the last creates: the missing
    child, or the wrap of a leaf and its new child. *)
Definition pushed_nonfinal (node : value) (l : path) (part : string) : list path :=
  match node with
  | VObj _ _ ps => match assoc part ps with Some _ => [] | None => [l ++ [part]] end
  | VPrim _ => [l ++ [part]; l]
  end.

(** The paths the loop pushes on [refs] for the segments [segs] from
    the node [node] at [l]. *)
Fixpoint pushed (node : value) (l : path) (segs : list string) : list path :=
  match segs with
  | [] => []
  | [part] => pushed_final node l
  | part :: rest => pushed_nonfinal node l part ++ pushed (child_of node part) (l ++ [part]) rest
  end.

Lemma pushed_cons node l part rest :
  rest <> [] ->
  pushed node l (part :: rest) =
  pushed_nonfinal node l part ++ pushed (child_of node part) (l ++ [part]) rest.
Proof. by destruct rest. Qed.

Lemma ins_cons node part rest v :
  rest <> [] -> ins node (part :: rest) v = ins_step node part (ins (child_of node part) rest v).
Proof. destruct rest; [done|]. by destruct node. Qed.

Lemma inv_set ps key c :
  builder_inv (VObj KObject false ps) = true -> builder_inv c = true ->
  builder_inv (VObj KObject false (assoc_set key c ps)) = true.
Proof. intros H1 H2. by apply all_nodes_assoc_set. Qed.

Lemma inv_empty : builder_inv empty_object = true.
Proof. reflexivity. Qed.

Lemma inv_wrap p : nullish p = false -> builder_inv (VObj KObject false [("_", VPrim p)]) = true.
Proof. intros H. unfold builder_inv. simpl. by rewrite H. Qed.

#[local] Hint Resolve inv_set inv_empty inv_wrap : c11n.

Lemma nonfinal_step_ins r l pl pp refs node part :
  builder_inv r = true -> inherited KObject part = false -> cursor_ok r l pl pp node ->
  exists r',
    nonfinal_step part (mk_walk r l pl pp refs) =
      Ok (mk_walk r' (l ++ [part]) l part (refs ++ pushed_nonfinal node l part)) /\
    builder_inv r' = true /\
    cursor_ok r' (l ++ [part]) l part (child_of node part) /\
    forall n, replace_at r' (l ++ [part]) n = replace_at r l (ins_step node part n).
Proof.
  intros Hinv Hpart [Hget Hprim]. unfold nonfinal_step. rewrite Hget.
  destruct node as [p|k fr ps].
  - destruct (Hprim eq_refl) as [-> Hpp]. rewrite (inv_prim _ _ _ Hinv Hget).
    destruct (get_path_snoc _ _ _ _ Hget) as (k & fr & ps & Hpl & Hc).
    destruct (inv_obj _ _ _ _ _ Hinv Hpl) as [-> ->].
    simpl. write_at Hpl.
    rewrite <- (replace_at_snoc _ _ _ _ _ _ _ _ Hpl Hc).
    assert (Hw : get_path (replace_at r (pl ++ [pp]) (wrap_of p)) (pl ++ [pp]) = Some (wrap_of p))
      by (apply get_replace_at; congruence).
    write_at Hw. rewrite replace_at_twice by congruence.
    set (W := VObj KObject false (assoc_set part empty_object [("_", VPrim p)])).
    assert (HW : get_path (replace_at r (pl ++ [pp]) W) (pl ++ [pp]) = Some W)
      by (apply get_replace_at; congruence).
    unfold descend. rewrite HW. unfold W. cbn beta iota. rewrite assoc_set_eq. fold W.
    cbn [mbind res_mbind res_bind w_result w_level w_prevl w_prevp w_refs].
    assert (Hinv' : builder_inv (replace_at r (pl ++ [pp]) W) = true).
    { apply inv_replace; [done|]. apply inv_set; [|done]. apply inv_wrap.
      eapply inv_prim; eauto. }
    eexists. split; [by rewrite <- app_assoc|]. split; [done|]. split.
    + split; [|done]. eapply get_path_child; [exact HW|]. apply assoc_set_eq.
    + intros n. erewrite replace_at_snoc; [|exact HW|apply assoc_set_eq].
      rewrite replace_at_twice by congruence. by rewrite assoc_set_twice.
  - destruct (inv_obj _ _ _ _ _ Hinv Hget) as [-> ->].
    unfold has_prop. destruct (assoc part ps) as [c|] eqn:Ec; simpl.
    + unfold descend. rewrite Hget, Ec. simpl.
      eexists. split; [by rewrite app_nil_r|]. split; [done|]. split.
      * split; [by eapply get_path_child|done].
      * intros n. by erewrite replace_at_snoc.
    + rewrite Hpart. simpl. write_at Hget.
      set (O := VObj KObject false (assoc_set part empty_object ps)).
      assert (HO : get_path (replace_at r l O) l = Some O)
        by (apply get_replace_at; congruence).
      unfold descend. rewrite HO. unfold O. cbn beta iota. rewrite assoc_set_eq. fold O.
      cbn [mbind res_mbind res_bind w_result w_level w_prevl w_prevp w_refs].
      eexists. split; [by rewrite Ec|]. split.
      { apply inv_replace; [done|]. apply inv_set; [|done].
        eapply all_nodes_get_path; eauto. }
      split.
      * split; [|done]. simpl. rewrite Ec. eapply get_path_child; [exact HO|]. apply assoc_set_eq.
      * intros n. erewrite replace_at_snoc; [|exact HO|apply assoc_set_eq].
        rewrite replace_at_twice by congruence. by rewrite assoc_set_twice.
Qed.

Lemma eff_nonempty parts : parts <> [] -> eff parts <> [].
Proof.
  induction parts as [|part [|x xs] IH]; [done|done|].
  intros _. simpl. destruct (String.eqb part ""); [|done]. by apply IH.
Qed.

Lemma walk_parts_single part val w : walk_parts [part] val w = final_step part val w.
Proof. simpl. by destruct (String.eqb part ""). Qed.

Lemma walk_parts_more part x xs val w :
  walk_parts (part :: x :: xs) val w =
  if String.eqb part "" then walk_parts (x :: xs) val w
  else w' ← nonfinal_step part w; walk_parts (x :: xs) val w'.
Proof. cbn [walk_parts]. by destruct (String.eqb part ""). Qed.

Lemma walk_parts_ins_aux parts val r l pl pp refs node :
  builder_inv r = true -> Forall (fun s => inherited KObject s = false) parts ->
  cursor_ok r l pl pp node ->
  exists w, walk_parts parts val (mk_walk r l pl pp refs) = Ok w /\
            w_result w = replace_at r l (ins node (eff parts) val) /\
            w_refs w = refs ++ pushed node l (eff parts).
Proof.
  revert r l pl pp refs node.
  induction parts as [|part rest IH]; intros r l pl pp refs node Hinv Hsegs Hcur.
  - eexists. split; [reflexivity|]. split; [|by rewrite app_nil_r].
    symmetry. apply replace_at_get, Hcur.
  - apply Forall_cons in Hsegs as [Hpart Hrest]. destruct rest as [|x xs].
    + rewrite walk_parts_single. erewrite final_step_ins by done. by eexists.
    + rewrite walk_parts_more.
      destruct (String.eqb_spec part "") as [->|Hne].
      * apply IH; done.
      * destruct (nonfinal_step_ins r l pl pp refs node part) as
          (r' & -> & Hinv' & Hcur' & Hrepl); [done..|].
        rewrite res_bind_ret.
        destruct (IH _ _ _ _ (refs ++ pushed_nonfinal node l part) _ Hinv' Hrest Hcur') as (w & -> & Hw & Hrefs).
        eexists. split; [reflexivity|].
        change (eff (part :: x :: xs)) with
          (if String.eqb part "" then eff (x :: xs) else part :: eff (x :: xs)).
        apply String.eqb_neq in Hne. rewrite Hne.
        pose proof (eff_nonempty (x :: xs) ltac:(done)) as Hne'.
        rewrite ins_cons, pushed_cons, Hw, Hrefs, Hrepl, app_assoc by done. done.
Qed.

(** C2. The loop over the segments (lines 55-102) computes the spec's
    insertion (section 4.3) at the node [level] names: from a tree of
    plain unfrozen objects without nullish leaves, and segments that
    are not properties of [Object.prototype], it never fails and
    leaves [result] with [ins node (eff parts) val] in place of [node],
    for any value [val]: a primitive, or an object or array such as the
    flag parser makes of a repeated flag. *)
Theorem walk_parts_ins parts val r l pl pp refs node :
  builder_inv r = true -> Forall (fun s => inherited KObject s = false) parts ->
  cursor_ok r l pl pp node ->
  exists w, walk_parts parts val (mk_walk r l pl pp refs) = Ok w /\
            w_result w = replace_at r l (ins node (eff parts) val).
Proof. intros. edestruct walk_parts_ins_aux as (w & ? & ? & _); eauto. Qed.

End Refinement.

(** ** The insertion is a map update *)

Module Contract.
Import Walk Spec Refinement.

Lemma inv_obj_shape k fr ps :
  builder_inv (VObj k fr ps) = true -> k = KObject /\ fr = false.
Proof. intros H. by apply (inv_obj _ [] k fr ps H). Qed.

Lemma inv_child k fr ps key c :
  builder_inv (VObj k fr ps) = true -> assoc key ps = Some c -> builder_inv c = true.
Proof. apply all_nodes_assoc. Qed.

Lemma inv_default_child ps key :
  builder_inv (VObj KObject false ps) = true ->
  builder_inv (default empty_object (assoc key ps)) = true.
Proof. intros H. destruct (assoc key ps) eqn:E; [|done]. by eapply inv_child. Qed.

Lemma inv_leaf p : nullish p = false -> builder_inv (VPrim p) = true.
Proof. intros H. unfold builder_inv. simpl. by rewrite H. Qed.

(** The insertion of a value of the invariant's shape keeps the
    invariant. *)
Lemma ins_inv t segs v :
  builder_inv t = true -> builder_inv v = true -> builder_inv (ins t segs v) = true.
Proof.
  intros Ht Hv. revert t Ht.
  induction segs as [|k [|k' rest] IH]; intros t Ht; [done| |].
  - destruct t as [p|kd fr ps]; cbn [ins].
    + apply inv_set; [apply inv_wrap; by apply (inv_prim _ [] _ Ht)|done].
    + destruct (inv_obj_shape _ _ _ Ht) as [-> ->].
      destruct (assoc k ps) as [[cp|ck cfr cps]|] eqn:E; apply inv_set; try done.
      pose proof (inv_child _ _ _ _ _ Ht E) as Hc.
      destruct (inv_obj_shape _ _ _ Hc) as [-> ->]. by apply inv_set.
  - destruct t as [p|kd fr ps]; cbn [ins].
    + apply inv_set; [apply inv_wrap; by apply (inv_prim _ [] _ Ht)|]. by apply IH.
    + destruct (inv_obj_shape _ _ _ Ht) as [-> ->].
      apply inv_set; [done|]. apply IH. by apply inv_default_child.
Qed.

(** The value a tree gives to its own path. *)
Definition self_value (n : value) : option prim :=
  match n with
  | VObj _ _ ps =>
      match assoc "_" ps with
      | Some (VPrim p) => Some p
      | _ => None
      end
  | VPrim p => Some p
  end.

Definition own_child (n : value) (key : string) : option value :=
  match n with
  | VObj _ _ ps => assoc key ps
  | VPrim _ => None
  end.

(** The last segment: [v] becomes the leaf, or the ["_"] of the object
    already there. *)
Definition set_self (c : option value) (v : value) : value :=
  match c with
  | Some (VObj ck cfr cps) => VObj ck cfr (assoc_set "_" v cps)
  | _ => v
  end.

Lemma get_entry_nil t : get_entry t [] = self_value t.
Proof. reflexivity. Qed.

Lemma get_entry_cons t j q :
  get_entry t (j :: q) =
  match own_child t j with Some c => get_entry c q | None => None end.
Proof. unfold get_entry. destruct t as [|k fr ps]; simpl; [done|]. by destruct (assoc j ps). Qed.

Lemma get_entry_empty q : get_entry empty_object q = None.
Proof. by destruct q. Qed.

Lemma ins_single node k v : ins node [k] v = ins_step node k (set_self (own_child node k) v).
Proof. destruct node as [p|kd fr ps]; [done|]. simpl. by destruct (assoc k ps) as [[|]|]. Qed.

Lemma own_child_step node k n j :
  j <> "_" ->
  own_child (ins_step node k n) j =
  if String.eqb j k then Some n else own_child node j.
Proof.
  intros Hj. destruct (String.eqb_spec j k) as [->|Hne];
    destruct node as [p|kd fr ps]; cbn [own_child ins_step]; rewrite ?assoc_set_eq; try done;
    rewrite assoc_set_ne by congruence; [|done].
  rewrite assoc_cons. destruct (String.eqb_spec j "_"); done.
Qed.

Lemma self_value_step node k n : k <> "_" -> self_value (ins_step node k n) = self_value node.
Proof.
  intros Hk. destruct node as [p|kd fr ps]; cbn [self_value ins_step];
    rewrite assoc_set_ne by congruence; [|done].
  by rewrite assoc_cons, String.eqb_refl.
Qed.

Lemma get_entry_set_self c v q :
  Forall (fun s => s <> "_") q ->
  get_entry (set_self c (VPrim v)) q =
  match q with [] => Some v | _ => match c with Some n => get_entry n q | None => None end end.
Proof.
  intros Hq. destruct q as [|j q].
  - destruct c as [[|ck cfr cps]|]; try done. cbn. by rewrite assoc_set_eq.
  - apply Forall_cons in Hq as [Hj _].
    destruct c as [[|ck cfr cps]|]; rewrite ?get_entry_cons; try done.
    cbn [own_child set_self]. by rewrite assoc_set_ne by congruence.
Qed.

(** The contract of the insertion: afterwards the tree gives [v] to
    the inserted path and the same value as before to every other path
    (paths without the reserved segment ["_"]). *)
Lemma ins_get_entry t segs v q :
  segs <> [] -> Forall (fun s => s <> "_") segs -> Forall (fun s => s <> "_") q ->
  get_entry (ins t segs (VPrim v)) q = if decide (q = segs) then Some v else get_entry t q.
Proof.
  revert t q. induction segs as [|k rest IH]; intros t q Hne Hs Hq; [done|].
  apply Forall_cons in Hs as [Hk Hrest].
  assert (Hins : exists X, ins t (k :: rest) (VPrim v) = ins_step t k X /\
    forall q', Forall (fun s => s <> "_") q' ->
      get_entry X q' = if decide (q' = rest) then Some v
                       else match own_child t k with Some c => get_entry c q' | None => None end).
  { destruct rest as [|k' rest'].
    - eexists. split; [apply ins_single|]. intros q' Hq'.
      rewrite get_entry_set_self by done. destruct q'; case_decide; done.
    - eexists. split; [by apply ins_cons|]. intros q' Hq'.
      rewrite IH by done. case_decide; [done|].
      destruct t as [p|kd fr ps]; simpl; [apply get_entry_empty|].
      destruct (assoc k ps); [done|apply get_entry_empty]. }
  destruct Hins as (X & -> & HX).
  destruct q as [|j q].
  - rewrite !get_entry_nil, self_value_step by done. by case_decide.
  - apply Forall_cons in Hq as [Hj Hq]. rewrite !get_entry_cons, own_child_step by done.
    destruct (String.eqb_spec j k) as [->|Hjk].
    + rewrite HX by done. do 2 case_decide; simplify_eq; done.
    + case_decide; simplify_eq; done.
Qed.

(** ** The whole source *)

(** The flat entries the source contributes, in enumeration order: the
    effective segments of each kept key with its coerced value. *)
Fixpoint flat_entries (prefix : option string) (entries : list (string * prim)) :
    list (path * prim) :=
  match entries with
  | [] => []
  | (key, raw) :: es =>
      match key_parts prefix key with
      | Some parts => (eff parts, parseValue raw) :: flat_entries prefix es
      | None => flat_entries prefix es
      end
  end.

(** The tree the spec builds from flat entries. *)
Definition build_tree (es : list (path * prim)) (t : value) : value :=
  fold_left (fun acc e => ins acc e.1 (VPrim e.2)) es t.

(** The flat configuration: a later entry for a path replaces an
    earlier one. *)
Definition flat_map (es : list (path * prim)) (m : gmap path prim) : gmap path prim :=
  fold_left (fun acc e => <[e.1 := e.2]> acc) es m.

(** A key the loop can walk: none of its segments is a property of
    [Object.prototype] (for a normalised key only [constructor] can
    be one). *)
Definition safe_key (prefix : option string) (key : string) : bool :=
  match key_parts prefix key with
  | Some parts => forallb (fun s => negb (inherited KObject s)) parts
  | None => true
  end.

Lemma ins_is_object t segs v : is_object t = true -> is_object (ins t segs v) = true.
Proof.
  destruct segs as [|k [|k' rest]]; [done| |]; destruct t as [|kd fr ps]; simpl; try done.
  by destruct (assoc k ps) as [[|]|].
Qed.

Lemma safe_key_parts prefix key parts :
  safe_key prefix key = true -> key_parts prefix key = Some parts ->
  Forall (fun s => inherited KObject s = false) parts.
Proof.
  unfold safe_key. intros H Hk. rewrite Hk in H.
  apply List.Forall_forall. intros x Hx. apply forallb_forall with (x := x) in H; [|done].
  by destruct (inherited KObject x).
Qed.

(** One key of the source, whatever its value: the loop inserts the
    coerced value along the key's segments. *)
Lemma load_key_ins prefix r refs key raw parts :
  builder_inv r = true -> is_object r = true -> key_parts prefix key = Some parts ->
  Forall (fun s => inherited KObject s = false) parts ->
  load_key prefix (r, refs) (key, raw) =
    Ok (ins r (eff parts) (parseValue_value raw), refs ++ pushed r [] (eff parts)).
Proof.
  intros Hinv Hobj Hk Hsegs. unfold load_key. rewrite Hk.
  destruct (walk_parts_ins_aux parts (parseValue_value raw) r [] [] (default "" (head parts)) refs r)
    as (w & Hw & Hres & Hrefs); [done|done| |].
  - split; [done|]. by rewrite Hobj.
  - cbn [fst snd]. rewrite Hw. cbn [mbind res_mbind res_bind]. by rewrite Hres, Hrefs.
Qed.

(** The paths the loop over all keys pushes on [refs]. *)
Fixpoint pushed_all (es : list (path * prim)) (t : value) : list path :=
  match es with
  | [] => []
  | e :: es' => pushed t [] e.1 ++ pushed_all es' (ins t e.1 (VPrim e.2))
  end.

(** The loop over all keys builds the spec's tree from the flat
    entries. *)
Lemma load_keys_build prefix entries r refs :
  builder_inv r = true -> is_object r = true ->
  Forall (fun e => safe_key prefix e.1 = true /\ nullish (parseValue e.2) = false) entries ->
  load_keys prefix (r, refs) (prim_source entries) =
    Ok (build_tree (flat_entries prefix entries) r,
        refs ++ pushed_all (flat_entries prefix entries) r).
Proof.
  revert r refs. induction entries as [|[key raw] es IH]; intros r refs Hinv Hobj Hes.
  - by rewrite app_nil_r.
  - apply Forall_cons in Hes as [[Hsafe Hval] Hes]. simpl in Hsafe, Hval.
    cbn [load_keys flat_entries prim_source map fst snd].
    destruct (key_parts prefix key) as [parts|] eqn:Hk.
    + rewrite (load_key_ins prefix r refs key (VPrim raw) parts) by (done || by eapply safe_key_parts).
      rewrite res_bind_ret, IH by (by apply ins_inv, inv_leaf || by apply ins_is_object || done).
      cbn [pushed_all fst snd]. by rewrite app_assoc.
    + unfold load_key at 1. rewrite Hk. rewrite res_bind_ret. by apply IH.
Qed.

Definition no_reserved (q : path) : Prop := Forall (fun s => s <> "_") q.

(** The tree built from flat entries gives every path the value of
    the last entry for it. *)
Lemma build_tree_get_entry es t m q :
  Forall (fun e => e.1 <> [] /\ no_reserved e.1) es -> no_reserved q ->
  (forall q', no_reserved q' -> get_entry t q' = m !! q') ->
  get_entry (build_tree es t) q = flat_map es m !! q.
Proof.
  revert t m. induction es as [|[p v] es IH]; intros t m Hes Hq Ht; simpl; [auto|].
  apply Forall_cons in Hes as [[Hp Hpr] Hes]. apply IH; [done|done|].
  intros q' Hq'. rewrite ins_get_entry by done. rewrite lookup_insert.
  simpl. do 2 case_decide; subst; auto; congruence.
Qed.

Lemma eff_In parts x : In x (eff parts) -> In x parts.
Proof.
  induction parts as [|part [|y ys] IH]; simpl; [done|naive_solver|].
  destruct (String.eqb part ""); simpl; naive_solver.
Qed.

(** The segments of a normalised key never are the reserved ["_"]. *)
Lemma key_parts_path prefix key parts :
  key_parts prefix key = Some parts -> eff parts <> [] /\ no_reserved (eff parts).
Proof.
  unfold key_parts. destruct (prefix_filter prefix key (normalize_field key)) as [field|];
    simpl; [|done]. intros [= <-]. split.
  - apply eff_nonempty, split_on_nonempty.
  - apply List.Forall_forall. intros x Hx ->.
    apply eff_In, split_on_no_sep in Hx. discriminate Hx.
Qed.

Lemma flat_entries_paths prefix entries :
  Forall (fun e => e.1 <> [] /\ no_reserved e.1) (flat_entries prefix entries).
Proof.
  induction entries as [|[key raw] es IH]; simpl; [constructor|].
  destruct (key_parts prefix key) eqn:Hk; [|done].
  constructor; [by eapply key_parts_path|done].
Qed.

(** A source that owns no [hasOwnProperty] passes the test of line 34
    for every key. *)
Lemma loadFromObject_keys entries opts :
  owns_hop entries = false ->
  loadFromObject entries opts =
    (st ← load_keys (opt_prefix opts) (empty_object, [[]]) entries;
     if opt_freeze opts then freeze_refs st.1 st.2 else Ok st.1).
Proof. unfold loadFromObject. by intros ->. Qed.

Lemma owns_hop_prim_source entries :
  ~ In "hasOwnProperty" (map fst entries) -> owns_hop (prim_source entries) = false.
Proof.
  intros H. unfold owns_hop. rewrite assoc_notin; [done|].
  unfold prim_source. by rewrite map_map.
Qed.

(** C1. [loadFromObject] without freezing, on a source that owns no
    [hasOwnProperty] (line 34 would throw at its first key): every key
    is walked without an error, and the tree denotes the flat
    configuration of the source, in which the last key (in enumeration
    order) that normalises to a path gives that path its value. *)
Theorem loadFromObject_denotes entries opts :
  opt_freeze opts = false -> ~ In "hasOwnProperty" (map fst entries) ->
  Forall (fun e => safe_key (opt_prefix opts) e.1 = true /\ nullish (parseValue e.2) = false) entries ->
  exists t, loadFromObject (prim_source entries) opts = Ok t /\
    forall q, no_reserved q ->
      get_entry t q = flat_map (flat_entries (opt_prefix opts) entries) ∅ !! q.
Proof.
  intros Hfr Hhop Hes. rewrite loadFromObject_keys by (by apply owns_hop_prim_source).
  rewrite load_keys_build by done.
  rewrite res_bind_ret, Hfr. eexists. split; [reflexivity|]. intros q Hq. cbn [fst].
  apply build_tree_get_entry; [apply flat_entries_paths|done|].
  intros q' _. rewrite lookup_empty. apply get_entry_empty.
Qed.

Lemma build_tree_inv es t :
  builder_inv t = true -> Forall (fun e => nullish e.2 = false) es ->
  builder_inv (build_tree es t) = true.
Proof.
  revert t. induction es as [|[p v] es IH]; intros t Ht Hes; simpl; [done|].
  apply Forall_cons in Hes as [Hv Hes]. apply IH; [by apply ins_inv, inv_leaf|done].
Qed.

Lemma flat_entries_values prefix entries :
  Forall (fun e => nullish (parseValue e.2) = false) entries ->
  Forall (fun e => nullish e.2 = false) (flat_entries prefix entries).
Proof.
  induction entries as [|[key raw] es IH]; simpl; intros H; [constructor|].
  apply Forall_cons in H as [Hv H]. destruct (key_parts prefix key); [|auto].
  constructor; [done|auto].
Qed.

Lemma loadFromObject_build entries opts t :
  opt_freeze opts = false ->
  Forall (fun e => safe_key (opt_prefix opts) e.1 = true /\ nullish (parseValue e.2) = false) entries ->
  loadFromObject (prim_source entries) opts = Ok t ->
  t = build_tree (flat_entries (opt_prefix opts) entries) empty_object.
Proof.
  intros Hfr Hes. unfold loadFromObject. destruct (owns_hop _); [done|].
  rewrite load_keys_build by done. rewrite res_bind_ret, Hfr. by intros [= <-].
Qed.

Lemma get_entry_some_path t p j s x :
  get_entry t (p ++ j :: s) = Some x -> exists k fr ps, get_path t p = Some (VObj k fr ps).
Proof.
  unfold get_entry. rewrite get_path_app.
  destruct (get_path t p) as [[y|k fr ps]|]; simpl; [|eauto|done].
  by destruct s.
Qed.

(** C9. Spec section 8, first property: when the path of one key is a
    strict prefix of the path of another, whichever of the two keys is
    enumerated first, the shorter path holds an object whose reserved
    ["_"] is the shorter key's value, and the longer path holds the
    longer key's value. *)
Theorem prefix_collision opts key1 raw1 key2 raw2 parts1 parts2 j s t :
  opt_freeze opts = false ->
  key_parts (opt_prefix opts) key1 = Some parts1 ->
  key_parts (opt_prefix opts) key2 = Some parts2 ->
  eff parts2 = eff parts1 ++ j :: s ->
  Forall (fun e => safe_key (opt_prefix opts) e.1 = true /\ nullish (parseValue e.2) = false)
    [(key1, raw1); (key2, raw2)] ->
  loadFromObject (prim_source [(key1, raw1); (key2, raw2)]) opts = Ok t \/
  loadFromObject (prim_source [(key2, raw2); (key1, raw1)]) opts = Ok t ->
  (exists ps, get_path t (eff parts1) = Some (VObj KObject false ps) /\
              assoc "_" ps = Some (VPrim (parseValue raw1))) /\
  get_entry t (eff parts2) = Some (parseValue raw2).
Proof.
  intros Hfr Hk1 Hk2 Hp Hes Hrun.
  destruct (key_parts_path _ _ _ Hk1) as [Hne1 Hr1].
  destruct (key_parts_path _ _ _ Hk2) as [Hne2 Hr2].
  assert (Hneq : eff parts1 <> eff parts2).
  { rewrite Hp. intros H. apply (f_equal length) in H. rewrite length_app in H. simpl in H. lia. }
  assert (Hes' : Forall (fun e => safe_key (opt_prefix opts) e.1 = true /\
                                 nullish (parseValue e.2) = false) [(key2, raw2); (key1, raw1)]).
  { inversion Hes as [|? ? He1 Hes1]; inversion Hes1 as [|? ? He2 _].
    constructor; [done|constructor; [done|constructor]]. }
  assert (Hval : get_entry t (eff parts1) = Some (parseValue raw1) /\
                 get_entry t (eff parts2) = Some (parseValue raw2) /\ builder_inv t = true).
  { destruct Hrun as [Hrun|Hrun]; apply loadFromObject_build in Hrun as ->; try done;
      (split; [|split]);
      try (apply build_tree_inv; [done|apply flat_entries_values];
           eapply Forall_impl; [done|]; intros ? []; done);
      (rewrite build_tree_get_entry with (m := ∅);
        [|apply flat_entries_paths|done|intros; rewrite lookup_empty; apply get_entry_empty]);
      cbn [flat_entries flat_map fold_left fst snd]; rewrite Hk1, Hk2;
      cbn [flat_entries flat_map fold_left fst snd];
      rewrite ?lookup_insert_ne by congruence; by rewrite lookup_insert_eq. }
  destruct Hval as (H1 & H2 & Hinv). split; [|done].
  rewrite Hp in H2. destruct (get_entry_some_path _ _ _ _ _ H2) as (k & fr & ps & Hget).
  destruct (inv_obj _ _ _ _ _ Hinv Hget) as [-> ->].
  exists ps. split; [done|]. unfold get_entry in H1. rewrite Hget in H1.
  by destruct (assoc "_" ps) as [[]|]; simplify_eq.
Qed.

End Contract.


(** ** Runs on concrete sources *)

Module Examples.
Import Walk Spec Refinement Contract.

Definition my_app : options := mk_options false (Some "my_app") None None.

Definition env_example : list (string * prim) :=
  [("my_app_domain", PStr "a.com"); ("my_app_redis_auth", PStr "x");
   ("HOME", PStr "/root")].

(** Spec section 8, end-to-end scenario (environment part): the
    prefix keeps and strips [my_app]; [HOME] is dropped. *)
Example env_example_run :
  loadFromObject (prim_source env_example) my_app =
  Ok (VObj KObject false [("domain", VPrim (PStr "a.com"));
                          ("redis", VObj KObject false [("auth", VPrim (PStr "x"))])]).
Proof. vm_compute. reflexivity. Qed.

(** Spec section 8: [a] = "x" then [a_b] = "y" gives [{ a: { _: "x", b: "y" } }]. *)
Example wrap_example :
  loadFromObject (prim_source [("a", PStr "x"); ("a_b", PStr "y")]) (mk_options false None None None) =
  Ok (VObj KObject false
        [("a", VObj KObject false [("_", VPrim (PStr "x")); ("b", VPrim (PStr "y"))])]).
Proof. vm_compute. reflexivity. Qed.

Lemma loadFromObject_denotes_witness :
  exists t, loadFromObject (prim_source env_example) my_app = Ok t /\
    forall q, no_reserved q ->
      get_entry t q = flat_map (flat_entries (opt_prefix my_app) env_example) ∅ !! q.
Proof.
  apply loadFromObject_denotes; [reflexivity|cbn; intuition discriminate|].
  repeat constructor.
Defined.

Lemma prefix_collision_witness :
  (exists ps, get_path (VObj KObject false
        [("a", VObj KObject false [("_", VPrim (PStr "x")); ("b", VPrim (PStr "y"))])])
        ["a"] = Some (VObj KObject false ps) /\ assoc "_" ps = Some (VPrim (parseValue (PStr "x")))) /\
  get_entry (VObj KObject false
        [("a", VObj KObject false [("_", VPrim (PStr "x")); ("b", VPrim (PStr "y"))])])
        ["a"; "b"] = Some (parseValue (PStr "y")).
Proof.
  apply (prefix_collision (mk_options false None None None) "a" (PStr "x") "a_b" (PStr "y")
           ["a"] ["a"; "b"] "b" []); try reflexivity.
  - repeat constructor.
  - left. vm_compute. reflexivity.
Defined.

Lemma walk_parts_ins_witness :
  exists w, walk_parts ["a"; "b"] (VObj KArray false [("0", VPrim (PStr "y")); ("1", VPrim (PStr "z"))])
              (mk_walk (VObj KObject false [("a", VPrim (PStr "x"))]) [] [] "a" [[]]) = Ok w /\
            w_result w = replace_at (VObj KObject false [("a", VPrim (PStr "x"))]) []
                           (ins (VObj KObject false [("a", VPrim (PStr "x"))]) (eff ["a"; "b"])
                              (VObj KArray false [("0", VPrim (PStr "y")); ("1", VPrim (PStr "z"))])).
Proof.
  apply walk_parts_ins.
  - reflexivity.
  - repeat constructor.
  - split; [reflexivity|discriminate].
Defined.

(** A variable whose value is [undefined] followed by a longer key
    through it: the loop reads a property of [undefined] and throws. *)
Example undefined_leaf_throws :
  loadFromObject (prim_source [("a", PUndef); ("a_b_c", PStr "y")]) (mk_options false None None None) = Err TypeError.
Proof. reflexivity. Qed.

End Examples.
