(* ===== verification/Merge.v ===== *)
(** * Merge: [extend], the deep merge of the loader

    [extend(obj, add)] ([src/index.js] lines 292-315) copies every own
    enumerable property of [add] into [obj]: an object value (plain or
    array) is merged into [obj[key]], which is first replaced by a fresh
    empty object of the same kind as the added value when it is not an
    object; any other value overwrites [obj[key]].  [obj] is changed in
    place and returned.  Arrays are objects here too, so two arrays are
    merged index by index and an array merged into a plain object adds
    the keys ["0"], ["1"], ... to it.

    The test [add.hasOwnProperty(key)] (line 294) throws a [TypeError]
    at the first key of an [add] that owns a [hasOwnProperty].

    [extend] is the merger of the orchestrator (lines 207, 219, 221) and
    also merges the caller's options into the defaults (lines 31, 121,
    166, 188). *)

From S2P Require Import Prelude JsString JsNumber JsValue.
From Stdlib Require DecimalNat.

(** [Array.isArray(aval) ? [] : {}] *)
Definition fresh_like (aval : value) : value :=
  match aval with
  | VObj KArray _ _ => empty_array
  | _ => empty_object
  end.

(** [for (key in s)] over a string primitive enumerates its indices, and
    [s[key]] is the one-character string at that index. *)
Fixpoint string_props (i : nat) (s : string) : list (string * value) :=
  match s with
  | EmptyString => []
  | String c r => (index_key i, VPrim (PStr (String c EmptyString))) :: string_props (S i) r
  end.

(** Writes the scalar properties [ps] in order. *)
Fixpoint put_all (o : value) (ps : list (string * value)) : res value :=
  match ps with
  | [] => Ok o
  | (key, x) :: ps' => o' ← put_prop o key x; put_all o' ps'
  end.

(** The loop of lines 293-313 over the properties [ps] of [add], the
    object being [o]; [ext] is the recursive call of line 308. *)
Definition extend_loop (ext : value -> value -> res value) (o : value)
    (ps : list (string * value)) : res value :=
  (fix go (o : value) (ps : list (string * value)) {struct ps} : res value :=
     match ps with
     | [] => Ok o
     | (key, aval) :: ps' =>
         o' ← (if is_object aval then
                 oval ← get_prop o key;
                 r ← ext (if is_object oval then oval else fresh_like aval) aval;
                 put_prop o key r
               else put_prop o key aval);
         go o' ps'
     end) o ps.

(** Lines 292-315.  [add.hasOwnProperty(key)] (line 294) throws at the
    first key of an [add] that owns a [hasOwnProperty] ([owns_hop]),
    before any write. *)
Fixpoint extend (obj add : value) {struct add} : res value :=
  match add with
  | VObj _ _ aps => if owns_hop aps then Err TypeError else extend_loop extend obj aps
  | VPrim (PStr s) => put_all obj (string_props 0 s)
  | VPrim _ => Ok obj
  end.

(** ** The merge contract *)

(** The leaf at path [p], if any. *)
Definition get_leaf (t : value) (p : path) : option prim :=
  match get_path t p with
  | Some (VPrim x) => Some x
  | _ => None
  end.

(** What the added tree decides for path [p]: [Some (Some x)] when it
    has the leaf [x] there, [Some None] when it has an object there or a
    leaf above it (which cuts off the base below), [None] when it does
    not reach [p] and the base decides. *)
Fixpoint add_cut (add : value) (p : path) : option (option prim) :=
  match add, p with
  | VPrim x, [] => Some (Some x)
  | VPrim _, _ :: _ => Some None
  | VObj _ _ _, [] => Some None
  | VObj _ _ aps, k :: p' =>
      match assoc k aps with
      | Some c => add_cut c p'
      | None => None
      end
  end.

(** A key [extend] handles as a plain data property on any object: not
    a property of [Object.prototype] or [Array.prototype]. *)
Definition safe_name (key : string) : bool :=
  negb (mem_names key object_proto_names) && negb (mem_names key array_proto_names).

(** Every object of the added tree has distinct, safe keys (as every
    object [JSON.parse] or [loadFromObject] produces has distinct keys). *)
Definition merge_safe (add : value) : bool :=
  all_nodes (fun n => match n with
                      | VObj _ _ ps => forallb (fun kv => safe_name kv.1) ps
                                       && bool_decide (NoDup (map fst ps))
                      | VPrim _ => true
                      end) add.

(** What [for (key in s)] over a string enumerates, as an object: the
    characters under their indices. *)
Definition string_object (s : string) : value := VObj KObject false (string_props 0 s).

Lemma safe_name_inherited k key :
  safe_name key = true -> inherited k key = false /\ special_write k key = false.
Proof.
  unfold safe_name. rewrite andb_true_iff, !negb_true_iff. intros [H1 H2]. split.
  - unfold inherited. rewrite H1. destruct k; [done|exact H2].
  - unfold special_write.
    destruct (String.eqb_spec key "__proto__") as [->|]; [vm_compute in H1; discriminate|].
    destruct k; [done|]. simpl.
    destruct (String.eqb_spec key "length") as [->|]; [vm_compute in H2; discriminate|done].
Qed.

Lemma extend_obj o k fr ps :
  extend o (VObj k fr ps) = if owns_hop ps then Err TypeError else extend_loop extend o ps.
Proof. reflexivity. Qed.

Lemma extend_loop_cons o key aval ps :
  extend_loop extend o ((key, aval) :: ps) =
  (o' ← (if is_object aval then
           oval ← get_prop o key;
           r ← extend (if is_object oval then oval else fresh_like aval) aval;
           put_prop o key r
         else put_prop o key aval);
   extend_loop extend o' ps).
Proof. reflexivity. Qed.

Lemma safe_name_hop : safe_name "hasOwnProperty" = false.
Proof. reflexivity. Qed.

(** An object whose keys are safe owns no [hasOwnProperty]. *)
Lemma safe_no_hop (ps : list (string * value)) :
  forallb (fun kv => safe_name kv.1) ps = true -> owns_hop ps = false.
Proof.
  unfold owns_hop. induction ps as [|[key x] ps IH]; [done|]. cbn [forallb fst].
  rewrite andb_true_iff, assoc_cons. intros [Hk Hps].
  destruct (String.eqb_spec "hasOwnProperty" key) as [<-|]; [by rewrite safe_name_hop in Hk|auto].
Qed.

Lemma get_leaf_obj_cons k fr ps key p :
  get_leaf (VObj k fr ps) (key :: p) =
  match assoc key ps with Some c => get_leaf c p | None => None end.
Proof. unfold get_leaf. simpl. by destruct (assoc key ps). Qed.

Lemma get_leaf_obj_nil k fr ps : get_leaf (VObj k fr ps) [] = None.
Proof. reflexivity. Qed.

(** [r] is the merge of [add] into [base]: no object of it is frozen, it
    is an object, and every path has the added leaf where the added tree
    reaches it, the base leaf elsewhere. *)
Definition merge_result (base add r : value) : Prop :=
  unfrozen r = true /\ is_object r = true /\
  forall p, get_leaf r p = match add_cut add p with Some o => o | None => get_leaf base p end.

Lemma merge_safe_obj k fr ps :
  merge_safe (VObj k fr ps) = true ->
  forallb (fun kv => safe_name kv.1) ps = true /\ NoDup (map fst ps) /\
  Forall (fun kv => merge_safe kv.2 = true) ps.
Proof.
  unfold merge_safe. rewrite all_nodes_obj. intros [H1 H2].
  apply andb_true_iff in H1 as [H1 H3]. apply bool_decide_eq_true in H3. done.
Qed.

Lemma unfrozen_obj k fr ps : unfrozen (VObj k fr ps) = true -> fr = false.
Proof. intros H. apply all_nodes_root in H. by destruct fr. Qed.

Lemma unfrozen_put k ps key x :
  unfrozen (VObj k false ps) = true -> unfrozen x = true ->
  unfrozen (VObj k false (assoc_set key x ps)) = true.
Proof. intros H1 H2. by apply all_nodes_assoc_set. Qed.

Lemma get_leaf_fresh aval p : get_leaf (fresh_like aval) p = None.
Proof. destruct aval as [|[] ? ?]; by destruct p. Qed.

Section ExtendProps.
(** The merge of each added child, for the recursive calls. *)
Definition merges (c : value) : Prop :=
  forall base, is_object base = true -> unfrozen base = true ->
    merge_safe c = true -> is_object c = true ->
    exists r, extend base c = Ok r /\ merge_result base c r.

(** One property [(key, aval)] of the added object. *)
Lemma extend_step o key aval :
  merges aval -> is_object o = true -> unfrozen o = true ->
  safe_name key = true -> merge_safe aval = true ->
  exists o1,
    (if is_object aval then
       oval ← get_prop o key;
       r ← extend (if is_object oval then oval else fresh_like aval) aval;
       put_prop o key r
     else put_prop o key aval) = Ok o1 /\
    unfrozen o1 = true /\ is_object o1 = true /\
    (forall p, get_leaf o1 (key :: p) =
               match add_cut aval p with Some x => x | None => get_leaf o (key :: p) end) /\
    (forall j p, j <> key -> get_leaf o1 (j :: p) = get_leaf o (j :: p)) /\
    get_leaf o1 [] = None.
Proof.
  intros Hm Ho Hfo Hkey Hsa. destruct o as [|ko fro ops]; [done|].
  pose proof (unfrozen_obj _ _ _ Hfo) as ->.
  destruct (safe_name_inherited ko key Hkey) as [Hinh Hsw].
  assert (Hput : forall x, put_prop (VObj ko false ops) key x = Ok (VObj ko false (assoc_set key x ops)))
    by (intros; simpl; by rewrite Hsw).
  assert (Hother : forall x j p, j <> key ->
            get_leaf (VObj ko false (assoc_set key x ops)) (j :: p) = get_leaf (VObj ko false ops) (j :: p))
    by (intros; rewrite !get_leaf_obj_cons, assoc_set_ne by congruence; done).
  destruct aval as [x|ka fra aps] eqn:Ea; simpl is_object.
  - rewrite Hput. eexists. split; [done|]. split; [apply unfrozen_put; [done|by unfold unfrozen]|].
    split; [done|]. split; [|split; [apply Hother|done]].
    intros p. rewrite get_leaf_obj_cons, assoc_set_eq. by destruct p.
  - set (oval := match assoc key ops with Some c => c | None => VPrim PUndef end).
    assert (Hget : get_prop (VObj ko false ops) key = Ok oval)
      by (unfold get_prop, oval; destruct (assoc key ops); [done|by rewrite Hinh]).
    set (base' := if is_object oval then oval else fresh_like (VObj ka fra aps)).
    assert (Hb : is_object base' = true /\ unfrozen base' = true /\
                 forall p, p <> [] -> get_leaf base' p = get_leaf (VObj ko false ops) (key :: p)).
    { unfold base', oval. destruct (assoc key ops) as [[cx|kc frc cps]|] eqn:Ec; cbn [is_object].
      - split; [by destruct ka|]. split; [by destruct ka|].
        intros [|j p] Hp; [done|]. rewrite get_leaf_fresh, get_leaf_obj_cons, Ec. done.
      - split; [done|]. split; [eapply all_nodes_assoc; eauto|].
        intros p _. by rewrite get_leaf_obj_cons, Ec.
      - split; [by destruct ka|]. split; [by destruct ka|].
        intros p _. by rewrite get_leaf_fresh, get_leaf_obj_cons, Ec. }
    destruct Hb as (Hbo & Hbf & Hbl).
    destruct (Hm base' Hbo Hbf Hsa eq_refl) as (r & Hr & Hrf & Hro & Hrl).
    rewrite Hget, res_bind_ret. fold base'. rewrite Hr, res_bind_ret, Hput.
    eexists. split; [done|]. split; [by apply unfrozen_put|]. split; [done|].
    split; [|split; [apply Hother|done]].
    intros p. rewrite get_leaf_obj_cons, assoc_set_eq, Hrl.
    destruct p as [|j p]; [done|]. simpl add_cut.
    destruct (assoc j aps) as [c|]; [destruct (add_cut c p)|]; try done; by apply Hbl.
Qed.
(** The loop over the properties of the added object. *)
Lemma extend_props aps o :
  Forall (fun kv => merges kv.2) aps ->
  is_object o = true -> unfrozen o = true ->
  forallb (fun kv => safe_name kv.1) aps = true -> NoDup (map fst aps) ->
  Forall (fun kv => merge_safe kv.2 = true) aps ->
  exists r, extend_loop extend o aps = Ok r /\ unfrozen r = true /\ is_object r = true /\
    forall p, get_leaf r p =
      match p with
      | [] => None
      | key :: p' =>
          match assoc key aps with
          | Some c => match add_cut c p' with Some x => x | None => get_leaf o p end
          | None => get_leaf o p
          end
      end.
Proof.
  revert o. induction aps as [|[key aval] ps IH]; intros o Hms Ho Hfo Hsafe Hnd Hsa.
  - exists o. split; [done|]. do 2 (split; [done|]).
    intros [|j p]; [by destruct o|done].
  - apply Forall_cons in Hms as [Hm Hms]. apply Forall_cons in Hsa as [Ha Hsa].
    simpl in Hsafe. apply andb_true_iff in Hsafe as [Hkey Hsafe].
    simpl in Hnd. apply NoDup_cons in Hnd as [Hnotin Hnd].
    destruct (extend_step o key aval Hm Ho Hfo Hkey Ha) as (o1 & Hs & Hf1 & Ho1 & Hl1 & Hl2 & Hl3).
    rewrite extend_loop_cons, Hs, res_bind_ret.
    destruct (IH o1 Hms Ho1 Hf1 Hsafe Hnd Hsa) as (r & Hr & Hrf & Hro & Hrl).
    exists r. split; [done|]. do 2 (split; [done|]).
    intros [|j p]; [by rewrite Hrl|]. rewrite Hrl, assoc_cons.
    destruct (String.eqb_spec j key) as [->|Hjk].
    + assert (Hnone : assoc key ps = None).
      { destruct (assoc key ps) as [c|] eqn:E; [|done].
        apply assoc_In in E. exfalso. apply Hnotin. apply list_elem_of_In, in_map_iff.
        exists (key, c). done. }
      rewrite Hnone, Hl1. done.
    + rewrite Hl2 by done. done.
Qed.

Lemma extend_merges base add :
  is_object base = true -> unfrozen base = true ->
  is_object add = true -> merge_safe add = true ->
  exists r, extend base add = Ok r /\ merge_result base add r.
Proof.
  revert base. induction add as [x|k fr aps IHs] using value_ind;
    intros base Hb Hfb Ha Hsa; [done|].
  destruct (merge_safe_obj _ _ _ Hsa) as (Hsafe & Hnd & Hsas).
  assert (Hms : Forall (fun kv => merges kv.2) aps).
  { eapply Forall_impl; [exact IHs|]. intros [key c] IHc base' Hb' Hf' Hs' Ho'. by apply IHc. }
  destruct (extend_props aps base Hms Hb Hfb Hsafe Hnd Hsas) as (r & Hr & Hrf & Hro & Hrl).
  exists r. rewrite extend_obj, safe_no_hop by done. split; [done|]. split; [done|]. split; [done|].
  intros p. rewrite Hrl. destruct p as [|key p]; [done|]. simpl add_cut.
  by destruct (assoc key aps).
Qed.

(** C5. [extend] merges [add] into [base]: it succeeds, the result has no
    frozen object (it never aliases a frozen object of [add]), and
    every path holds the added leaf where [add] reaches it and the
    base leaf where it does not.  Scalars and arrays of [add] replace
    what the base has; an added leaf above a path cuts off the base
    below it. *)
Theorem extend_merge base add :
  is_object base = true -> unfrozen base = true ->
  is_object add = true -> merge_safe add = true ->
  exists r, extend base add = Ok r /\ merge_result base add r.
Proof. apply extend_merges. Qed.

End ExtendProps.

(** ** A string source is the object of its characters *)

Lemma extend_scalars o ps :
  Forall (fun kv => is_object kv.2 = false) ps -> extend_loop extend o ps = put_all o ps.
Proof.
  revert o. induction ps as [|[key x] ps IH]; intros o Hps; [done|].
  apply Forall_cons in Hps as [Hx Hps]. rewrite extend_loop_cons. cbn [snd] in Hx. rewrite Hx.
  cbn [put_all]. destruct (put_prop o key x); [|done]. cbn. by apply IH.
Qed.

Lemma string_props_scalars i s : Forall (fun kv => is_object kv.2 = false) (string_props i s).
Proof. revert i. induction s as [|c s IH]; intros i; constructor; [done|apply IH]. Qed.

Lemma index_key_inj m n : index_key m = index_key n -> m = n.
Proof.
  unfold index_key. intros H.
  apply (f_equal DecimalString.NilEmpty.uint_of_string) in H.
  rewrite !DecimalString.NilEmpty.usu in H. injection H as H.
  rewrite <- (DecimalNat.Unsigned.of_to m), <- (DecimalNat.Unsigned.of_to n). by rewrite H.
Qed.

Lemma string_props_keys i s : map fst (string_props i s) = map index_key (seq i (String.length s)).
Proof. revert i. induction s as [|c s IH]; intros i; [done|]. cbn. by rewrite IH. Qed.

(** An index key starts with a digit, so it names no inherited property. *)
Lemma index_key_safe n : safe_name (index_key n) = true.
Proof.
  unfold index_key. destruct (Nat.to_uint n) as [|d|d|d|d|d|d|d|d|d|d] eqn:E;
    [|reflexivity..].
  apply (f_equal Nat.of_uint) in E. rewrite DecimalNat.Unsigned.of_to in E. subst n. done.
Qed.

Lemma merge_safe_string_object s : merge_safe (string_object s) = true.
Proof.
  unfold merge_safe, string_object. rewrite all_nodes_obj. split.
  - apply andb_true_iff. split.
    + apply forallb_forall. intros kv Hkv. apply (in_map fst) in Hkv.
      rewrite string_props_keys in Hkv. apply in_map_iff in Hkv as (n & <- & _). apply index_key_safe.
    + apply bool_decide_eq_true. rewrite string_props_keys. assert (Inj eq eq index_key) by (intros ??; apply index_key_inj).
      change (NoDup (index_key <$> seq 0 (String.length s))).
      apply NoDup_fmap_2; [done|apply NoDup_seq].
  - eapply List.Forall_impl; [|apply string_props_scalars]. intros [key [x|]]; done.
Qed.

Lemma extend_string_object o s : extend o (VPrim (PStr s)) = extend o (string_object s).
Proof.
  pose proof (merge_safe_obj _ _ _ (merge_safe_string_object s)) as [Hs _].
  unfold string_object. rewrite extend_obj, safe_no_hop, extend_scalars by (done || apply string_props_scalars).
  done.
Qed.

(** ** Behaviours the spec does not describe *)

Definition str (s : string) : value := VPrim (PStr s).

(** The elements of [xs] under the indices [n], [n + 1], ... *)
Fixpoint idx_from (n : nat) (xs : list value) : list (string * value) :=
  match xs with
  | [] => []
  | x :: r => (index_key n, x) :: idx_from (S n) r
  end.

(** The array [xs], as [JSON.parse] makes it. *)
Definition arr (xs : list value) : value := VObj KArray false (idx_from 0 xs).

Lemma idx_from_app n xs ys : idx_from n (xs ++ ys) = idx_from n xs ++ idx_from (n + length xs) ys.
Proof.
  revert n. induction xs as [|x xs IH]; intros n; cbn; [by rewrite Nat.add_0_r|].
  rewrite IH. do 3 f_equal. lia.
Qed.

Lemma idx_from_out m n xs :
  m < n \/ n + length xs <= m -> assoc (index_key m) (idx_from n xs) = None.
Proof.
  revert n. induction xs as [|x xs IH]; intros n Hmn; [done|]. cbn [idx_from length] in *.
  rewrite assoc_cons, IH by lia.
  destruct (String.eqb_spec (index_key m) (index_key n)) as [E%index_key_inj|]; [lia|done].
Qed.

Lemma idx_from_keys_safe n xs : forallb (fun kv => safe_name kv.1) (idx_from n xs) = true.
Proof. revert n. induction xs; intros n; cbn; [done|]. by rewrite index_key_safe, IHxs. Qed.

Lemma idx_from_scalars n xs :
  Forall (fun x => is_object x = false) xs -> Forall (fun kv => is_object kv.2 = false) (idx_from n xs).
Proof. intros H. revert n. induction H as [|x xs Hx _ IH]; intros m; constructor; [done|apply IH]. Qed.

(** Writing [ys] from the index [length zs] on, over the elements [xs]
    that follow [zs]. *)
Lemma put_all_indices zs xs ys :
  put_all (VObj KArray false (idx_from 0 zs ++ idx_from (length zs) xs)) (idx_from (length zs) ys) =
  Ok (VObj KArray false (idx_from 0 zs ++ idx_from (length zs) (ys ++ drop (length ys) xs))).
Proof.
  revert zs xs. induction ys as [|y ys IH]; intros zs xs; [done|]. cbn [idx_from put_all put_prop].
  destruct (safe_name_inherited KArray (index_key (length zs)) (index_key_safe _)) as [_ ->].
  rewrite res_bind_ret, assoc_set_app_new by (apply idx_from_out; lia).
  pose proof (IH (zs ++ [y])) as H. setoid_rewrite (idx_from_app 0 zs [y]) in H.
  rewrite Nat.add_0_l, length_app in H. change (length [y]) with 1 in H. rewrite Nat.add_1_r in H.
  cbn [idx_from] in H. setoid_rewrite <- app_assoc in H. cbn [app] in H.
  destruct xs as [|x xs]; cbn [idx_from assoc_set app length drop].
  - specialize (H []). cbn [idx_from] in H. rewrite drop_nil, app_nil_r in *. exact H.
  - rewrite String.eqb_refl. exact (H xs).
Qed.

(** C13. Two arrays are merged index by index: the spec (section 4.4)
    says an added array replaces the base value outright, but [extend]
    writes the added elements over the first ones of the base and keeps
    the base elements past the end of the added array. *)
Theorem extend_arrays_by_index xs ys :
  Forall (fun y => is_object y = false) ys ->
  extend (arr xs) (arr ys) = Ok (arr (ys ++ drop (length ys) xs)).
Proof.
  intros Hys. unfold arr at 2. rewrite extend_obj, safe_no_hop by apply idx_from_keys_safe.
  rewrite extend_scalars by (by apply idx_from_scalars).
  exact (put_all_indices [] xs ys).
Qed.

(** A configuration file whose object has the key ["__proto__"] makes
    [extend] read [obj["__proto__"]], which is [Object.prototype], and
    merge into it: the merge leaves the configuration tree and reaches
    the prototype of every object. *)
Example extend_proto_key :
  extend empty_object
         (VObj KObject false [("__proto__", VObj KObject false [("admin", VPrim (PBool true))])]) =
  Err (Proto "__proto__").
Proof. reflexivity. Qed.

(** A configuration file holding a JSON string is merged character by
    character, as [for..in] enumerates a string's indices. *)
Example extend_string_source :
  extend empty_object (str "ab") = Ok (VObj KObject false [("0", str "a"); ("1", str "b")]).
Proof. vm_compute. reflexivity. Qed.

Lemma extend_arrays_by_index_witness :
  extend (arr [str "a"; str "b"; str "c"]) (arr [str "x"]) = Ok (arr [str "x"; str "b"; str "c"]).
Proof. rewrite (extend_arrays_by_index _ [str "x"]); [reflexivity|repeat constructor]. Defined.

Lemma extend_merge_witness :
  exists r, extend (VObj KObject false [("a", str "x"); ("b", str "y")])
                   (VObj KObject false [("a", VObj KObject false [("c", str "z")]); ("b", str "w")]) = Ok r /\
    merge_result (VObj KObject false [("a", str "x"); ("b", str "y")])
                 (VObj KObject false [("a", VObj KObject false [("c", str "z")]); ("b", str "w")]) r.
Proof. apply extend_merge; vm_compute; reflexivity. Defined.
