(* ===== verification/Freeze.v ===== *)
(** * Freeze: the recursive [freeze]

    [freeze(obj)] ([src/index.js] lines 284-290) visits the keys of
    [obj], freezes every value that is an object (arrays included),
    then freezes [obj] itself and returns it.  The test
    [obj.hasOwnProperty(key)] (line 286) throws a [TypeError] at the
    first key of an object that owns a [hasOwnProperty]
    ([JsValue.owns_hop]); the objects frozen before the throw are never
    observed, since every caller drops the tree when [freeze] throws.
    [deep_freeze] is the tree after a run that completes.  Frozen
    objects refuse every later write: in the strict mode of the source
    an assignment into one throws a [TypeError]. *)

From S2P Require Import Prelude JsString JsNumber JsValue Merge.

(** The loop of lines 285-287 over the properties [ps] of [obj]; [frz]
    is the recursive call of line 287. *)
Definition freeze_props (frz : value -> res value) (ps : list (string * value))
    : res (list (string * value)) :=
  (fix go (ps : list (string * value)) : res (list (string * value)) :=
     match ps with
     | [] => Ok []
     | (key, x) :: ps' =>
         x' ← (if is_object x then frz x else Ok x);
         r ← go ps';
         Ok ((key, x') :: r)
     end) ps.

(** Lines 284-290: the properties, then [Object.freeze(obj)]. *)
Fixpoint freeze (v : value) : res value :=
  match v with
  | VObj k _ ps =>
      if owns_hop ps then Err TypeError
      else ps' ← freeze_props freeze ps; Ok (VObj k true ps')
  | VPrim _ => Ok v
  end.

(** The tree once every object of it is frozen. *)
Fixpoint deep_freeze (v : value) : value :=
  match v with
  | VObj k _ ps => VObj k true (map (fun kv : string * value => (kv.1, deep_freeze kv.2)) ps)
  | VPrim _ => v
  end.

(** No object of the tree owns a [hasOwnProperty]. *)
Definition hop_free (v : value) : bool :=
  all_nodes (fun n => match n with VObj _ _ ps => negb (owns_hop ps) | VPrim _ => true end) v.

(** ** [freeze] either throws or freezes the whole tree *)

Lemma freeze_props_cons frz key x ps :
  freeze_props frz ((key, x) :: ps) =
  (x' ← (if is_object x then frz x else Ok x); r ← freeze_props frz ps; Ok ((key, x') :: r)).
Proof. reflexivity. Qed.

Lemma freeze_go_spec ps :
  Forall (fun kv : string * value => freeze kv.2 = if hop_free kv.2 then Ok (deep_freeze kv.2) else Err TypeError) ps ->
  freeze_props freeze ps =
  if forallb (fun kv => hop_free kv.2) ps
  then Ok (map (fun kv : string * value => (kv.1, deep_freeze kv.2)) ps) else Err TypeError.
Proof.
  induction 1 as [|[key x] ps Hx _ IH]; [done|]. cbn [forallb fst snd map].
  rewrite freeze_props_cons.
  assert (Hx' : (if is_object x then freeze x else Ok x) =
                if hop_free x then Ok (deep_freeze x) else Err TypeError)
    by (destruct x; [done|exact Hx]).
  rewrite Hx', IH. by destruct (hop_free x), (forallb _ ps).
Qed.

Lemma freeze_spec v : freeze v = if hop_free v then Ok (deep_freeze v) else Err TypeError.
Proof.
  induction v as [p|k fr ps IH] using value_ind; [done|].
  cbn [freeze]. rewrite freeze_go_spec by done.
  unfold hop_free. cbn [all_nodes].
  destruct (owns_hop ps); [done|]. cbn [negb andb].
  by destruct (forallb _ ps).
Qed.

(** ** Trees that [freeze] walks without throwing *)

Definition hop_node (n : value) : bool :=
  match n with VObj _ _ ps => negb (owns_hop ps) | VPrim _ => true end.

Lemma owns_hop_set key x (ps : list (string * value)) :
  key <> "hasOwnProperty" -> owns_hop (assoc_set key x ps) = owns_hop ps.
Proof. intros H. unfold owns_hop. by rewrite assoc_set_ne. Qed.

Lemma merge_safe_hop_free v : merge_safe v = true -> hop_free v = true.
Proof.
  apply all_nodes_impl. intros [|k fr ps]; [done|]. cbn beta iota.
  rewrite andb_true_iff. intros [H _]. by rewrite safe_no_hop.
Qed.

Lemma hop_free_put o key x o' :
  hop_free o = true -> hop_free x = true -> key <> "hasOwnProperty" ->
  put_prop o key x = Ok o' -> hop_free o' = true.
Proof.
  intros Ho Hx Hk. destruct o as [|k fr ps]; [done|]. cbn [put_prop].
  destruct fr, (special_write k key); intros [= <-].
  apply (all_nodes_assoc_set hop_node); [done..|]. cbn. rewrite owns_hop_set by done.
  by apply all_nodes_root in Ho.
Qed.

Lemma hop_free_get o key x : hop_free o = true -> get_prop o key = Ok x -> hop_free x = true.
Proof.
  destruct o as [p|k fr ps]; cbn [get_prop]; [by destruct (nullish p)|].
  destruct (assoc key ps) eqn:E; [intros Ho [= <-]; by eapply all_nodes_assoc|].
  by destruct (inherited k key); intros _ [= <-].
Qed.

Lemma hop_free_fresh aval : hop_free (fresh_like aval) = true.
Proof. by destruct aval as [|[] ? ?]. Qed.

Lemma extend_loop_hop_free ps base r :
  hop_free base = true -> forallb (fun kv => safe_name kv.1) ps = true ->
  Forall (fun kv : string * value => merge_safe kv.2 = true /\
            (is_object kv.2 = true ->
             forall b r, hop_free b = true -> extend b kv.2 = Ok r -> hop_free r = true)) ps ->
  extend_loop extend base ps = Ok r -> hop_free r = true.
Proof.
  revert base. induction ps as [|[key v] ps IH]; intros base Hb Hs Hc; [by intros [= <-]|].
  apply Forall_cons in Hc as [[Hv Hext] Hc]. cbn [forallb fst] in Hs.
  apply andb_true_iff in Hs as [Hk Hs].
  assert (Hk' : key <> "hasOwnProperty") by (intros ->; by rewrite safe_name_hop in Hk).
  rewrite extend_loop_cons. intros Hr. res_inv. eapply IH; [|done|done|eassumption].
  destruct (is_object v) eqn:Eo; res_inv; (eapply hop_free_put; [exact Hb| |exact Hk'|eassumption]).
  - eapply Hext; [done| |eassumption].
    destruct (is_object a0); [by eapply hop_free_get|apply hop_free_fresh].
  - by apply merge_safe_hop_free.
Qed.

(** Merging a tree of safe keys into a tree [freeze] can walk gives a
    tree [freeze] can walk. *)
Lemma extend_hop_free add base r :
  hop_free base = true -> merge_safe add = true -> extend base add = Ok r -> hop_free r = true.
Proof.
  revert base r. induction add as [x|k fr aps IH] using value_ind; intros base r Hb Ha.
  - destruct x as [| | | |s]; try by intros [= <-].
    pose proof (merge_safe_obj _ _ _ (merge_safe_string_object s)) as (Hs & _ & Hc).
    rewrite extend_string_object. unfold string_object. rewrite extend_obj, safe_no_hop by done.
    apply extend_loop_hop_free; [done..|].
    eapply List.Forall_impl; [|apply Forall_and; split; [exact Hc|apply string_props_scalars]].
    intros [key v] [Hv Hs']. split; [done|]. by rewrite Hs'.
  - destruct (merge_safe_obj _ _ _ Ha) as (Hs & _ & Hc).
    rewrite extend_obj, safe_no_hop by done. apply extend_loop_hop_free; [done..|].
    eapply List.Forall_impl; [|apply Forall_and; split; [exact IH|exact Hc]].
    intros kv [IHkv Hkv]. split; [done|]. intros _ b r' Hb'. by apply IHkv.
Qed.

(** ** The frozen tree *)

Lemma assoc_map_freeze key ps :
  assoc key (map (fun kv : string * value => (kv.1, deep_freeze kv.2)) ps) = deep_freeze <$> assoc key ps.
Proof.
  induction ps as [|[j w] ps IH]; [done|]. simpl map. rewrite !assoc_cons.
  by destruct (String.eqb key j).
Qed.

Lemma freeze_frozen v : deep_frozen (deep_freeze v) = true.
Proof.
  induction v as [p|k fr ps IH] using value_ind; [done|].
  unfold deep_frozen in *. cbn [deep_freeze]. rewrite all_nodes_obj. split; [done|].
  induction ps as [|[key w] ps IHps]; simpl; constructor.
  - by apply Forall_cons in IH as [H _].
  - apply IHps. by apply Forall_cons in IH as [_ H].
Qed.

Lemma map_freeze_id ps :
  Forall (fun kv : string * value => deep_freeze (deep_freeze kv.2) = deep_freeze kv.2) ps ->
  map (fun kv : string * value => (kv.1, deep_freeze kv.2)) (map (fun kv : string * value => (kv.1, deep_freeze kv.2)) ps) =
  map (fun kv : string * value => (kv.1, deep_freeze kv.2)) ps.
Proof.
  induction ps as [|[key w] ps IH]; intros H; [done|].
  apply Forall_cons in H as [Hw H]. simpl in *. by rewrite Hw, IH.
Qed.

(** A node predicate that looks at the keys of an object only holds on
    [deep_freeze v] where it holds on [v]. *)
Lemma all_nodes_freeze (P : value -> bool) v :
  (forall k fr fr' ps ps', map fst ps = map fst ps' -> P (VObj k fr ps) = P (VObj k fr' ps')) ->
  all_nodes P (deep_freeze v) = all_nodes P v.
Proof.
  intros HP. induction v as [x|k fr ps IH] using value_ind; [done|]. cbn [deep_freeze all_nodes].
  f_equal.
  - apply HP. rewrite map_map. by apply map_ext.
  - apply forallb_map_ext. intros [key c] Hin. rewrite List.Forall_forall in IH.
    apply (IH (key, c) Hin).
Qed.

(** Freezing a frozen tree changes nothing (spec section 4.5). *)
Lemma freeze_idempotent v : deep_freeze (deep_freeze v) = deep_freeze v.
Proof.
  induction v as [p|k fr ps IH] using value_ind; [done|].
  simpl. by rewrite map_freeze_id.
Qed.

Lemma freeze_get_path v p : get_path (deep_freeze v) p = deep_freeze <$> get_path v p.
Proof.
  revert v. induction p as [|key p IH]; intros v; [done|].
  destruct v as [x|k fr ps]; [done|]. simpl.
  rewrite assoc_map_freeze. destruct (assoc key ps); simpl; [apply IH|done].
Qed.

Lemma freeze_leaf v p : get_leaf (deep_freeze v) p = get_leaf v p.
Proof.
  unfold get_leaf. rewrite freeze_get_path.
  by destruct (get_path v p) as [[|]|].
Qed.

(** After freezing, a write into any object of the tree throws. *)
Lemma freeze_rejects_writes v p n key x :
  get_path (deep_freeze v) p = Some n -> is_object n = true -> put_prop n key x = Err TypeError.
Proof.
  rewrite freeze_get_path. destruct (get_path v p) as [w|]; [|done]. intros [= <-].
  by destruct w.
Qed.

(** C11. [freeze] (lines 284-290) throws a [TypeError] exactly when an
    object of the tree owns a [hasOwnProperty]; otherwise it returns
    the tree with every object frozen, the objects inside arrays
    included, and every leaf where it was. *)
Theorem freeze_deep v :
  match freeze v with
  | Ok r => hop_free v = true /\ deep_frozen r = true /\ forall p, get_leaf r p = get_leaf v p
  | Err e => hop_free v = false /\ e = TypeError
  end.
Proof.
  rewrite freeze_spec. destruct (hop_free v); [|done].
  split; [done|]. split; [apply freeze_frozen|apply freeze_leaf].
Qed.
