(* ===== verification/FreezeRefs.v ===== *)
(** * FreezeRefs: the [refs] list of [loadFromObject] covers the tree

    [loadFromObject] ([src/index.js] lines 23-110) does not freeze its
    result recursively: it pushes every object it creates on [refs]
    (lines 79, 84, 92-96, 30) and freezes the objects of [refs] one by
    one at the end (lines 106-107).  This file shows that [refs] names
    exactly the objects of the tree, so that the loop of lines 106-107
    freezes the whole tree: with [freeze] set, [loadFromObject] returns
    [freeze] of the tree it builds without it.

    [mark R t] is [t] with the objects at the paths of [R] frozen; the
    loop computes [mark refs result] ([freeze_refs_mark]).  The paths of
    the objects of a tree are [obj_at]; [ins_obj_at] says which objects
    one insertion adds, and they are the paths the loop pushes. *)

From S2P Require Import Prelude JsString JsNumber JsValue Coercer Normalizer PathBuilder Merge Freeze.
Import PathBuilder.Walk PathBuilder.Spec PathBuilder.Refinement PathBuilder.Contract.

(** ** Objects of a tree *)

(** [p] names an object of [t]. *)
Definition obj_at (t : value) (p : path) : bool :=
  match get_path t p with Some (VObj _ _ _) => true | _ => false end.

(** Every object has distinct keys, so that every node is reached by
    its path. *)
Definition nodup_keys (t : value) : bool :=
  all_nodes (fun n => match n with
                      | VObj _ _ ps => bool_decide (NoDup (map fst ps))
                      | VPrim _ => true
                      end) t.

(** The reserved key ["_"] never holds an object. *)
Definition reserved_leaf (t : value) : bool :=
  all_nodes (fun n => match n with
                      | VObj _ _ ps => match assoc "_" ps with Some (VObj _ _ _) => false | _ => true end
                      | VPrim _ => true
                      end) t.

(** ** Freezing the objects at a list of paths *)

(** The paths of [R] that go through [key], with [key] removed. *)
Definition subpaths (key : string) (R : list path) : list path :=
  omap (fun p => match p with j :: q => if String.eqb j key then Some q else None | [] => None end) R.

Fixpoint mark (R : list path) (t : value) : value :=
  match t with
  | VObj k fr ps =>
      VObj k (fr || bool_decide ([] ∈ R)) (map (fun kv => (kv.1, mark (subpaths kv.1 R) kv.2)) ps)
  | VPrim _ => t
  end.

Lemma mark_obj R k fr ps :
  mark R (VObj k fr ps) =
  VObj k (fr || bool_decide ([] ∈ R)) (map (fun kv => (kv.1, mark (subpaths kv.1 R) kv.2)) ps).
Proof. reflexivity. Qed.

Lemma mark_nil t : mark [] t = t.
Proof.
  induction t as [p|k fr ps IH] using value_ind; [done|].
  rewrite mark_obj, orb_false_r. f_equal. rewrite <- (map_id ps) at 2.
  apply map_ext_in. intros [key c] Hin. rewrite List.Forall_forall in IH.
  cbn [fst snd]. replace (subpaths key []) with (@nil path) by reflexivity.
  by rewrite (IH (key, c) Hin : mark [] c = c).
Qed.

Lemma mark_mark R1 R2 t : mark R2 (mark R1 t) = mark (R1 ++ R2) t.
Proof.
  revert R1 R2. induction t as [p|k fr ps IH] using value_ind; intros R1 R2; [done|].
  rewrite !mark_obj, map_map. f_equal.
  - rewrite <- orb_assoc. f_equal. rewrite <- bool_decide_or. apply bool_decide_ext. set_solver.
  - apply map_ext_in. intros [key c] Hin. rewrite List.Forall_forall in IH.
    cbn [fst snd]. unfold subpaths at 3. rewrite omap_app. by rewrite (IH (key, c) Hin).
Qed.

Lemma get_path_mark R t p :
  get_path (mark R t) p = mark (foldl (fun R' j => subpaths j R') R p) <$> get_path t p.
Proof.
  revert R t. induction p as [|j p IH]; intros R [x|k fr ps]; try done.
  cbn [get_path]. rewrite mark_obj, (assoc_map_keyed (fun key c => mark (subpaths key R) c)).
  destruct (assoc j ps) as [c|]; [apply IH|done].
Qed.

Lemma obj_at_mark R t p : obj_at (mark R t) p = obj_at t p.
Proof. unfold obj_at. rewrite get_path_mark. by destruct (get_path t p) as [[|]|]. Qed.

Lemma nodup_keys_mark R t : nodup_keys (mark R t) = nodup_keys t.
Proof.
  revert R. induction t as [p|k fr ps IH] using value_ind; intros R; [done|].
  unfold nodup_keys in *. rewrite mark_obj. cbn [all_nodes].
  assert (Hk : map fst (map (fun kv => (kv.1, mark (subpaths kv.1 R) kv.2)) ps) = map fst ps)
    by (rewrite map_map; by apply map_ext).
  rewrite Hk. f_equal. apply forallb_map_ext. intros [key c] Hin.
  rewrite List.Forall_forall in IH. apply (IH (key, c) Hin).
Qed.

Lemma subpaths_single key j q :
  subpaths key [j :: q] = if String.eqb j key then [q] else [].
Proof. unfold subpaths. simpl. by destruct (String.eqb j key). Qed.

Lemma elem_of_subpaths key q R : key :: q ∈ R -> q ∈ subpaths key R.
Proof.
  intros H. apply list_elem_of_omap. exists (key :: q). split; [done|].
  by rewrite String.eqb_refl.
Qed.

Lemma nodup_keys_obj k fr ps :
  nodup_keys (VObj k fr ps) = true -> NoDup (map fst ps).
Proof. intros H. apply all_nodes_root in H. by apply bool_decide_eq_true in H. Qed.

(** One turn of the loop of lines 106-107 freezes the object at [p]. *)
Lemma update_freeze t p k fr ps :
  nodup_keys t = true -> get_path t p = Some (VObj k fr ps) ->
  update_path t p freeze_node = Ok (mark [p] t).
Proof.
  revert t. induction p as [|j q IH]; intros t Hnd Hget.
  - simpl in Hget. simplify_eq. cbn [update_path freeze_node]. rewrite mark_obj.
    do 2 f_equal; [by destruct fr|]. rewrite <- (map_id ps) at 1.
    apply map_ext_in. intros [key c] _. cbn [fst snd].
    replace (subpaths key [[]]) with (@nil path) by reflexivity. by rewrite mark_nil.
  - destruct t as [x|k' fr' ps']; [done|]. cbn [get_path update_path] in *.
    destruct (assoc j ps') as [c|] eqn:Ec; [|done].
    rewrite (IH c) by (done || by eapply all_nodes_assoc). rewrite res_bind_ret.
    rewrite mark_obj, orb_false_r. f_equal. f_equal.
    pose proof (nodup_keys_obj _ _ _ Hnd) as Hkeys.
    rewrite (assoc_set_map _ c) by done. apply map_ext_in. intros [key w] Hin.
    cbn [fst snd]. rewrite subpaths_single.
    destruct (String.eqb_spec key j) as [->|Hne].
    + rewrite String.eqb_refl. apply assoc_NoDup_In in Hin; [|done]. rewrite Ec in Hin. by injection Hin as ->.
    + destruct (String.eqb_spec j key); [congruence|]. by rewrite mark_nil.
Qed.

(** Lines 106-107: when every path of [refs] names an object, the loop
    freezes exactly the objects of [refs]. *)
Lemma freeze_refs_mark t R :
  nodup_keys t = true -> Forall (fun p => obj_at t p = true) R ->
  freeze_refs t R = Ok (mark R t).
Proof.
  revert t. induction R as [|p R IH]; intros t Hnd HR; cbn [freeze_refs].
  - by rewrite mark_nil.
  - apply Forall_cons in HR as [Hp HR]. unfold obj_at in Hp.
    destruct (get_path t p) as [[|k fr ps]|] eqn:Hget; try done.
    rewrite (update_freeze _ _ _ _ _ Hnd Hget), res_bind_ret, IH.
    + by rewrite mark_mark.
    + by rewrite nodup_keys_mark.
    + eapply List.Forall_impl; [|exact HR]. intros q Hq. by rewrite obj_at_mark.
Qed.

(** Freezing the objects at a list of paths that names every object is
    freezing the whole tree. *)
Lemma mark_covers t R :
  nodup_keys t = true -> (forall p, obj_at t p = true -> p ∈ R) -> mark R t = deep_freeze t.
Proof.
  revert R. induction t as [x|k fr ps IH] using value_ind; intros R Hnd Hcov; [done|].
  rewrite mark_obj. cbn [deep_freeze]. f_equal.
  - rewrite (bool_decide_eq_true_2 _ (Hcov [] eq_refl)). apply orb_true_r.
  - apply map_ext_in. intros [key c] Hin. cbn [fst snd]. f_equal.
    rewrite List.Forall_forall in IH. apply (IH (key, c) Hin).
    + by eapply all_nodes_assoc, assoc_NoDup_In; [|apply nodup_keys_obj in Hnd|].
    + intros q Hq. apply elem_of_subpaths, Hcov. unfold obj_at. cbn [get_path].
      rewrite (assoc_NoDup_In key c) by (done || by eapply nodup_keys_obj). done.
Qed.

(** ** The objects one insertion creates *)

Lemma obj_at_prim x q : obj_at (VPrim x) q = false.
Proof. by destruct q. Qed.

Lemma obj_at_cons k fr ps j q :
  obj_at (VObj k fr ps) (j :: q) = match assoc j ps with Some c => obj_at c q | None => false end.
Proof. unfold obj_at. cbn [get_path]. by destruct (assoc j ps). Qed.

Lemma obj_at_empty q : obj_at empty_object q = true <-> q = [].
Proof. destruct q; [done|]. unfold empty_object. rewrite obj_at_cons. done. Qed.

Lemma obj_at_ins_step node k n q :
  obj_at (ins_step node k n) q = true <->
  q = [] \/ (exists q', q = k :: q' /\ obj_at n q' = true) \/
  (exists j q', q = j :: q' /\ j <> k /\ obj_at node q = true).
Proof.
  destruct q as [|j q']; [destruct node; (split; [intros; by left|done])|].
  destruct node as [x|kd fr ps]; cbn [ins_step]; rewrite obj_at_cons.
  - destruct (String.eqb_spec j k) as [->|Hne].
    + rewrite assoc_set_eq. rewrite obj_at_prim. naive_solver.
    + rewrite assoc_set_ne by congruence. rewrite obj_at_prim, assoc_cons.
      destruct (String.eqb j "_"); rewrite ?obj_at_prim; naive_solver.
  - destruct (String.eqb_spec j k) as [->|Hne].
    + rewrite assoc_set_eq. naive_solver.
    + rewrite assoc_set_ne by congruence. rewrite obj_at_cons. naive_solver.
Qed.

Lemma pushed_shift node l segs : pushed node l segs = map (app l) (pushed node [] segs).
Proof.
  revert node l. induction segs as [|k [|k' rest] IH]; intros node l; [done| |].
  - cbn [pushed]. unfold pushed_final. destruct (is_object node); simpl; by rewrite ?app_nil_r.
  - rewrite !(pushed_cons _ _ k) by done. rewrite map_app, (IH _ (l ++ [k])), (IH _ [k]).
    rewrite map_map. f_equal.
    + destruct node as [|kd fr ps]; cbn; [by rewrite app_nil_r|by destruct (assoc k ps)].
    + apply map_ext. intros p. by rewrite app_assoc.
Qed.

Lemma elem_of_map_cons (k : string) (q : path) (X : list path) :
  q ∈ map (app [k]) X <-> exists q', q = k :: q' /\ q' ∈ X.
Proof.
  rewrite list_elem_of_In, in_map_iff. setoid_rewrite <- list_elem_of_In. naive_solver.
Qed.

Lemma reserved_leaf_obj k fr ps q :
  reserved_leaf (VObj k fr ps) = true -> obj_at (VObj k fr ps) ("_" :: q) = false.
Proof.
  intros H. apply all_nodes_root in H. rewrite obj_at_cons.
  destruct (assoc "_" ps) as [[x|]|]; [by rewrite obj_at_prim|done|done].
Qed.

(** Setting the reserved key of an object creates no object. *)
Lemma obj_at_set_self k fr ps v q :
  reserved_leaf (VObj k fr ps) = true ->
  obj_at (VObj k fr (assoc_set "_" (VPrim v) ps)) q = obj_at (VObj k fr ps) q.
Proof.
  intros H. destruct q as [|j q]; [done|].
  destruct (String.eqb_spec j "_") as [->|Hne].
  - rewrite (reserved_leaf_obj k fr ps) by done. rewrite obj_at_cons, assoc_set_eq. apply obj_at_prim.
  - rewrite !obj_at_cons, assoc_set_ne by congruence. done.
Qed.

Lemma ins_single_step t k v :
  exists n, ins t [k] (VPrim v) = ins_step t k n /\
    forall q, reserved_leaf t = true ->
      obj_at n q = match t with VObj _ _ ps => obj_at (default (VPrim v) (assoc k ps)) q | VPrim _ => false end.
Proof.
  destruct t as [x|kd fr ps]; cbn [ins].
  - exists (VPrim v). split; [done|]. intros q _. apply obj_at_prim.
  - destruct (assoc k ps) as [[y|ck cfr cps]|] eqn:E.
    + exists (VPrim v). split; [done|]. intros q _. by destruct q.
    + eexists. split; [reflexivity|]. intros q H. apply obj_at_set_self.
      eapply all_nodes_assoc; [exact H|exact E].
    + exists (VPrim v). split; [done|]. intros q _. by destruct q.
Qed.

Lemma reserved_leaf_child t k : reserved_leaf t = true -> reserved_leaf (child_of t k) = true.
Proof.
  destruct t as [x|kd fr ps]; [done|]. cbn [child_of]. intros H.
  destruct (assoc k ps) eqn:E; [by eapply all_nodes_assoc|done].
Qed.

(** The objects of the tree after one insertion are the objects before
    it and the paths the loop pushes for it. *)
Lemma ins_obj_at t segs v q :
  reserved_leaf t = true -> no_reserved segs -> segs <> [] ->
  obj_at (ins t segs (VPrim v)) q = true <-> obj_at t q = true \/ q ∈ pushed t [] segs.
Proof.
  revert t q. induction segs as [|k [|k' rest] IH]; intros t q Ht Hsegs Hne; [done| |].
  - destruct (ins_single_step t k v) as (n & -> & Hn). rewrite obj_at_ins_step.
    cbn [pushed]. unfold pushed_final. setoid_rewrite (Hn _ Ht).
    destruct t as [x|kd fr ps]; cbn [is_object].
    + setoid_rewrite obj_at_prim. rewrite list_elem_of_singleton. naive_solver.
    + rewrite elem_of_nil. destruct q as [|j q']; [naive_solver|]. rewrite obj_at_cons.
      destruct (String.eqb_spec j k) as [->|Hjk]; [|naive_solver].
      destruct (assoc k ps) as [c|]; cbn [default]; [naive_solver|]. setoid_rewrite obj_at_prim. naive_solver.
  - apply Forall_cons in Hsegs as [Hk Hsegs].
    rewrite ins_cons, obj_at_ins_step, pushed_cons, (pushed_shift _ [k]) by done.
    pose proof (IH (child_of t k)) as IHc. setoid_rewrite IHc; [|by apply reserved_leaf_child|done..].
    rewrite elem_of_app. setoid_rewrite elem_of_map_cons.
    destruct q as [|j q'].
    + destruct t; cbn; set_solver.
    + destruct (String.eqb_spec j k) as [->|Hjk].
      * destruct t as [x|kd fr ps]; cbn [pushed_nonfinal child_of].
        -- rewrite obj_at_prim. setoid_rewrite obj_at_empty. set_solver.
        -- rewrite obj_at_cons. destruct (assoc k ps) as [c|]; cbn [default].
           ++ set_solver.
           ++ setoid_rewrite obj_at_empty. set_solver.
      * destruct t as [x|kd fr ps]; cbn [pushed_nonfinal]; [|destruct (assoc k ps)]; set_solver.
Qed.

(** ** Shape invariants of the built tree *)

Section InsNodes.
Context (P : value -> bool).
Hypothesis P_prim : forall x, P (VPrim x) = true.
Hypothesis P_empty : P empty_object = true.
Hypothesis P_set : forall k fr ps key c,
  key <> "_" -> P (VObj k fr ps) = true -> P (VObj k fr (assoc_set key c ps)) = true.
Hypothesis P_self : forall k fr ps x,
  P (VObj k fr ps) = true -> P (VObj k fr (assoc_set "_" (VPrim x) ps)) = true.
Hypothesis P_wrap : forall x, P (VObj KObject false [("_", VPrim x)]) = true.

Lemma all_nodes_wrap x : all_nodes P (VObj KObject false [("_", VPrim x)]) = true.
Proof. apply all_nodes_obj. split; [done|]. repeat constructor. simpl. by rewrite P_prim. Qed.

Lemma all_nodes_set k fr ps key c :
  key <> "_" -> all_nodes P (VObj k fr ps) = true -> all_nodes P c = true ->
  all_nodes P (VObj k fr (assoc_set key c ps)) = true.
Proof. intros Hk Hps Hc. apply all_nodes_assoc_set; [done|done|]. by apply P_set, all_nodes_root. Qed.

Lemma ins_all_nodes t segs v :
  all_nodes P t = true -> no_reserved segs -> all_nodes P (ins t segs (VPrim v)) = true.
Proof.
  revert t. induction segs as [|k [|k' rest] IH]; intros t Ht Hsegs; [done| |];
    apply Forall_cons in Hsegs as [Hk Hsegs].
  - destruct t as [x|kd fr ps]; cbn [ins].
    + apply all_nodes_set; [done|apply all_nodes_wrap|by rewrite all_nodes_prim].
    + destruct (assoc k ps) as [[y|ck cfr cps]|] eqn:E;
        apply all_nodes_set; rewrite ?all_nodes_prim; try done.
      apply all_nodes_assoc_set; [by eapply all_nodes_assoc|by rewrite all_nodes_prim|].
      apply P_self, all_nodes_root. by eapply all_nodes_assoc.
  - assert (He : all_nodes P empty_object = true)
      by (unfold empty_object; cbn [all_nodes forallb]; rewrite andb_true_r; apply P_empty).
    rewrite ins_cons by done.
    destruct t as [x|kd fr ps]; cbn [ins_step child_of]; apply all_nodes_set; try done.
    + apply all_nodes_wrap.
    + by apply IH.
    + apply IH; [|done]. destruct (assoc k ps) eqn:E; [|exact He].
      change (all_nodes P v0 = true). eapply all_nodes_assoc; [exact Ht|exact E].
Qed.

Lemma build_tree_all_nodes es t :
  all_nodes P t = true -> Forall (fun e => no_reserved e.1) es ->
  all_nodes P (build_tree es t) = true.
Proof.
  revert t. induction es as [|e es IH]; intros t Ht Hes; [done|].
  apply Forall_cons in Hes as [He Hes]. apply IH; [by apply ins_all_nodes|done].
Qed.

End InsNodes.

Lemma build_tree_nodup es t :
  nodup_keys t = true -> Forall (fun e => no_reserved e.1) es -> nodup_keys (build_tree es t) = true.
Proof.
  apply build_tree_all_nodes; [done|done| | |done].
  - intros k fr ps key c _ H. apply bool_decide_eq_true in H.
    by apply bool_decide_eq_true, assoc_set_NoDup.
  - intros k fr ps x H. apply bool_decide_eq_true in H.
    by apply bool_decide_eq_true, assoc_set_NoDup.
Qed.

Lemma build_tree_reserved es t :
  reserved_leaf t = true -> Forall (fun e => no_reserved e.1) es ->
  reserved_leaf (build_tree es t) = true.
Proof.
  apply build_tree_all_nodes; [done|done| | |done].
  - intros k fr ps key c Hk. by rewrite assoc_set_ne by congruence.
  - intros k fr ps x _. by rewrite assoc_set_eq.
Qed.

(** The objects of the built tree are the root and the paths the loop
    pushes, key after key. *)
Lemma build_tree_obj_at es t R :
  reserved_leaf t = true -> (forall q, obj_at t q = true <-> q ∈ R) ->
  Forall (fun e => e.1 <> [] /\ no_reserved e.1) es ->
  forall q, obj_at (build_tree es t) q = true <-> q ∈ R ++ pushed_all es t.
Proof.
  revert t R. induction es as [|[p v] es IH]; intros t R Ht HR Hes q.
  - by rewrite app_nil_r.
  - apply Forall_cons in Hes as [[Hp Hres] Hes]. cbn [build_tree fold_left pushed_all fst snd].
    rewrite app_assoc. apply IH; [| |done].
    + apply (build_tree_reserved [(p, v)]); [done|by repeat constructor].
    + intros q'. rewrite ins_obj_at, HR, elem_of_app by done. done.
Qed.

(** ** [loadFromObject] with [freeze] *)

(** With [freeze] set, [loadFromObject] returns the tree it builds
    without it, frozen all the way down: [refs] reaches every object. *)
Lemma load_frozen_tree entries opts :
  opt_freeze opts = true -> ~ In "hasOwnProperty" (map fst entries) ->
  Forall (fun e => safe_key (opt_prefix opts) e.1 = true /\ nullish (parseValue e.2) = false) entries ->
  loadFromObject (prim_source entries) opts =
    Ok (deep_freeze (build_tree (flat_entries (opt_prefix opts) entries) empty_object)).
Proof.
  intros Hfr Hhop Hes. rewrite loadFromObject_keys by (by apply owns_hop_prim_source).
  rewrite load_keys_build by done. rewrite res_bind_ret, Hfr. cbn [fst snd].
  pose proof (flat_entries_paths (opt_prefix opts) entries) as Hps.
  assert (Hres : Forall (fun e => no_reserved e.1) (flat_entries (opt_prefix opts) entries))
    by (eapply List.Forall_impl; [|exact Hps]; naive_solver).
  set (t := build_tree _ empty_object).
  assert (Hnd : nodup_keys t = true) by (apply build_tree_nodup; [done|exact Hres]).
  assert (Hobj : forall q, obj_at t q = true <->
                 q ∈ [[]] ++ pushed_all (flat_entries (opt_prefix opts) entries) empty_object).
  { apply build_tree_obj_at; [done| |exact Hps].
    intros q. rewrite obj_at_empty, list_elem_of_singleton. done. }
  rewrite freeze_refs_mark by (done || (apply List.Forall_forall; intros q Hq;
    apply Hobj, list_elem_of_In, Hq)).
  f_equal. apply mark_covers; [done|]. intros q. apply Hobj.
Qed.

Lemma get_entry_freeze t q : get_entry (deep_freeze t) q = get_entry t q.
Proof.
  unfold get_entry. rewrite freeze_get_path.
  destruct (get_path t q) as [[x|k fr ps]|]; [done| |done]. cbn [fmap option_fmap option_map deep_freeze].
  rewrite assoc_map_freeze. by destruct (assoc "_" ps) as [[|]|].
Qed.

(** C4. The default options freeze ([default_options], line 17): then
    [loadFromObject], on a source that owns no [hasOwnProperty], returns
    a tree whose objects are all frozen and which denotes the same flat
    configuration as without freezing. *)
Theorem loadFromObject_frozen entries opts :
  opt_freeze opts = true -> ~ In "hasOwnProperty" (map fst entries) ->
  Forall (fun e => safe_key (opt_prefix opts) e.1 = true /\ nullish (parseValue e.2) = false) entries ->
  exists t, loadFromObject (prim_source entries) opts = Ok t /\ deep_frozen t = true /\
    forall q, no_reserved q ->
      get_entry t q = flat_map (flat_entries (opt_prefix opts) entries) ∅ !! q.
Proof.
  intros Hfr Hhop Hes. rewrite load_frozen_tree by done. eexists. split; [reflexivity|].
  split; [apply freeze_frozen|]. intros q Hq. rewrite get_entry_freeze.
  apply build_tree_get_entry; [apply flat_entries_paths|done|].
  intros q' _. rewrite lookup_empty. apply get_entry_empty.
Qed.

Lemma loadFromObject_frozen_witness :
  exists t, loadFromObject (prim_source [("a", PStr "x"); ("a_b", PStr "y"); ("c_d", PStr "1")])
                           (mk_options true None None None) = Ok t /\
    deep_frozen t = true /\
    forall q, no_reserved q ->
      get_entry t q = flat_map (flat_entries None [("a", PStr "x"); ("a_b", PStr "y"); ("c_d", PStr "1")]) ∅ !! q.
Proof. apply loadFromObject_frozen; [reflexivity|cbn; intuition discriminate|repeat constructor]. Defined.
