(* ===== verification/Loaders.v ===== *)
(** * Loaders: the environment and command-line sources

    [loadFromEnv] ([src/index.js] lines 112-114) runs [loadFromObject] on
    [process.env]; [loadFromArgv] (lines 158-169) cleans every argument
    string, hands them to the flag parser [minimist], drops its [_]
    bucket of positional arguments and runs [loadFromObject] without a
    prefix.  The flag parser is [Minimist.minimist]. *)

From S2P Require Import Prelude JsString JsNumber JsValue OwnKeys Coercer Normalizer PathBuilder Merge Minimist.
From Stdlib Require Import Ascii.
Import PathBuilder.Walk PathBuilder.Spec.

(** [process.env]: variable names and their string values. *)
Definition env_entries (env : list (string * string)) : list (string * prim) :=
  map (fun kv => (kv.1, PStr kv.2)) env.

Definition loadFromEnv (env : list (string * string)) (opts : options) : res value :=
  loadFromObject (prim_source (env_entries env)) opts.

(** A variable named [hasOwnProperty] is an own property of
    [process.env], which shadows [Object.prototype.hasOwnProperty]. *)
Lemma env_owns_hop env :
  In "hasOwnProperty" (map fst env) -> owns_hop (prim_source (env_entries env)) = true.
Proof.
  intros Hin. apply owns_hop_In. unfold prim_source, env_entries. by rewrite !map_map.
Qed.

(** Line 160: [clean] is applied to every argument string, the values of
    [--key=value] included. *)
Definition clean (arg : string) : string := collapse_seps (to_lower arg).

Definition clean_argv (argv : list string) : list string := map clean (drop 2 argv).

(** Line 163: [delete result._]. *)
Definition flag_entries (parsed : list (string * value)) : list (string * value) :=
  List.filter (fun kv => negb (String.eqb kv.1 "_")) parsed.

(** Lines 160-163: [process.argv.slice(2).map(clean)] parsed, without
    its bucket [_], in the order [for (key in obj)] (line 33) visits the
    parsed object: array indices first. *)
Definition argv_entries (argv : list string) : res (list (string * value)) :=
  (fun parsed => own_keys (flag_entries parsed)) <$> minimist (clean_argv argv).

(** Lines 158-169: the prefix is ignored. *)
Definition loadFromArgv (argv : list string) (opts : options) : res value :=
  entries ← argv_entries argv;
  loadFromObject entries (mk_options (opt_freeze opts) None None None).

Lemma loadFromArgv_entries argv opts es :
  argv_entries argv = Ok es ->
  loadFromArgv argv opts = loadFromObject es (mk_options (opt_freeze opts) None None None).
Proof. unfold loadFromArgv. by intros ->. Qed.

Lemma collapse_from_no_dot b s : has_char "."%char (collapse_from b s) = false.
Proof.
  revert b. induction s as [|c r IH]; intros b; [done|]. cbn [collapse_from].
  destruct (is_sep c) eqn:Hc; [destruct b; [apply IH|]|]; cbn [has_char]; rewrite IH, orb_false_r.
  - done.
  - unfold is_sep in Hc. apply orb_false_iff in Hc as [_ Hc]. by rewrite Ascii.eqb_sym.
Qed.

(** ** Properties *)

(** C8. Round trip of the command line: arguments [--name=value] whose
    cleaning changes nothing, with distinct plain names, reach
    [loadFromObject] as exactly the pairs written, each value read as
    the flag parser reads numbers, in the order [for..in] enumerates
    them: names that are array indices first, ascending, then the
    others as written. *)
Theorem argv_entries_roundtrip node script kvs :
  NoDup ("_" :: map fst kvs) -> forallb (fun kv => plain_flag kv.1) kvs = true ->
  Forall (fun kv => clean (encode_flag kv) = encode_flag kv) kvs ->
  argv_entries (node :: script :: map encode_flag kvs) =
  Ok (own_keys (map (fun kv => (kv.1, arg_value (RStr kv.2))) kvs)).
Proof.
  intros Hnd Hp Hc. unfold argv_entries, clean_argv. cbn [drop]. change (drop 0 ?l) with l.
  rewrite map_map, (map_ext_in _ encode_flag) by (intros kv Hkv; by apply List.Forall_forall with (x := kv) in Hc).
  rewrite minimist_long_roundtrip by done. cbn. do 2 f_equal.
  apply NoDup_cons in Hnd as [H_ _]. clear Hp Hc. induction kvs as [|[k v] kvs IH]; [done|].
  cbn [map fst] in H_ |- *. cbn [List.filter fst].
  destruct (String.eqb_spec k "_") as [->|_]; [set_solver|]. cbn [negb]. f_equal. apply IH. set_solver.
Qed.

Lemma argv_entries_roundtrip_witness :
  NoDup ("_" :: map fst [("port", "8080"); ("host", "example_com")]) /\
  forallb (fun kv => plain_flag kv.1) [("port", "8080"); ("host", "example_com")] = true /\
  Forall (fun kv => clean (encode_flag kv) = encode_flag kv) [("port", "8080"); ("host", "example_com")] /\
  argv_entries ("node" :: "app.js" :: map encode_flag [("port", "8080"); ("host", "example_com")]) =
  Ok [("port", VPrim (PNum (Finite false 808 1))); ("host", VPrim (PStr "example_com"))].
Proof.
  assert (Hnd : NoDup ("_" :: map fst [("port", "8080"); ("host", "example_com")]))
    by (repeat constructor; set_solver).
  assert (Hc : Forall (fun kv => clean (encode_flag kv) = encode_flag kv)
                 [("port", "8080"); ("host", "example_com")]) by (repeat constructor).
  split; [exact Hnd|]. split; [reflexivity|]. split; [exact Hc|].
  rewrite (argv_entries_roundtrip "node" "app.js" _ Hnd eq_refl Hc). vm_compute. reflexivity.
Defined.

(** A bare flag [--verbose] is [true] and [--no-color] is [false]
    for the flag parser, but [parseValue] turns booleans into numbers
    ([+true] is 1): the configuration holds [verbose: 1] and
    [color: 0]. *)
Example argv_boolean_flags_numbers :
  loadFromArgv ["node"; "app.js"; "--verbose"; "--no-color"] (mk_options false None None None) =
  Ok (VObj KObject false [("verbose", VPrim (PNum JsNumber.one)); ("color", VPrim (PNum JsNumber.zero))]).
Proof. vm_compute. reflexivity. Qed.

(** C7. The parse of the cleaned command line either gives an object
    with distinct keys whose bucket [_] is an array, or throws a
    [TypeError] ([--=a=b], or a name of [Object.prototype] such as
    [--constructor], whose entry in the parser's option tables is an
    inherited function); the case of a nested key, left out of the model,
    never arises, since [clean] turns every [.] into [_]. *)
Theorem argv_parse_outcome argv : parse_outcome argv_wf (minimist (clean_argv argv)).
Proof.
  apply minimist_outcome. apply List.Forall_forall. intros a Ha.
  unfold clean_argv in Ha. apply in_map_iff in Ha as (s & <- & _). apply collapse_from_no_dot.
Qed.

(** Command lines the parser rejects: an [=] right after [--], and
    [--constructor], whose alias entry is [Object]; both throw a
    [TypeError]. *)
Example argv_parse_errors :
  loadFromArgv ["node"; "app.js"; "--=a=b"] default_options = Err TypeError /\
  loadFromArgv ["node"; "app.js"; "--Constructor=x"] default_options = Err TypeError.
Proof. split; vm_compute; reflexivity. Qed.

(** C20. Spec section 5 normalises the flag keys only; line 160 cleans
    the whole argument, so the value of every [--name=value] is
    lower-cased and its runs of [_] and [.] collapsed to one [_] as well
    as its name ([--domain=My.App.com] reaches the parser as
    [--domain=my_app_com]). *)
Theorem clean_flag_values node script kvs :
  clean_argv (node :: script :: map encode_flag kvs) =
  map (fun kv => encode_flag (clean kv.1, clean kv.2)) kvs.
Proof.
  unfold clean_argv. cbn [drop]. change (drop 0 ?l) with l. rewrite map_map.
  apply map_ext. intros [k v]. unfold clean, encode_flag, collapse_seps. cbn [fst snd].
  rewrite !to_lower_app. cbn [to_lower]. change (to_lower_char "=") with "="%char.
  change (to_lower_char "-") with "-"%char.
  change (String "-"%char (String "-"%char "") +:+ ?x) with (String "-"%char (String "-"%char x)).
  rewrite !collapse_from_other, collapse_from_app by reflexivity. reflexivity.
Qed.

(** An environment variable named [CONSTRUCTOR] (or [APP_CONSTRUCTOR_X]
    ...) makes the loop test [part in level] true through
    [Object.prototype.constructor] and write into the global [Object]
    function instead of the configuration ([Object._ = 'x'], line 66);
    the model stops there ([Proto]). *)
Example env_constructor_key :
  loadFromEnv [("CONSTRUCTOR", "x")] default_options = Err (Proto "constructor").
Proof. reflexivity. Qed.

(** Spec section 8 says merging the environment tree and a file tree is
    equivalent, path by path, to building one tree from the concatenated
    entries.  It is not: [extend] replaces the environment's scalar [a]
    by the file's object, while the builder keeps it under ["_"]. *)
Theorem merge_not_concatenation :
  exists ta tb tab r,
    loadFromEnv [("a", "x")] (mk_options false None None None) = Ok ta /\
    loadFromEnv [("a_b", "y")] (mk_options false None None None) = Ok tb /\
    extend ta tb = Ok r /\
    loadFromEnv [("a", "x"); ("a_b", "y")] (mk_options false None None None) = Ok tab /\
    get_entry tab ["a"] = Some (PStr "x") /\ get_entry r ["a"] = None.
Proof. do 4 eexists. repeat split; vm_compute; reflexivity. Qed.

(** [for (key in obj)] visits the array indices of the parser's
    object first: [--_1=a --1=b] are two flags for the path [1], and the
    one written first wins, because the key [1] is visited before [_1];
    for names that are not indices ([--_x=a --x=b]) the flag written
    last wins. *)
Example argv_index_keys_first :
  argv_entries ["node"; "app.js"; "--_1=a"; "--1=b"] =
    Ok [("1", VPrim (PStr "b")); ("_1", VPrim (PStr "a"))] /\
  loadFromArgv ["node"; "app.js"; "--_1=a"; "--1=b"] default_options =
    Ok (VObj KObject true [("1", VPrim (PStr "a"))]) /\
  loadFromArgv ["node"; "app.js"; "--_x=a"; "--x=b"] default_options =
    Ok (VObj KObject true [("x", VPrim (PStr "b"))]).
Proof. repeat split; vm_compute; reflexivity. Qed.

Lemma plain_flag_safe k : plain_flag k = true -> inherited KObject k = false.
Proof.
  unfold plain_flag, inherited. rewrite !andb_true_iff, !negb_true_iff. intros [[_ H] _].
  by rewrite H.
Qed.

Lemma plain_flag_no_hop k x : plain_flag k = true -> owns_hop [(k, x)] = false.
Proof.
  intros Hk. unfold owns_hop. rewrite assoc_cons.
  destruct (String.eqb_spec "hasOwnProperty" k) as [<-|]; [done|]. done.
Qed.

Lemma clean_dashes k : clean ("--" +:+ k) = "--" +:+ clean k.
Proof. reflexivity. Qed.

Lemma clean_no k : clean ("--no-" +:+ k) = "--no-" +:+ clean k.
Proof. reflexivity. Qed.

(** The parse of [node script arg] without its bucket [_]. *)
Lemma argv_entries_single node script arg k x :
  k <> "_" -> minimist [clean arg] = Ok (set_key [("_", empty_array)] k (VPrim x)) ->
  argv_entries [node; script; arg] = Ok [(k, VPrim x)].
Proof.
  intros H_ Hm. unfold argv_entries, clean_argv. cbn [drop map]. rewrite Hm.
  unfold set_key. cbn. rewrite !(proj2 (String.eqb_neq _ _) H_). cbn.
  destruct (k =? "_")%string eqn:E; [apply String.eqb_eq in E; contradiction|].
  cbn. by rewrite own_keys_single.
Qed.

(** A command line of one plain flag holding a primitive. *)
Lemma loadFromArgv_single node script arg k x opts :
  argv_entries [node; script; arg] = Ok [(k, VPrim x)] -> plain_flag k = true ->
  key_parts None k = Some [k] ->
  loadFromArgv [node; script; arg] opts =
    Ok (VObj KObject (opt_freeze opts) [(k, VPrim (parseValue x))]).
Proof.
  intros He Hk Hkp. rewrite (loadFromArgv_entries _ _ _ He).
  rewrite PathBuilder.Contract.loadFromObject_keys by (by apply plain_flag_no_hop).
  cbn [load_keys opt_prefix].
  rewrite (PathBuilder.Contract.load_key_ins None empty_object [[]] k _ [k]);
    [|done|done|done|repeat constructor; by apply plain_flag_safe].
  cbn. by destruct (opt_freeze opts).
Qed.

(** C14. Spec section 5 reads bare flags as booleans, and section 4.2
    passes values that are not strings through unchanged.  The parser
    does give [true] for [--name] and [false] for [--no-name], but
    [parseValue] turns them into [+true] and [+false]: the
    configuration holds the numbers 1 and 0. *)
Theorem argv_bare_flags node script k opts :
  plain_flag k = true -> String.prefix "no-" k = false -> k <> "_" -> clean k = k ->
  key_parts None k = Some [k] ->
  loadFromArgv [node; script; "--" +:+ k] opts =
    Ok (VObj KObject (opt_freeze opts) [(k, VPrim (PNum JsNumber.one))]) /\
  loadFromArgv [node; script; "--no-" +:+ k] opts =
    Ok (VObj KObject (opt_freeze opts) [(k, VPrim (PNum JsNumber.zero))]).
Proof.
  intros Hk Hno H_ Hc Hkp.
  assert (Hd : forall pre, pre +:+ k <> "--" -> clean (pre +:+ k) = pre +:+ clean k ->
            parse_args [pre +:+ k] [("_", empty_array)] = Ok (set_key [("_", empty_array)] k (VPrim (PBool (String.eqb pre "--")))) ->
            argv_entries [node; script; pre +:+ k] = Ok [(k, VPrim (PBool (String.eqb pre "--")))]).
  { intros pre Hne Hcl Hp. apply argv_entries_single; [done|]. rewrite Hcl, Hc.
    by apply minimist_single. }
  split.
  - rewrite (loadFromArgv_single _ _ _ k (PBool true)); [reflexivity| |done|done].
    apply (Hd "--"); [intros E; destruct k; [discriminate Hk|discriminate E]|apply clean_dashes|].
    by apply bare_flag_parse.
  - rewrite (loadFromArgv_single _ _ _ k (PBool false)); [reflexivity| |done|done].
    apply (Hd "--no-"); [discriminate|apply clean_no|]. by apply no_flag_parse.
Qed.

Lemma argv_bare_flags_witness :
  loadFromArgv ["node"; "app.js"; "--verbose"] default_options =
    Ok (VObj KObject true [("verbose", VPrim (PNum JsNumber.one))]) /\
  loadFromArgv ["node"; "app.js"; "--no-verbose"] default_options =
    Ok (VObj KObject true [("verbose", VPrim (PNum JsNumber.zero))]).
Proof. apply (argv_bare_flags "node" "app.js" "verbose" default_options); reflexivity || discriminate. Defined.

(** The entries of a command line repeating one plain flag. *)
Lemma argv_entries_repeated node script k v1 v2 vs :
  plain_flag k = true -> k <> "_" ->
  Forall (fun v => clean (encode_flag (k, v)) = encode_flag (k, v)) (v1 :: v2 :: vs) ->
  argv_entries (node :: script :: map (fun v => encode_flag (k, v)) (v1 :: v2 :: vs)) =
  Ok [(k, flag_array (map (fun v => arg_value (RStr v)) (v1 :: v2 :: vs)))].
Proof.
  intros Hk H_ Hc. unfold argv_entries, clean_argv. cbn [drop]. change (drop 0 ?l) with l.
  rewrite map_map, (map_ext_in _ (fun v => encode_flag (k, v)))
    by (intros v Hv; by apply List.Forall_forall with (x := v) in Hc).
  unfold minimist. rewrite split_dashdash_none.
  - assert (Hnew : assoc k [("_", empty_array)] = None)
      by (cbn; destruct (String.eqb_spec k "_"); congruence).
    rewrite parse_args_repeated by done.
    cbn. destruct (String.eqb_spec k "_") as [|_]; [done|]. cbn. by rewrite own_keys_single.
  - apply List.Forall_forall. intros a Ha. apply in_map_iff in Ha as (v & <- & _).
    apply encode_flag_not_dashes.
Qed.

(** C22. Spec section 2: after freezing, nothing reachable from the result
    can be changed.  A plain flag given two or more times
    ([--tag=a --tag=b ...]) reaches [loadFromArgv] as the array of its
    values in order; [parseValue] keeps an array of two or more
    elements and the loop stores it as it is, and [refs] only holds the
    objects the loop creates: with [freeze] on, the result is frozen but
    the array in it is not. *)
Theorem argv_repeated_flag node script k v1 v2 vs opts :
  plain_flag k = true -> k <> "_" -> key_parts None k = Some [k] ->
  Forall (fun v => clean (encode_flag (k, v)) = encode_flag (k, v)) (v1 :: v2 :: vs) ->
  loadFromArgv (node :: script :: map (fun v => encode_flag (k, v)) (v1 :: v2 :: vs)) opts =
  Ok (VObj KObject (opt_freeze opts)
        [(k, flag_array (map (fun v => arg_value (RStr v)) (v1 :: v2 :: vs)))]).
Proof.
  intros Hk H_ Hkp Hc. rewrite (loadFromArgv_entries _ _ _ (argv_entries_repeated _ _ _ _ _ _ Hk H_ Hc)).
  rewrite PathBuilder.Contract.loadFromObject_keys by (by apply plain_flag_no_hop).
  cbn [load_keys opt_prefix].
  rewrite (PathBuilder.Contract.load_key_ins None empty_object [[]] k _ [k]);
    [|done|done|done|repeat constructor; by apply plain_flag_safe].
  unfold flag_array at 1. rewrite parseValue_array_kept by (rewrite length_imap; cbn; lia).
  cbn. by destruct (opt_freeze opts).
Qed.

Lemma argv_repeated_flag_witness :
  plain_flag "tag" = true /\ "tag" <> "_" /\ key_parts None "tag" = Some ["tag"] /\
  Forall (fun v => clean (encode_flag ("tag", v)) = encode_flag ("tag", v)) ["a"; "b"] /\
  loadFromArgv ["node"; "app.js"; "--tag=a"; "--tag=b"] default_options =
  Ok (VObj KObject true
        [("tag", VObj KArray false [("0", VPrim (PStr "a")); ("1", VPrim (PStr "b"))])]).
Proof.
  assert (Hk : plain_flag "tag" = true) by reflexivity.
  assert (H_ : "tag" <> "_") by discriminate.
  assert (Hkp : key_parts None "tag" = Some ["tag"]) by reflexivity.
  assert (Hc : Forall (fun v => clean (encode_flag ("tag", v)) = encode_flag ("tag", v)) ["a"; "b"])
    by (repeat constructor).
  split; [exact Hk|]. split; [exact H_|]. split; [exact Hkp|]. split; [exact Hc|].
  exact (argv_repeated_flag "node" "app.js" "tag" "a" "b" [] default_options Hk H_ Hkp Hc).
Defined.
