(* ===== verification/Orchestrator.v ===== *)
(** * Orchestrator: [loadConfiguration], [loadFromFile], [filesByEnv]

    [loadConfiguration(paths..., options, callback)] ([src/index.js]
    lines 178-236) takes the callback and the options off the end of its
    arguments, loads the environment synchronously, looks for
    [<dir>/<NODE_ENV or development>.json] in the configured directories
    ([filesByEnv], lines 264-282), loads every file ([loadFromFile],
    lines 116-156), merges the environment, the files in order and the
    flags with [extend], freezes the result and reports it to the
    callback and the promise.

    The asynchronous steps run one after the other on one thread and each
    tree is built before it is merged (spec section 5), so the model is a
    sequential function that returns what the caller observes: a
    synchronous exception, the list of callback calls and promise
    settlements in order, or the key through which the run leaves the
    model.  The world is an input: the environment, the command line,
    the file system ([io_read], [io_exists]), the time at which the
    read of each path completes ([io_time]) and whether the caller's
    callback throws.  Reading a file and [JSON.parse] are not modelled:
    [io_read] gives the parsed value or the failure.  When several
    files fail, [Promise.all] rejects with the one that fails first in
    time ([first_failure]). *)

From S2P Require Import Prelude JsString JsNumber JsValue Coercer Normalizer PathBuilder Merge Freeze FreezeRefs Loaders.
Import PathBuilder.Walk.
From Stdlib Require Import Ascii.

(** ** Options and arguments *)

(** An options object as the caller writes it: each field absent
    ([None]) or given, with the types of the JSDoc (line 174). *)
Record user_options := mk_user_options {
  uo_freeze : option bool;
  uo_prefix : option (option string);
  uo_dirs : option (option (list string));
  uo_dir : option (option string)
}.

(** [extend(opts, options)] on the options: a given field replaces the
    default ([dirs] is copied element by element into a fresh array,
    since the default is [null]). *)
Definition merge_options (o : options) (u : user_options) : options :=
  mk_options (default (opt_freeze o) (uo_freeze u))
             (default (opt_prefix o) (uo_prefix u))
             (default (opt_dirs o) (uo_dirs u))
             (default (opt_dir o) (uo_dir u)).

(** An argument of [loadConfiguration] or [loadFromFile]: a path string,
    an options object or the caller's callback function. *)
Inductive arg : Type :=
  | APath (s : string)
  | AOptions (u : user_options)
  | ACallback.

(** [a instanceof Object]: objects and functions. *)
Definition arg_is_object (a : arg) : bool :=
  match a with APath _ => false | _ => true end.

(** [a instanceof Function]. *)
Definition arg_is_function (a : arg) : bool :=
  match a with ACallback => true | _ => false end.

(** [extend(opts, a)] for an argument that is an object: a function has
    no own enumerable property and changes nothing. *)
Definition merge_arg (o : options) (a : arg) : options :=
  match a with AOptions u => merge_options o u | _ => o end.

Definition pop_last {A} (l : list A) : option (list A * A) :=
  match rev l with
  | [] => None
  | x :: r => Some (rev r, x)
  end.

(** ** Paths *)

(** The last segment of a path, trailing [/] ignored: [cur] is the
    segment being read, [prev] the last complete one. *)
Fixpoint last_segment (s : string) (prev cur : string) : string :=
  match s with
  | EmptyString => if String.eqb cur "" then prev else cur
  | String c r =>
      if Ascii.eqb c "/"%char then last_segment r (if String.eqb cur "" then prev else cur) EmptyString
      else last_segment r prev (cur +:+ String c EmptyString)
  end.

Fixpoint ext_from (s : string) (i : nat) (best : option nat) : option nat :=
  match s with
  | EmptyString => best
  | String c r => ext_from r (S i) (if Ascii.eqb c "."%char then Some i else best)
  end.

(** [path.extname(file)] is not empty (Node's posix [extname]): the
    last segment, trailing [/] ignored, has a [.] after its first
    character, and is not [..]. *)
Definition has_extname (file : string) : bool :=
  let seg := last_segment file EmptyString EmptyString in
  negb (String.eqb seg "..") &&
  match ext_from seg 0 None with
  | Some (S _) => true
  | _ => false
  end.

(** One segment of [path.resolve]'s normalisation: empty segments and
    [.] are dropped, [..] removes the previous segment (nothing above
    the root). *)
Definition push_segment (acc : list string) (seg : string) : list string :=
  if String.eqb seg "" || String.eqb seg "." then acc
  else if String.eqb seg ".." then tl acc
  else seg :: acc.

(** [expand = path.resolve.bind(path, base)] (line 11) with an absolute
    [base]: a relative path is put under [base], and the result is
    normalised (no empty, [.] or [..] segment, no trailing [/]). *)
Definition expand (base p : string) : string :=
  let full := if String.prefix "/" p then p else base +:+ "/" +:+ p in
  "/" +:+ join_with "/"%char (rev (fold_left push_segment (split_on "/"%char full) [])).

Example expand_samples :
  map (expand "/app/src") ["conf.json"; "./conf.json"; "../etc/conf.json"; ".//x.json"; "/abs/./y.json"; "a/"]
  = ["/app/src/conf.json"; "/app/src/conf.json"; "/app/etc/conf.json"; "/app/src/x.json";
     "/abs/y.json"; "/app/src/a"].
Proof. reflexivity. Qed.

(** Lines 253-255. *)
Definition resolvePath (base file : string) : string :=
  expand base (if has_extname file then file else file +:+ ".json").

(** ** The world and what the caller observes *)

(** What [fs.readFile] followed by [JSON.parse] gives for a path. *)
Inductive file_read : Type :=
  | FMissing                  (* [readFile] fails, e.g. ENOENT *)
  | FInvalid (msg : string)   (* [JSON.parse] throws with [msg] *)
  | FParsed (v : value).

(** The errors a caller can see. *)
Inductive load_error : Type :=
  | EJs (e : error)                 (* thrown by the model's own code *)
  | ENoFile (path : string)         (* the [readFile] error *)
  | EBadJson (path msg : string)    (* line 143 *)
  | EThrown.                        (* what the caller's callback threw *)

(** The arguments of a callback call: [cb(err)] or [cb(null, result)]. *)
Inductive payload : Type :=
  | PErr (e : load_error)
  | POk (v : value).

Inductive event : Type :=
  | ECall (p : payload)       (* the caller's callback is called *)
  | EResolve (v : value)      (* the returned promise is fulfilled *)
  | EReject (e : load_error)  (* the returned promise is rejected *)
  | EUnhandled                (* an exception escapes to the event loop *)
  | EOutside (key : string).  (* the run reads or writes [key] through the
                                 prototype chain and goes on outside the model *)

(** A call either throws synchronously or returns a promise; the events
    are what happens afterwards, in order. *)
Inductive outcome : Type :=
  | OThrow (e : load_error)
  | OOutside (key : string)
  | OEvents (evs : list event).

Record world := mk_world {
  io_env : list (string * string);      (* [process.env] *)
  io_argv : list string;                (* [process.argv] *)
  io_base : string;                     (* [base], the directory of the requiring module (line 10) *)
  io_read : string -> file_read;
  io_time : string -> nat;              (* when the read of a path completes *)
  io_exists : string -> bool;           (* [fs.exists] *)
  io_cb_throws : payload -> bool        (* the caller's callback throws *)
}.

#[export] Instance load_error_eq_dec : EqDecision load_error.
Proof. solve_decision. Defined.

Section World.
Context (io : world).

(** ** [loadFromFile] (lines 116-156) *)

(** Lines 117-128 on the arguments after [path]: the options and the
    callback ([None] is [noop]).  A function is an [Object], so the
    [instanceof Function] branch is never taken. *)
Definition loadFromFile_setup (rest : list arg) : options * option arg :=
  let callback := match rest with _ :: c :: _ => Some c | _ => None end in
  let '(opts, callback) :=
    match rest with
    | [] => (default_options, callback)
    | o :: _ =>
        if arg_is_object o then (merge_arg default_options o, callback)
        else if arg_is_function o then (default_options, Some o)
        else (default_options, callback)
    end in
  (opts, match callback with Some (APath "") => None | c => c end).

(** Lines 132-147 for a resolved path: the read and parse error, or the
    parsed value. *)
Definition read_file (path : string) : load_error + value :=
  match io_read io path with
  | FMissing => inl (ENoFile path)
  | FInvalid msg => inl (EBadJson path msg)
  | FParsed v => inr v
  end.

(** [callback(...)] in the [readFile] callback, then [k]: an exception
    there (the caller's, or calling a value that is not a function)
    escapes to the event loop. *)
Definition invoke (callback : option arg) (p : payload) (k : list event) : list event :=
  match callback with
  | None => k
  | Some ACallback => ECall p :: (if io_cb_throws io p then [EUnhandled] else k)
  | Some _ => [EUnhandled]
  end.

(** Lines 116-156; [path.extname] of a value that is not a string
    throws.  A [freeze] that throws (line 150) throws inside the
    [readFile] callback: neither the callback nor the promise hears of
    it. *)
Definition loadFromFile (args : list arg) : outcome :=
  match args with
  | APath file :: rest =>
      let '(opts, callback) := loadFromFile_setup rest in
      let path := resolvePath (io_base io) file in
      match read_file path with
      | inl e => OEvents (invoke callback (PErr e) [EReject e])
      | inr v =>
          match (if opt_freeze opts then freeze v else Ok v) with
          | Ok v' => OEvents (invoke callback (POk v') [EResolve v'])
          | Err _ => OEvents [EUnhandled]
          end
      end
  | _ => OThrow (EJs TypeError)
  end.

(** ** [filesByEnv] (lines 264-282) *)

Definition env_name : string :=
  match assoc "NODE_ENV" (io_env io) with
  | Some v => if String.eqb v "" then "development" else v
  | None => "development"
  end.

(** [exists] (lines 257-262): the promise of [fs.exists], which never
    rejects. *)
Definition file_exists (path : string) : bool := io_exists io path.

(** [Promise.all(paths.map(exists))], then the paths found, in order. *)
Definition filesByEnv (dirs : list string) : list string :=
  List.filter file_exists
         (map (fun dir => expand (io_base io) (dir +:+ "/" +:+ env_name +:+ ".json")) dirs).

(** ** [loadConfiguration] (lines 178-236) *)

(** Lines 179-188: a trailing function is the callback, then a trailing
    object (a second function included) is merged into the options. *)
Definition dispatch (args : list arg) : list arg * options * bool :=
  let '(files, cb) := match pop_last args with
                      | Some (fs, ACallback) => (fs, true)
                      | _ => (args, false)
                      end in
  match pop_last files with
  | Some (fs, a) => if arg_is_object a then (fs, merge_arg default_options a, cb)
                    else (files, default_options, cb)
  | None => (files, default_options, cb)
  end.

(** Lines 193-197. *)
Definition config_dirs (opts : options) : option (list string) :=
  match opt_dirs opts with
  | Some ds => Some ds
  | None => match opt_dir opts with Some d => Some [d] | None => None end
  end.

(** Lines 198-204: the files the directories contribute. *)
Definition found_files (opts : options) : list arg :=
  match config_dirs opts with
  | Some ds => map APath (filesByEnv ds)
  | None => []
  end.

(** [files.map(...)] calls [resolvePath] on every file: [None] when one
    is not a string. *)
Fixpoint paths_of (files : list arg) : option (list string) :=
  match files with
  | [] => Some []
  | APath s :: fs => ps ← paths_of fs; Some (s :: ps)
  | _ :: _ => None
  end.

(** The failure [Promise.all] rejects with: the one that happens first
    in time ([t] is when the read completes; of two at the same time,
    the earlier in the list). *)
Fixpoint first_failure (rs : list (nat * (load_error + value))) : option (nat * load_error) :=
  match rs with
  | [] => None
  | (t, inl e) :: rs' =>
      match first_failure rs' with
      | Some (t', e') => if (t' <? t)%nat then Some (t', e') else Some (t, e)
      | None => Some (t, e)
      end
  | (_, inr _) :: rs' => first_failure rs'
  end.

Fixpoint all_values (rs : list (nat * (load_error + value))) : list value :=
  match rs with
  | [] => []
  | (_, inr v) :: rs' => v :: all_values rs'
  | (_, inl _) :: rs' => all_values rs'
  end.

(** [Promise.all]: the values in order, or the earliest failure. *)
Definition collect (rs : list (nat * (load_error + value))) : load_error + list value :=
  match first_failure rs with
  | Some (_, e) => inl e
  | None => inr (all_values rs)
  end.

(** The read of [p] by [loadFromFile(p, { freeze: false })], with the
    time it completes. *)
Definition timed_read (p : string) : nat * (load_error + value) :=
  let q := resolvePath (io_base io) p in (io_time io q, read_file q).

(** [files.forEach((file) => extend(result, file))]. *)
Fixpoint extend_all (result : value) (vs : list value) : res value :=
  match vs with
  | [] => Ok result
  | v :: vs' => r ← extend result v; extend_all r vs'
  end.

(** Lines 207-210 and 221-224: merge the flags, then freeze. *)
Definition finish (opts : options) (result : value) : res value :=
  flags ← loadFromArgv (io_argv io) opts;
  r ← extend result flags;
  if opt_freeze opts then freeze r else Ok r.

(** [.catch((err) => { cb(err); reject(err) })] (lines 229-232): when
    [cb] throws there, [reject] is not reached and the rejection of the
    detached chain is unhandled. *)
Definition report_error (cb : bool) (e : load_error) : list event :=
  if cb then ECall (PErr e) :: (if io_cb_throws io (PErr e) then [EUnhandled] else [EReject e])
  else [EReject e].

(** [cb(null, result); resolve(result)]; [on_throw] is what an exception
    thrown by [cb] leads to. *)
Definition report_ok (cb : bool) (r : value) (on_throw : list event) : list event :=
  if cb then ECall (POk r) :: (if io_cb_throws io (POk r) then on_throw else [EResolve r])
  else [EResolve r].

(** The [next.then] callback (lines 202-233); an exception thrown in it
    reaches [.catch(reject)] (line 234). *)
Definition after_found (cb : bool) (opts : options) (result : value) (files : list arg)
    : list event :=
  match files with
  | [] =>
      match finish opts result with
      | Err (Proto k) => [EOutside k]
      | Err e => [EReject (EJs e)]
      | Ok r => report_ok cb r [EReject EThrown]
      end
  | _ :: _ =>
      match paths_of files with
      | None => [EReject (EJs TypeError)]
      | Some ps =>
          match collect (map timed_read ps) with
          | inl e => report_error cb e
          | inr vs =>
              match r ← extend_all result vs; finish opts r with
              | Err (Proto k) => [EOutside k]
              | Err e => report_error cb (EJs e)
              | Ok r => report_ok cb r (report_error cb EThrown)
              end
          end
      end
  end.

Definition loadConfiguration (args : list arg) : outcome :=
  let '(files, opts, cb) := dispatch args in
  match loadFromEnv (io_env io) (mk_options false (opt_prefix opts) None None) with
  | Err (Proto k) => OOutside k
  | Err e => OThrow (EJs e)
  | Ok result => OEvents (after_found cb opts result (files ++ found_files opts))
  end.

End World.

(** ** The module's interface (lines 317-323)

    [module.exports] is [loadConfiguration] itself, with the loaders
    attached as properties. *)
Record api := mk_api {
  api_call : world -> list arg -> outcome;
  api_load : world -> list arg -> outcome;
  api_loadFromEnv : list (string * string) -> options -> res value;
  api_loadFromFile : world -> list arg -> outcome;
  api_loadFromArgv : list string -> options -> res value;
  api_loadFromObject : list (string * value) -> options -> res value
}.

Definition exports : api :=
  mk_api loadConfiguration loadConfiguration loadFromEnv loadFromFile loadFromArgv loadFromObject.

(** ** The trees of the loaders can be merged *)

Section Mergeable.
Import PathBuilder.Spec PathBuilder.Contract.

(** A key whose path segments are all safe to merge (no property name
    of [Object.prototype] or [Array.prototype]). *)
Definition mergeable_key (prefix : option string) (key : string) : bool :=
  match key_parts prefix key with
  | Some parts => forallb safe_name parts
  | None => true
  end.

Lemma merge_safe_set k fr ps key c :
  merge_safe (VObj k fr ps) = true -> merge_safe c = true -> safe_name key = true ->
  merge_safe (VObj k fr (assoc_set key c ps)) = true.
Proof.
  intros Hps Hc Hk. apply all_nodes_assoc_set; [done|done|].
  apply all_nodes_root in Hps. apply andb_true_iff in Hps as [Hs Hnd].
  apply andb_true_iff. split.
  - apply forallb_forall. intros [j w] Hin.
    destruct (assoc_set_In _ _ _ _ _ Hin) as [[-> _]|Hin']; [done|].
    by apply (proj1 (forallb_forall _ _) Hs (j, w)).
  - apply bool_decide_eq_true in Hnd. apply bool_decide_eq_true. by apply assoc_set_NoDup.
Qed.

Lemma merge_safe_child k fr ps key :
  merge_safe (VObj k fr ps) = true -> merge_safe (default empty_object (assoc key ps)) = true.
Proof. destruct (assoc key ps) eqn:E; [|done]. intros H. by eapply all_nodes_assoc. Qed.

Lemma merge_safe_wrap p : merge_safe (VObj KObject false [("_", VPrim p)]) = true.
Proof. reflexivity. Qed.

Lemma ins_merge_safe t segs v :
  merge_safe t = true -> Forall (fun s => safe_name s = true) segs ->
  merge_safe (ins t segs (VPrim v)) = true.
Proof.
  revert t. induction segs as [|k [|k' rest] IH]; intros t Ht Hs; [done| |];
    apply Forall_cons in Hs as [Hk Hs].
  - destruct t as [p|kd fr ps]; cbn [ins].
    + by apply merge_safe_set.
    + destruct (assoc k ps) as [[cp|ck cfr cps]|] eqn:E; apply merge_safe_set; try done.
      apply merge_safe_set; [|done|done]. by eapply all_nodes_assoc.
  - destruct t as [p|kd fr ps]; cbn [ins]; apply merge_safe_set; try done; apply IH; try done.
    by eapply merge_safe_child.
Qed.

Lemma build_tree_merge_safe es t :
  merge_safe t = true -> Forall (fun e => Forall (fun s => safe_name s = true) e.1) es ->
  merge_safe (build_tree es t) = true.
Proof.
  revert t. induction es as [|e es IH]; intros t Ht Hes; [done|].
  apply Forall_cons in Hes as [He Hes]. apply IH; [by apply ins_merge_safe|done].
Qed.

Lemma flat_entries_mergeable prefix entries :
  Forall (fun e => mergeable_key prefix e.1 = true) entries ->
  Forall (fun e => Forall (fun s => safe_name s = true) e.1) (flat_entries prefix entries).
Proof.
  induction entries as [|[key raw] es IH]; simpl; intros H; [constructor|].
  apply Forall_cons in H as [Hk H]. unfold mergeable_key in Hk; simpl in Hk.
  destruct (key_parts prefix key); [|auto]. constructor; [|auto].
  apply List.Forall_forall. intros s Hs. apply eff_In in Hs.
  by apply (proj1 (forallb_forall _ _) Hk).
Qed.

End Mergeable.

(** ** Merging layers *)

Section Layers.
Import PathBuilder.Spec PathBuilder.Refinement PathBuilder.Contract.

(** An entry of a source the loaders can build and merge: mergeable
    segments, a value that is not nullish after [parseValue], and not
    the key [hasOwnProperty], which makes line 34 throw. *)
Definition good_entry (prefix : option string) (e : string * prim) : bool :=
  mergeable_key prefix e.1 && negb (nullish (parseValue e.2)) && negb (String.eqb e.1 "hasOwnProperty").

Lemma good_entries prefix entries :
  forallb (good_entry prefix) entries = true ->
  Forall (fun e => safe_key prefix e.1 = true /\ nullish (parseValue e.2) = false) entries /\
  Forall (fun e => mergeable_key prefix e.1 = true) entries.
Proof.
  rewrite forallb_forall, !List.Forall_forall. unfold good_entry.
  intros H. split; intros [key raw] Hin; apply H in Hin; simpl in *;
    apply andb_true_iff in Hin as [[Hk Hv]%andb_true_iff _]; [split|done]; [|by destruct (nullish _)].
  unfold mergeable_key, safe_key in *. destruct (key_parts prefix key); [|done].
  apply forallb_forall. intros s Hs. apply (proj1 (forallb_forall _ _) Hk) in Hs.
  by rewrite (proj1 (safe_name_inherited KObject s Hs)).
Qed.

Lemma good_entries_no_hop prefix entries :
  forallb (good_entry prefix) entries = true -> ~ In "hasOwnProperty" (map fst entries).
Proof.
  intros H (e & He & Hin)%in_map_iff. apply (proj1 (forallb_forall _ _) H) in Hin. revert Hin.
  unfold good_entry. rewrite He. by rewrite String.eqb_refl, andb_false_r.
Qed.

Lemma build_tree_is_object es t : is_object t = true -> is_object (build_tree es t) = true.
Proof.
  revert t. induction es as [|e es IH]; intros t Ht; [done|]. apply IH. by apply ins_is_object.
Qed.

(** A source of good entries gives an object that can be merged,
    frozen when the options say so. *)
Lemma loader_tree entries opts :
  forallb (good_entry (opt_prefix opts)) entries = true ->
  exists t, loadFromObject (prim_source entries) opts = Ok (if opt_freeze opts then deep_freeze t else t) /\
    is_object t = true /\ unfrozen t = true /\ merge_safe t = true.
Proof.
  intros Hg. destruct (good_entries _ _ Hg) as [Hes Hms].
  pose proof (good_entries_no_hop _ _ Hg) as Hhop.
  exists (build_tree (flat_entries (opt_prefix opts) entries) empty_object).
  split; [|split; [|split]].
  - destruct (opt_freeze opts) eqn:Hfr; [by apply load_frozen_tree|].
    rewrite loadFromObject_keys by (by apply owns_hop_prim_source).
    rewrite load_keys_build by done. by rewrite res_bind_ret, Hfr.
  - by apply build_tree_is_object.
  - eapply all_nodes_impl; [|apply build_tree_inv; [apply inv_empty|]].
    2:{ apply flat_entries_values. eapply List.Forall_impl; [|exact Hes]. naive_solver. }
    intros [|k fr ps]; [done|]. simpl. rewrite andb_true_iff. tauto.
  - apply build_tree_merge_safe; [done|]. by apply flat_entries_mergeable.
Qed.

Lemma merge_safe_freeze t : merge_safe (deep_freeze t) = merge_safe t.
Proof.
  apply all_nodes_freeze. intros k fr fr' ps ps' Hk. cbn beta iota.
  rewrite <- !(forallb_map_ext fst safe_name (fun kv => safe_name kv.1)) by done.
  by rewrite Hk.
Qed.

Lemma is_object_freeze t : is_object (deep_freeze t) = is_object t.
Proof. by destruct t. Qed.

(** A file [extend] can merge: an object or array with distinct safe
    keys, a string (merged as the object of its characters,
    [Merge.string_object]), or a number, boolean or [null], which
    [extend] skips ([for (key in 5)] enumerates nothing). *)
Definition layer_ok (v : value) : bool :=
  match v with
  | VObj _ _ _ => merge_safe v
  | VPrim _ => true
  end.

(** What a layer decides for [p]: an object as [add_cut] says, a string
    as the object of its characters, a skipped scalar nothing. *)
Definition layer_cut (v : value) (p : path) : option (option prim) :=
  match v with
  | VObj _ _ _ => add_cut v p
  | VPrim (PStr s) => add_cut (string_object s) p
  | VPrim _ => None
  end.

(** The leaf at [p] after merging the layers [ls] into [base] in order:
    the last layer that reaches [p] decides, the base otherwise. *)
Definition layered_leaf (base : value) (ls : list value) (p : path) : option prim :=
  fold_left (fun acc add => match layer_cut add p with Some o => o | None => acc end)
            ls (get_leaf base p).

(** Merging one layer. *)
Lemma extend_layer base l :
  is_object base = true -> unfrozen base = true -> layer_ok l = true ->
  exists r, extend base l = Ok r /\ is_object r = true /\ unfrozen r = true /\
    forall p, get_leaf r p = match layer_cut l p with Some o => o | None => get_leaf base p end.
Proof.
  intros Hb Hfb Hl. destruct l as [[| | | |s]|k fr ps]; try by exists base.
  - rewrite extend_string_object.
    destruct (extend_merges base (string_object s) Hb Hfb eq_refl (merge_safe_string_object s))
      as (r & Hr & Hf & Ho & Hleaf). by exists r.
  - destruct (extend_merges base (VObj k fr ps) Hb Hfb eq_refl Hl) as (r & Hr & Hf & Ho & Hleaf).
    by exists r.
Qed.

Lemma layer_ok_merge_safe l : layer_ok l = true -> merge_safe l = true.
Proof. by destruct l. Qed.

Lemma extend_all_layers base ls :
  is_object base = true -> unfrozen base = true -> hop_free base = true ->
  Forall (fun v => layer_ok v = true) ls ->
  exists r, extend_all base ls = Ok r /\ is_object r = true /\ unfrozen r = true /\
    hop_free r = true /\ forall p, get_leaf r p = layered_leaf base ls p.
Proof.
  revert base. induction ls as [|l ls IH]; intros base Hb Hfb Hhb Hls; [by exists base|].
  apply Forall_cons in Hls as [Hl Hls].
  destruct (extend_layer base l Hb Hfb Hl) as (r1 & Hr1 & Ho1 & Hf1 & Hleaf1).
  pose proof (extend_hop_free l base r1 Hhb (layer_ok_merge_safe l Hl) Hr1) as Hh1.
  destruct (IH r1 Ho1 Hf1 Hh1 Hls) as (r & Hr & Ho & Hf & Hh & Hleaf).
  exists r. cbn [extend_all]. rewrite Hr1, res_bind_ret. do 4 (split; [done|]).
  intros p. rewrite Hleaf. unfold layered_leaf. cbn [fold_left]. by rewrite Hleaf1.
Qed.

End Layers.

(** ** [Promise.all] *)

Lemma first_failure_In rs t e : first_failure rs = Some (t, e) -> In (t, inl e) rs.
Proof.
  induction rs as [|[t0 [e0|v0]] rs IH]; cbn [first_failure]; [done| |].
  - destruct (first_failure rs) as [[t' e']|] eqn:E; [case_match|]; intros [= <- <-];
      [right; auto|left..]; done.
  - intros H. right. auto.
Qed.

(** The failure [Promise.all] reports: earlier than every failure
    before it in the list, not later than any after it. *)
Lemma first_failure_pick rs1 t e rs2 :
  (forall t' e', In (t', inl e') rs1 -> (t < t')%nat) ->
  (forall t' e', In (t', inl e') rs2 -> (t <= t')%nat) ->
  first_failure (rs1 ++ (t, inl e) :: rs2) = Some (t, e).
Proof.
  intros H1 H2. induction rs1 as [|[t0 [e0|v0]] rs1 IH]; cbn [app first_failure].
  - destruct (first_failure rs2) as [[t' e']|] eqn:E; [|done].
    apply first_failure_In, H2 in E. destruct (Nat.ltb_spec t' t); [lia|done].
  - rewrite IH by (intros; eapply H1; right; eauto).
    destruct (Nat.ltb_spec t t0); [done|]. exfalso. specialize (H1 t0 e0 (or_introl eq_refl)). lia.
  - apply IH. intros; eapply H1; right; eauto.
Qed.

(** ** Outcomes of [loadConfiguration] *)

Section Outcomes.
Import PathBuilder.Spec PathBuilder.Contract.
Context (io : world).

(** The read of a requested file fails. *)
Definition read_fails (p : string) : Prop :=
  exists e, read_file io (resolvePath (io_base io) p) = inl e.

(** When the read of a requested file completes. *)
Definition read_time (p : string) : nat := io_time io (resolvePath (io_base io) p).

Lemma collect_ok ps vs :
  Forall2 (fun p v => io_read io (resolvePath (io_base io) p) = FParsed v) ps vs ->
  collect (map (timed_read io) ps) = inr vs.
Proof.
  intros Hvs. unfold collect.
  enough (first_failure (map (timed_read io) ps) = None /\ all_values (map (timed_read io) ps) = vs)
    as [-> ->] by done.
  induction Hvs as [|p v ps vs Hp _ [IH1 IH2]]; [done|]. cbn [map].
  assert (Hr : read_file io (resolvePath (io_base io) p) = inr v) by (unfold read_file; by rewrite Hp).
  unfold timed_read at 1 3. cbv zeta. rewrite Hr. cbn [first_failure all_values]. by rewrite IH1, IH2.
Qed.

Lemma collect_err ps1 p ps2 e :
  read_file io (resolvePath (io_base io) p) = inl e ->
  (forall q, In q ps1 -> read_fails q -> read_time p < read_time q)%nat ->
  (forall q, In q ps2 -> read_fails q -> read_time p <= read_time q)%nat ->
  collect (map (timed_read io) (ps1 ++ p :: ps2)) = inl e.
Proof.
  intros He H1 H2. unfold collect. rewrite map_app. cbn [map].
  unfold timed_read at 2. fold (read_time p). rewrite He, first_failure_pick; [done| |];
    intros t' e' (q & Hq & Hin)%in_map_iff; unfold timed_read in Hq;
    injection Hq as <- Hq; [apply H1|apply H2]; try done; by exists e'.
Qed.

(** The environment tree when its entries are good. *)
Lemma env_tree prefix :
  forallb (good_entry prefix) (env_entries (io_env io)) = true ->
  exists te, loadFromEnv (io_env io) (mk_options false prefix None None) = Ok te /\
    is_object te = true /\ unfrozen te = true /\ hop_free te = true.
Proof.
  intros Hg. destruct (loader_tree (env_entries (io_env io)) (mk_options false prefix None None))
    as (te & Hte & Ho & Hf & Hs); [done|].
  exists te. split; [by unfold loadFromEnv|]. do 2 (split; [done|]). by apply merge_safe_hop_free.
Qed.

(** Lines 207-210 and 219-224: the flags are merged last, then the
    result is frozen. *)
Lemma finish_layers opts base ls r1 fs :
  argv_entries (io_argv io) = Ok (prim_source fs) -> forallb (good_entry None) fs = true ->
  extend_all base ls = Ok r1 -> is_object r1 = true -> unfrozen r1 = true -> hop_free r1 = true ->
  (forall p, get_leaf r1 p = layered_leaf base ls p) ->
  exists ta r, loadFromArgv (io_argv io) opts = Ok ta /\ finish io opts r1 = Ok r /\
    (forall p, get_leaf r p = layered_leaf base (ls ++ [ta]) p) /\
    (opt_freeze opts = true -> deep_frozen r = true).
Proof.
  intros Hfs Hg _ Ho Hf Hh Hl.
  destruct (loader_tree fs (mk_options (opt_freeze opts) None None None))
    as (ta & Hta & Hto & _ & Hts); [done|].
  set (ta' := if opt_freeze opts then deep_freeze ta else ta).
  assert (Hta' : is_object ta' && merge_safe ta' = true).
  { unfold ta'. destruct (opt_freeze opts); rewrite ?is_object_freeze, ?merge_safe_freeze;
    by apply andb_true_iff. }
  apply andb_true_iff in Hta' as [Hto' Hts'].
  destruct (extend_merges r1 ta' Ho Hf Hto' Hts') as (r2 & Hr2 & _ & _ & Hl2).
  pose proof (extend_hop_free ta' r1 r2 Hh Hts' Hr2) as Hh2.
  exists ta', (if opt_freeze opts then deep_freeze r2 else r2).
  split; [rewrite (loadFromArgv_entries _ _ _ Hfs); exact Hta|].
  split; [unfold finish; rewrite (loadFromArgv_entries _ _ _ Hfs), Hta, res_bind_ret; cbn [opt_freeze];
          fold ta'; rewrite Hr2, res_bind_ret, freeze_spec, Hh2; by destruct (opt_freeze opts)|].
  split.
  - intros p. unfold layered_leaf. rewrite fold_left_app. cbn [fold_left].
    replace (layer_cut ta' p) with (add_cut ta' p) by (destruct ta'; done).
    destruct (opt_freeze opts); rewrite ?freeze_leaf, Hl2, Hl; done.
  - intros ->. apply freeze_frozen.
Qed.

Lemma report_ok_quiet cb r k :
  (forall v, io_cb_throws io (POk v) = false) ->
  report_ok io cb r k = if cb then [ECall (POk r); EResolve r] else [EResolve r].
Proof. intros H. unfold report_ok. by rewrite H. Qed.

(** When the environment, every requested file and the flags load,
    [loadConfiguration] reports the merge of the layers; [on_throw] is
    what follows when the callback throws on it. *)
Lemma loadConfiguration_ok args files opts cb ps vs fs :
  dispatch args = (files, opts, cb) ->
  paths_of (files ++ found_files io opts) = Some ps ->
  Forall2 (fun p v => io_read io (resolvePath (io_base io) p) = FParsed v) ps vs ->
  Forall (fun v => layer_ok v = true) vs ->
  forallb (good_entry (opt_prefix opts)) (env_entries (io_env io)) = true ->
  argv_entries (io_argv io) = Ok (prim_source fs) -> forallb (good_entry None) fs = true ->
  exists te ta r,
    loadFromEnv (io_env io) (mk_options false (opt_prefix opts) None None) = Ok te /\
    loadFromArgv (io_argv io) opts = Ok ta /\
    loadConfiguration io args =
      OEvents (report_ok io cb r (match ps with
                                  | [] => [EReject EThrown]
                                  | _ => report_error io cb EThrown
                                  end)) /\
    (forall p, get_leaf r p = layered_leaf te (vs ++ [ta]) p) /\
    (opt_freeze opts = true -> deep_frozen r = true).
Proof.
  intros Hd Hps Hvs Hvo Henv Hfs Hflags.
  destruct (env_tree _ Henv) as (te & Hte & Hto & Htf & Hth).
  destruct (extend_all_layers te vs Hto Htf Hth Hvo) as (r1 & Hr1 & Ho1 & Hf1 & Hh1 & Hl1).
  destruct (finish_layers opts te vs r1 fs Hfs Hflags Hr1 Ho1 Hf1 Hh1 Hl1) as (ta & r & Hta & Hfin & Hl & Hfr).
  exists te, ta, r. do 2 (split; [done|]). split; [|done].
  unfold loadConfiguration. rewrite Hd, Hte. f_equal. unfold after_found.
  destruct (files ++ found_files io opts) as [|f fl] eqn:Ef.
  - injection Hps as <-. inversion Hvs; subst. injection Hr1 as <-. by rewrite Hfin.
  - rewrite Hps, (collect_ok ps vs Hvs), Hr1, res_bind_ret, Hfin.
    destruct ps; [|done]. by destruct f as [?| |]; cbn in Hps; [destruct (paths_of fl)|..].
Qed.

(** When a requested file fails first, [loadConfiguration] reports its
    error, on the path [report_error] describes. *)
Lemma loadConfiguration_err args files opts cb ps1 p ps2 e :
  dispatch args = (files, opts, cb) ->
  paths_of (files ++ found_files io opts) = Some (ps1 ++ p :: ps2) ->
  read_file io (resolvePath (io_base io) p) = inl e ->
  (forall q, In q ps1 -> read_fails q -> read_time p < read_time q)%nat ->
  (forall q, In q ps2 -> read_fails q -> read_time p <= read_time q)%nat ->
  forallb (good_entry (opt_prefix opts)) (env_entries (io_env io)) = true ->
  loadConfiguration io args = OEvents (report_error io cb e).
Proof.
  intros Hd Hps He H1 H2 Henv.
  destruct (env_tree _ Henv) as (te & Hte & _).
  unfold loadConfiguration. rewrite Hd, Hte. f_equal. unfold after_found.
  destruct (files ++ found_files io opts) as [|f fs] eqn:Ef; [by destruct ps1|].
  by rewrite Hps, (collect_err ps1 p ps2 e He H1 H2).
Qed.

Lemma extend_all_app base vs1 vs2 :
  extend_all base (vs1 ++ vs2) = (r ← extend_all base vs1; extend_all r vs2).
Proof.
  revert base. induction vs1 as [|v vs1 IH]; intros base; [done|]. cbn [app extend_all].
  destruct (extend base v); [apply IH|done].
Qed.

(** C3. Spec sections 2, 4.4 and 9 (precedence): when the
    environment, every requested file and the flags load, the result
    has at every path the leaf of the last source that reaches it, in
    the order environment, files in the order given (the directory
    files after them), flags; a file holding a string counts as the
    object of its characters, one holding a number, a boolean or
    [null] changes nothing; the callback (when given) and then the
    promise receive the result, and it is frozen when [freeze] is
    set. *)
Theorem loadConfiguration_layers args files opts cb ps vs fs :
  dispatch args = (files, opts, cb) ->
  paths_of (files ++ found_files io opts) = Some ps ->
  Forall2 (fun p v => io_read io (resolvePath (io_base io) p) = FParsed v) ps vs ->
  Forall (fun v => layer_ok v = true) vs ->
  forallb (good_entry (opt_prefix opts)) (env_entries (io_env io)) = true ->
  argv_entries (io_argv io) = Ok (prim_source fs) -> forallb (good_entry None) fs = true ->
  (forall v, io_cb_throws io (POk v) = false) ->
  exists te ta r,
    loadFromEnv (io_env io) (mk_options false (opt_prefix opts) None None) = Ok te /\
    loadFromArgv (io_argv io) opts = Ok ta /\
    loadConfiguration io args = OEvents (if cb then [ECall (POk r); EResolve r] else [EResolve r]) /\
    (forall p, get_leaf r p = layered_leaf te (vs ++ [ta]) p) /\
    (opt_freeze opts = true -> deep_frozen r = true).
Proof.
  intros Hd Hps Hvs Hvo Henv Hfs Hflags Hcb.
  destruct (loadConfiguration_ok args files opts cb ps vs fs) as (te & ta & r & H1 & H2 & H3 & H4);
    [done..|].
  exists te, ta, r. rewrite H3, report_ok_quiet by done. done.
Qed.

(** C12. Spec section 7 names read and parse errors as the failures of
    a load.  A requested file whose object owns a [hasOwnProperty],
    after files that merge, makes [add.hasOwnProperty(key)] (line 294)
    throw in the [then] callback of [Promise.all]: the load fails with a
    [TypeError], which the callback (when given) receives and the
    promise is rejected with. *)
Theorem loadConfiguration_file_hop args files opts cb ps1 p ps2 vs1 k fr aps vs2 :
  dispatch args = (files, opts, cb) ->
  paths_of (files ++ found_files io opts) = Some (ps1 ++ p :: ps2) ->
  Forall2 (fun p v => io_read io (resolvePath (io_base io) p) = FParsed v)
          (ps1 ++ p :: ps2) (vs1 ++ VObj k fr aps :: vs2) ->
  Forall (fun v => layer_ok v = true) vs1 -> In "hasOwnProperty" (map fst aps) ->
  forallb (good_entry (opt_prefix opts)) (env_entries (io_env io)) = true ->
  io_cb_throws io (PErr (EJs TypeError)) = false ->
  loadConfiguration io args =
    OEvents (if cb then [ECall (PErr (EJs TypeError)); EReject (EJs TypeError)]
             else [EReject (EJs TypeError)]).
Proof.
  intros Hd Hps Hvs Hvo Hin Henv Hcb.
  destruct (env_tree _ Henv) as (te & Hte & Hto & Htf & Hth).
  destruct (extend_all_layers te vs1 Hto Htf Hth Hvo) as (r1 & Hr1 & _).
  unfold loadConfiguration. rewrite Hd, Hte. f_equal. unfold after_found.
  destruct (files ++ found_files io opts) as [|f fs] eqn:Ef; [by destruct ps1|].
  rewrite Hps, (collect_ok _ _ Hvs), extend_all_app, Hr1, res_bind_ret. cbn [extend_all].
  rewrite extend_obj, owns_hop_In by done. cbn [mbind res_mbind res_bind].
  unfold report_error. by rewrite Hcb.
Qed.

(** C15. Spec section 6 says exactly one completion path fires per
    call.  When the files load and the callback throws on the result,
    the callback is called a second time, with its own exception, and
    the promise is rejected instead of resolved. *)
Theorem loadConfiguration_callback_twice args files opts ps vs fs :
  dispatch args = (files, opts, true) ->
  paths_of (files ++ found_files io opts) = Some ps -> ps <> [] ->
  Forall2 (fun p v => io_read io (resolvePath (io_base io) p) = FParsed v) ps vs ->
  Forall (fun v => layer_ok v = true) vs ->
  forallb (good_entry (opt_prefix opts)) (env_entries (io_env io)) = true ->
  argv_entries (io_argv io) = Ok (prim_source fs) -> forallb (good_entry None) fs = true ->
  (forall v, io_cb_throws io (POk v) = true) -> io_cb_throws io (PErr EThrown) = false ->
  exists r, loadConfiguration io args =
    OEvents [ECall (POk r); ECall (PErr EThrown); EReject EThrown].
Proof.
  intros Hd Hps Hne Hvs Hvo Henv Hfs Hflags Hok Herr.
  destruct (loadConfiguration_ok args files opts true ps vs fs) as (te & ta & r & _ & _ & H3 & _);
    [done..|].
  exists r. rewrite H3. destruct ps; [done|]. unfold report_ok, report_error. by rewrite Hok, Herr.
Qed.

(** C10. Spec section 7: when a requested file cannot be read or
    parsed, and its read fails before that of every other failing file
    ([Promise.all] rejects with the first rejection in time; of two at
    the same time, the earlier in the list), the whole load fails with
    its error: the callback (when given) receives it and the promise is
    rejected with it; no result is delivered. *)
Theorem loadConfiguration_file_error args files opts cb ps1 p ps2 e :
  dispatch args = (files, opts, cb) ->
  paths_of (files ++ found_files io opts) = Some (ps1 ++ p :: ps2) ->
  read_file io (resolvePath (io_base io) p) = inl e ->
  (forall q, In q ps1 -> read_fails q -> read_time p < read_time q)%nat ->
  (forall q, In q ps2 -> read_fails q -> read_time p <= read_time q)%nat ->
  forallb (good_entry (opt_prefix opts)) (env_entries (io_env io)) = true ->
  io_cb_throws io (PErr e) = false ->
  loadConfiguration io args = OEvents (if cb then [ECall (PErr e); EReject e] else [EReject e]).
Proof.
  intros Hd Hps He H1 H2 Henv Hcb.
  rewrite (loadConfiguration_err args files opts cb ps1 p ps2 e) by done.
  unfold report_error. by rewrite Hcb.
Qed.

(** C17. When the first requested file to fail in time fails and the
    callback throws on the error, [reject] (line 231) is never reached:
    the returned promise never settles and the exception is an
    unhandled rejection. *)
Theorem loadConfiguration_error_never_settles args files opts ps1 p ps2 e :
  dispatch args = (files, opts, true) ->
  paths_of (files ++ found_files io opts) = Some (ps1 ++ p :: ps2) ->
  read_file io (resolvePath (io_base io) p) = inl e ->
  (forall q, In q ps1 -> read_fails q -> read_time p < read_time q)%nat ->
  (forall q, In q ps2 -> read_fails q -> read_time p <= read_time q)%nat ->
  forallb (good_entry (opt_prefix opts)) (env_entries (io_env io)) = true ->
  io_cb_throws io (PErr e) = true ->
  loadConfiguration io args = OEvents [ECall (PErr e); EUnhandled].
Proof.
  intros Hd Hps He H1 H2 Henv Hcb.
  rewrite (loadConfiguration_err args files opts true ps1 p ps2 e) by done.
  unfold report_error. by rewrite Hcb.
Qed.

(** C16. Spec sections 6 and 7 say both channels report every
    failure.  With no file to load, an error while loading the flags
    (line 207) goes to [.catch(reject)] only: the callback is never
    called. *)
Theorem loadConfiguration_no_files_skips_callback args opts cb e :
  dispatch args = ([], opts, cb) -> found_files io opts = [] ->
  forallb (good_entry (opt_prefix opts)) (env_entries (io_env io)) = true ->
  loadFromArgv (io_argv io) opts = Err e -> (forall k, e <> Proto k) ->
  loadConfiguration io args = OEvents [EReject (EJs e)].
Proof.
  intros Hd Hf Henv Ha He. destruct (env_tree _ Henv) as (te & Hte & _).
  unfold loadConfiguration. rewrite Hd, Hte, Hf. cbn [app after_found].
  unfold finish. rewrite Ha. destruct e as [|k|]; [done|by destruct (He k)|done].
Qed.

(** C19. An environment variable named [hasOwnProperty] makes
    [obj.hasOwnProperty(key)] (line 34) call a string: [loadFromEnv]
    throws a [TypeError] inside [loadConfiguration] (line 190), before
    the promise exists, so neither the callback nor a promise reports
    it. *)
Theorem loadConfiguration_env_hop args files opts cb :
  dispatch args = (files, opts, cb) -> In "hasOwnProperty" (map fst (io_env io)) ->
  loadConfiguration io args = OThrow (EJs TypeError).
Proof.
  intros Hd Hin. unfold loadConfiguration. rewrite Hd.
  unfold loadFromEnv, loadFromObject. by rewrite env_owns_hop.
Qed.

(** C18. [loadFromFile(path, callback)] (lines 116-127): a function is
    an [Object], so it is taken as the options and the callback stays
    [noop]; the caller's function is never called.  The file is frozen,
    as the default options say, and the promise then settles once: it
    is rejected with the read error, or resolved with the frozen tree;
    when the tree owns a [hasOwnProperty], [freeze] throws inside the
    [readFile] callback (line 150) and the promise never settles. *)
Theorem loadFromFile_ignores_callback file :
  loadFromFile io [APath file; ACallback] =
  OEvents [match read_file io (resolvePath (io_base io) file) with
           | inl e => EReject e
           | inr v => if hop_free v then EResolve (deep_freeze v) else EUnhandled
           end].
Proof.
  unfold loadFromFile. cbn -[read_file freeze].
  destruct (read_file io _) as [e|v]; [done|]. rewrite freeze_spec. by destruct (hop_free v).
Qed.

End Outcomes.

(** ** Scenarios *)

Module Scenarios.

Definition num (n : N) : prim := PNum (make_number false n 0).

Definition file_a : value :=
  VObj KObject false [("port", VPrim (num 80)); ("db", VObj KObject false [("host", VPrim (PStr "a"))])].

Definition file_b : value :=
  VObj KObject false [("db", VObj KObject false [("user", VPrim (PStr "b"))])].

Definition disk (p : string) : file_read :=
  if String.eqb p "/app/a.json" then FParsed file_a
  else if String.eqb p "/app/conf/development.json" then FParsed file_b
  else if String.eqb p "/app/n.json" then FParsed (VPrim (num 7))
  else if String.eqb p "/app/s.json" then FParsed (VPrim (PStr "xy"))
  else if String.eqb p "/app/h.json" then FParsed (VObj KObject false [("hasOwnProperty", VPrim (num 1))])
  else FMissing.

(** The read of [/app/gone.json] completes before the others. *)
Definition disk_time (p : string) : nat := if String.eqb p "/app/gone.json" then 1 else 5.

Definition world_of (env : list (string * string)) (flags : list string)
    (throws : payload -> bool) : world :=
  mk_world env flags "/app" disk disk_time (fun p => String.eqb p "/app/conf/development.json") throws.

Definition env0 : list (string * string) := [("DB_HOST", "env"); ("X", "1")].
Definition flags0 : list string := ["node"; "app.js"; "--port=90"].
Definition quiet : world := world_of env0 flags0 (fun _ => false).

(** [{ freeze: false, dir: 'conf' }] *)
Definition with_dir : user_options := mk_user_options (Some false) None None (Some (Some "conf")).
Definition opts_dir : options := merge_options default_options with_dir.

(** [loadConfiguration('a', { freeze: false, dir: 'conf' }, cb)]: the
    environment, then [a.json], then [conf/development.json], then the
    flags. *)
Example scenario_run :
  loadConfiguration quiet [APath "a"; AOptions with_dir; ACallback] =
  OEvents (let r := VObj KObject false
                      [("db", VObj KObject false [("host", VPrim (PStr "a")); ("user", VPrim (PStr "b"))]);
                       ("x", VPrim (num 1)); ("port", VPrim (num 90))] in
           [ECall (POk r); EResolve r]).
Proof. vm_compute. reflexivity. Qed.

(** Spec section 8, end-to-end scenario: the environment
    [{ my_app_domain: "a.com", my_app_redis_auth: "x" }], the command
    line [--cookie_secret=barfoo --http_port=8080] (which [minimist]
    parses into the string ["barfoo"] and the number 8080) and the options
    [{ prefix: "my_app" }].  The spec expects [cookie_secret] and
    [http_port] at the top level; the code splits the flags' keys on [_]
    like every other key and nests them. *)
Example end_to_end_scenario :
  loadConfiguration
    (mk_world [("my_app_domain", "a.com"); ("my_app_redis_auth", "x")]
              ["node"; "app.js"; "--cookie_secret=barfoo"; "--http_port=8080"]
              "/app" disk disk_time (fun _ => false) (fun _ => false))
    [AOptions (mk_user_options None (Some (Some "my_app")) None None)] =
  OEvents [EResolve (VObj KObject true
    [("domain", VPrim (PStr "a.com"));
     ("redis", VObj KObject true [("auth", VPrim (PStr "x"))]);
     ("cookie", VObj KObject true [("secret", VPrim (PStr "barfoo"))]);
     ("http", VObj KObject true [("port", VPrim (num 8080))])])].
Proof. vm_compute. reflexivity. Qed.

(** [src/test/example.js]: [process.env] replaced by four variables
    ([my_app_cookie_maxAge] holds the number 365, which [parseValue]
    treats as its string ["365"]), the command line
    [--cookie_secret=barfoo --http_port=8080] and
    [conf('./example', { prefix: 'my_app' })], with [base] the directory
    of the script. *)
Definition example_env : list (string * string) :=
  [("my_app_domain", "my-great-app.com"); ("my_app_redis_auth", "foobar");
   ("my_app_cookie_secret", "foobar"); ("my_app_cookie_maxAge", "365")].

Definition example_argv : list string :=
  ["node"; "example.js"; "--cookie_secret=barfoo"; "--http_port=8080"].

Definition example_world (read : string -> file_read) : world :=
  mk_world example_env example_argv "/pkg/test" read (fun _ => 0) (fun _ => false) (fun _ => false).

Definition example_args : list arg :=
  [APath "./example"; AOptions (mk_user_options None (Some (Some "my_app")) None None)].

(** The example script: without an [example.json] beside it the
    promise is rejected with the read error for [/pkg/test/example.json]
    (the script prints it); with an empty object in that file the
    configuration has [domain], [redis.auth], [cookie.maxage] (the key
    lower-cased) and the flags' [cookie.secret] (overriding the
    environment's) and [http.port], all frozen. *)
Example example_js_scenario :
  loadConfiguration (example_world (fun _ => FMissing)) example_args =
    OEvents [EReject (ENoFile "/pkg/test/example.json")] /\
  loadConfiguration
    (example_world (fun p => if String.eqb p "/pkg/test/example.json" then FParsed empty_object
                             else FMissing)) example_args =
    OEvents [EResolve (VObj KObject true
      [("domain", VPrim (PStr "my-great-app.com"));
       ("redis", VObj KObject true [("auth", VPrim (PStr "foobar"))]);
       ("cookie", VObj KObject true [("secret", VPrim (PStr "barfoo")); ("maxage", VPrim (num 365))]);
       ("http", VObj KObject true [("port", VPrim (num 8080))])])].
Proof. split; vm_compute; reflexivity. Qed.

Lemma loadConfiguration_layers_witness :
  exists te ta r,
    loadFromEnv env0 (mk_options false None None None) = Ok te /\
    loadFromArgv flags0 opts_dir = Ok ta /\
    loadConfiguration quiet [APath "a"; APath "n"; APath "s"; AOptions with_dir; ACallback] =
      OEvents [ECall (POk r); EResolve r] /\
    (forall p, get_leaf r p =
       layered_leaf te ([file_a; VPrim (num 7); VPrim (PStr "xy"); file_b] ++ [ta]) p) /\
    (opt_freeze opts_dir = true -> deep_frozen r = true).
Proof.
  apply (loadConfiguration_layers quiet [APath "a"; APath "n"; APath "s"; AOptions with_dir; ACallback]
           [APath "a"; APath "n"; APath "s"] opts_dir true ["a"; "n"; "s"; "/app/conf/development.json"]
           [file_a; VPrim (num 7); VPrim (PStr "xy"); file_b] [("port", num 90)]);
    try reflexivity; repeat constructor.
Defined.

Lemma loadConfiguration_callback_twice_witness :
  exists r, loadConfiguration (world_of env0 flags0 (fun p => match p with POk _ => true | _ => false end))
              [APath "a"; ACallback] =
            OEvents [ECall (POk r); ECall (PErr EThrown); EReject EThrown].
Proof.
  apply (loadConfiguration_callback_twice _ [APath "a"; ACallback] [APath "a"] default_options
           ["a"] [file_a] [("port", num 90)]); try reflexivity; try discriminate; repeat constructor.
Defined.

(** [loadFromFile('h', cb)] on a file that owns a [hasOwnProperty]:
    [freeze] throws in the [readFile] callback. *)
Example loadFromFile_hop_unhandled :
  loadFromFile quiet [APath "h"; ACallback] = OEvents [EUnhandled].
Proof. vm_compute. reflexivity. Qed.

Lemma loadConfiguration_file_error_witness :
  loadConfiguration quiet [APath "a"; APath "missing"; APath "gone"; ACallback] =
  OEvents [ECall (PErr (ENoFile "/app/gone.json")); EReject (ENoFile "/app/gone.json")].
Proof.
  apply (loadConfiguration_file_error quiet _ [APath "a"; APath "missing"; APath "gone"] default_options
           true ["a"; "missing"] "gone" []); try reflexivity.
  - intros q [<-|[<-|[]]] [e' He']; [vm_compute in He'; discriminate|vm_compute; lia].
  - intros q [].
Defined.

Lemma loadConfiguration_file_hop_witness :
  loadConfiguration quiet [APath "a"; APath "h"; ACallback] =
  OEvents [ECall (PErr (EJs TypeError)); EReject (EJs TypeError)].
Proof.
  apply (loadConfiguration_file_hop quiet _ [APath "a"; APath "h"] default_options true ["a"] "h" []
           [file_a] KObject false [("hasOwnProperty", VPrim (num 1))] []);
    try reflexivity; repeat constructor.
Defined.

Lemma loadConfiguration_error_never_settles_witness :
  loadConfiguration (world_of env0 flags0 (fun p => match p with PErr _ => true | _ => false end))
    [APath "missing"; ACallback] =
  OEvents [ECall (PErr (ENoFile "/app/missing.json")); EUnhandled].
Proof.
  apply (loadConfiguration_error_never_settles _ _ [APath "missing"] default_options
           [] "missing" []); try reflexivity; intros q [].
Defined.

Lemma loadConfiguration_no_files_skips_callback_witness :
  loadConfiguration (world_of env0 ["node"; "app.js"; "--constructor=x"] (fun _ => false)) [ACallback] =
  OEvents [EReject (EJs TypeError)].
Proof.
  apply (loadConfiguration_no_files_skips_callback _ _ default_options true); try reflexivity.
  intros k. discriminate.
Defined.

Lemma loadConfiguration_env_hop_witness :
  loadConfiguration (world_of [("X", "1"); ("hasOwnProperty", "x")] flags0 (fun _ => false)) [ACallback] =
  OThrow (EJs TypeError).
Proof.
  apply (loadConfiguration_env_hop _ _ [] default_options true); [reflexivity|simpl; auto].
Defined.

End Scenarios.
