(* ===== verification/BlackBox.v ===== *)
(** * BlackBox: the test script [src/test/index.js]

    The script replaces [process.env] and [process.argv] by the fixtures
    [env.json] and [argv.json], loads [./file] with the options
    [{ dirs: ['./', './env_spec'], prefix: 'npm' }] and compares the
    result with the fixture [parsed.json] by [assert.deepEqual]; a
    rejection or a failed comparison ends the process with code 1.

    The fixtures are not among the sources: they are inputs here, like
    the file system of [Orchestrator.world] ([env.json] holding strings,
    as an environment does).  [assert.deepEqual] is Node's legacy
    (loose) deep equality: primitives are compared with [==] (two [NaN]
    are equal), objects must both be plain objects or both arrays, with
    the same set of own keys, compared key by key; key order and frozen
    flags are not looked at. *)

From S2P Require Import Prelude JsString JsNumber JsValue Normalizer Loaders Orchestrator.

(** ** [==] on primitives *)

Definition bool_num (b : bool) : number := if b then one else zero.

(** [Number::equal]: [NaN] equals nothing, [+0] equals [-0]. *)
Definition num_eq (a b : number) : bool :=
  match a, b with
  | Finite s1 m1 e1, Finite s2 m2 e2 =>
      ((m1 =? 0)%N && (m2 =? 0)%N) || (Bool.eqb s1 s2 && (m1 =? m2)%N && (e1 =? e2)%Z)
  | Infinity s1, Infinity s2 => Bool.eqb s1 s2
  | _, _ => false
  end.

(** [n == y] for a number [n]: a string or a boolean operand is
    converted with [ToNumber]; [undefined] and [null] equal no number. *)
Definition num_vs (n : number) (y : prim) : bool :=
  match y with
  | PNum m => num_eq n m
  | PStr s => num_eq n (string_to_number s)
  | PBool b => num_eq n (bool_num b)
  | PUndef | PNull => false
  end.

(** The Abstract Equality Comparison [x == y] on primitives. *)
Definition loose_eq (x y : prim) : bool :=
  match x, y with
  | (PUndef | PNull), (PUndef | PNull) => true
  | (PUndef | PNull), _ | _, (PUndef | PNull) => false
  | PStr a, PStr b => String.eqb a b
  | PBool a, PBool b => Bool.eqb a b
  | PNum a, _ => num_vs a y
  | PBool a, _ => num_vs (bool_num a) y
  | PStr a, PNum b => num_eq (string_to_number a) b
  | PStr a, PBool b => num_eq (string_to_number a) (bool_num b)
  end.

Definition is_nan_prim (p : prim) : bool :=
  match p with PNum n => is_nan n | _ => false end.

(** [val1 == val2 || (NumberIsNaN(val1) && NumberIsNaN(val2))]. *)
Definition prim_deq (x y : prim) : bool := loose_eq x y || (is_nan_prim x && is_nan_prim y).

(** [assert.deepEqual(actual, expected)]: the same kind of object (the
    tags [[object Object]] and [[object Array]]), as many own keys, each
    key of [actual] owned by [expected] with a deeply equal value. *)
Fixpoint deep_equal (a b : value) : bool :=
  match a, b with
  | VPrim x, VPrim y => prim_deq x y
  | VObj ka _ pa, VObj kb _ pb =>
      bool_decide (ka = kb) && (length pa =? length pb) &&
      forallb (fun kv => match assoc kv.1 pb with
                         | Some y => deep_equal kv.2 y
                         | None => false
                         end) pa
  | _, _ => false
  end.

(** ** The script *)

(** Lines 9-12. *)
Definition test_opts : user_options :=
  mk_user_options None (Some (Some "npm")) (Some (Some ["./"; "./env_spec"])) None.

(** Lines 14-15: the fixtures become the environment and the command
    line; [base] is the directory of the script. *)
Definition test_world (env : list (string * string)) (argv : list string)
    (read : string -> file_read) (exists_ : string -> bool) : world :=
  mk_world env argv "/pkg/test" read (fun _ => 0) exists_ (fun _ => false).

(** The exit code of the script; [ExitOutside] when the run leaves the
    model through the prototype chain. *)
Inductive exit_code : Type := Exit0 | Exit1 | ExitOutside.

(** Lines 17-29: [expected] is [parsed.json], [None] when it is missing
    (its [require] throws inside [then]).  A synchronous throw of
    [conf] is uncaught and ends the process with code 1; a promise that
    never settles lets the process end with code 0. *)
Definition test_index (io : world) (expected : option value) : exit_code :=
  match loadConfiguration io [APath "./file"; AOptions test_opts] with
  | OThrow _ => Exit1
  | OOutside _ | OEvents (EOutside _ :: _) => ExitOutside
  | OEvents (EResolve r :: _) =>
      match expected with
      | Some e => if deep_equal r e then Exit0 else Exit1
      | None => Exit1
      end
  | OEvents (_ :: _) => Exit1
  | OEvents [] => Exit0
  end.

(** ** Key order does not matter *)

#[export] Instance forallb_perm {A} (f : A -> bool) : Proper ((≡ₚ) ==> eq) (forallb f).
Proof.
  intros l l' Hp. induction Hp as [|x l l' _ IH|x y l|l l' l'' _ IH1 _ IH2]; simpl.
  - done.
  - by rewrite IH.
  - by rewrite !andb_assoc, (andb_comm (f y)).
  - by rewrite IH1.
Qed.

Lemma assoc_perm {V} k (l l' : list (string * V)) :
  NoDup (map fst l) -> l ≡ₚ l' -> assoc k l = assoc k l'.
Proof.
  intros Hnd Hp. assert (Hnd' : NoDup (map fst l')) by (by rewrite <- Hp).
  destruct (assoc k l) as [v|] eqn:E.
  - symmetry. apply assoc_NoDup_In; [done|]. apply list_elem_of_In.
    rewrite <- Hp. apply list_elem_of_In. by apply assoc_In.
  - destruct (assoc k l') as [v|] eqn:E'; [|done].
    apply assoc_In in E'. apply list_elem_of_In in E'. rewrite <- Hp in E'.
    apply list_elem_of_In, (assoc_NoDup_In _ _ _ Hnd) in E'. congruence.
Qed.

(** [assert.deepEqual] looks neither at the order of the own
    properties nor at freezing: reordering the properties of an object
    with distinct keys, on either side, and changing its frozen flag
    leave the verdict unchanged.  So the enumeration order of
    JavaScript objects, which the model keeps as insertion order, cannot
    change the outcome of the test. *)
Theorem deep_equal_reorder k fr fr' ps ps' b :
  ps ≡ₚ ps' -> NoDup (map fst ps) ->
  deep_equal (VObj k fr ps) b = deep_equal (VObj k fr' ps') b /\
  deep_equal b (VObj k fr ps) = deep_equal b (VObj k fr' ps').
Proof.
  intros Hp Hnd. split.
  - destruct b as [y|kb frb pb]; [done|]. cbn [deep_equal].
    by rewrite Hp.
  - destruct b as [y|kb frb pb]; [done|]. cbn [deep_equal].
    rewrite (Permutation_length Hp). f_equal.
    apply forallb_ext_In. intros [key x] _. cbn [fst snd].
    by rewrite (assoc_perm key ps ps').
Qed.

Lemma deep_equal_reorder_witness :
  [("a", VPrim (PStr "x")); ("b", VPrim PNull)] ≡ₚ [("b", VPrim PNull); ("a", VPrim (PStr "x"))] /\
  NoDup (map fst [("a", VPrim (PStr "x")); ("b", VPrim PNull)]) /\
  deep_equal (VObj KObject false [("a", VPrim (PStr "x")); ("b", VPrim PNull)])
             (VObj KObject true [("b", VPrim PUndef); ("a", VPrim (PStr "x"))]) =
  deep_equal (VObj KObject true [("b", VPrim PNull); ("a", VPrim (PStr "x"))])
             (VObj KObject true [("b", VPrim PUndef); ("a", VPrim (PStr "x"))]) /\
  deep_equal (VObj KObject true [("b", VPrim PUndef); ("a", VPrim (PStr "x"))])
             (VObj KObject false [("a", VPrim (PStr "x")); ("b", VPrim PNull)]) =
  deep_equal (VObj KObject true [("b", VPrim PUndef); ("a", VPrim (PStr "x"))])
             (VObj KObject true [("b", VPrim PNull); ("a", VPrim (PStr "x"))]).
Proof.
  assert (Hp : [("a", VPrim (PStr "x")); ("b", VPrim PNull)] ≡ₚ
               [("b", VPrim PNull); ("a", VPrim (PStr "x"))]) by apply perm_swap.
  assert (Hnd : NoDup (map fst [("a", VPrim (PStr "x")); ("b", VPrim PNull)]))
    by (repeat constructor; set_solver).
  split; [exact Hp|]. split; [exact Hnd|].
  exact (deep_equal_reorder KObject false true _ _
           (VObj KObject true [("b", VPrim PUndef); ("a", VPrim (PStr "x"))]) Hp Hnd).
Defined.

(** ** The script on fixtures *)

Module Fixtures.

Definition str (s : string) : value := VPrim (PStr s).

Definition env_json : list (string * string) :=
  [("npm_package_name", "c11n"); ("npm_config_port", "80"); ("HOME", "/root")].

Definition argv_json : list string := ["node"; "index.js"; "--verbose"].

Definition file_json : value := VObj KObject false [("db", VObj KObject false [("host", str "h")])].

Definition disk (p : string) : file_read :=
  if String.eqb p "/pkg/test/file.json" then FParsed file_json else FMissing.

Definition world0 : world := test_world env_json argv_json disk (fun _ => false).

(** [parsed.json] as a reader would write it for this configuration:
    [verbose] as a boolean, the port as a string, in another key
    order. *)
Definition parsed_json (verbose : bool) : value :=
  VObj KObject false
    [("verbose", VPrim (PBool verbose)); ("db", VObj KObject false [("host", str "h")]);
     ("config", VObj KObject false [("port", str "80")]);
     ("package", VObj KObject false [("name", str "c11n")])].

End Fixtures.

Import Fixtures.

(** The black-box test compares loosely: the configuration holds
    [verbose: 1] (the bare flag coerced by [parseValue]) and the number
    80, and the test passes against a [parsed.json] with
    [verbose: true] and the string ["80"] in another key order; it fails
    only for [verbose: false] or without [parsed.json].  The coercion of
    booleans to numbers cannot be caught by this test. *)
Example test_index_loose :
  loadConfiguration world0 [APath "./file"; AOptions test_opts] =
    OEvents [EResolve (VObj KObject true
      [("package", VObj KObject true [("name", str "c11n")]);
       ("config", VObj KObject true [("port", VPrim (PNum (Finite false 8 1)))]);
       ("db", VObj KObject true [("host", str "h")]);
       ("verbose", VPrim (PNum one))])] /\
  test_index world0 (Some (parsed_json true)) = Exit0 /\
  test_index world0 (Some (parsed_json false)) = Exit1 /\
  test_index world0 None = Exit1.
Proof. repeat split; vm_compute; reflexivity. Qed.
